(** * yLab::RB_Tree (include/rb_tree.hpp): a shallow embedding and its properties

    The container is a red-black tree over nodes that live in an arena
    ([nodes_], a vector of owning handles) and are linked by raw
    [left_]/[right_]/[parent_] pointers; the root hangs off the [left_] slot
    of a sentinel ([end_node_]), which is also the root's parent.

    Pointers are modelled relative to the tree that owns them: a pointer is
    null, the tree's sentinel, or the index of a slot of [nodes_] (slots are
    never moved or released, so an index is as stable as the address it
    stands for).  Reading or writing through a pointer that designates
    nothing is undefined behaviour and has no result ([None]); loops carry
    fuel bounded by the size of the arena, and running out of it (a walk
    over a cyclic heap, which would not terminate) has no result either. *)

From stdpp Require Import base option list sorting sets.

#[local] Set Warnings "-clear-no-such-hyp".

(** ** Data model *)

Inductive RB_Color := red | black.

#[global] Instance RB_Color_eq_dec : EqDecision RB_Color.
Proof. solve_decision. Defined.

Inductive node_ptr := nullptr | end_addr | node_addr (i : nat).

#[global] Instance node_ptr_eq_dec : EqDecision node_ptr.
Proof. solve_decision. Defined.

(** Modelled from the spec: nodes.hpp is not part of the sources.  A node
    holds its key, a color and three links (spec, section 3); rb_tree.hpp
    builds one with [node_type{key, color}] and relies on the three links of
    a fresh node being null (the copy constructor tests
    [node->left_ == nullptr] on a node it has just created). *)
Record RB_Node (Key : Type) := mk_node {
  key : Key;
  color_ : RB_Color;
  left_ : node_ptr;
  right_ : node_ptr;
  parent_ : node_ptr
}.
Arguments mk_node {Key} _ _ _ _ _.
Arguments key {Key} _.
Arguments color_ {Key} _.
Arguments left_ {Key} _.
Arguments right_ {Key} _.
Arguments parent_ {Key} _.

(** Modelled from the spec: the sentinel ("a lightweight structure distinct
    from Node, holding a single left link used as the root slot"). *)
Record End_Node := mk_end { end_left_ : node_ptr }.

(** The data members of [RB_Tree], in declaration order.  [end_node_] is a
    [unique_ptr]: it is [None] when the handle holds no sentinel.
    [size_] is a [std::size_t]; it is a natural number here because it only
    ever counts nodes that are held in memory at the same time. *)
Record RB_Tree (Key : Type) := mk_tree {
  nodes_ : list (RB_Node Key);
  end_node_ : option End_Node;
  leftmost_ : node_ptr;
  rightmost_ : node_ptr;
  size_ : nat
}.
Arguments mk_tree {Key} _ _ _ _ _.
Arguments nodes_ {Key} _.
Arguments end_node_ {Key} _.
Arguments leftmost_ {Key} _.
Arguments rightmost_ {Key} _.
Arguments size_ {Key} _.

(** What a call that may allocate ends with: a value and the final state,
    [std::bad_alloc] leaving the function with the state as it is at the
    throw, or no defined result. *)
Inductive outcome (Key A : Type) :=
  | Returns (a : A) (t : RB_Tree Key)
  | Throws (t : RB_Tree Key)
  | Undefined.
Arguments Returns {Key A} _ _.
Arguments Throws {Key A} _.
Arguments Undefined {Key A}.

(** The two places where [insert_node] can fail: the [new] expression, and
    the [push_back] that has to grow the vector. *)
Inductive alloc_outcome := alloc_ok | new_fails | push_back_fails.

(** The allocator is an oracle: what happens to the allocation made when the
    arena already holds [n] nodes. *)
Definition allocator := nat -> alloc_outcome.

Definition plenty : allocator := fun _ => alloc_ok.

Definition exhausted_at (n : nat) (how : alloc_outcome) : allocator :=
  fun m => if bool_decide (m = n) then how else alloc_ok.

Section Memory.
Context {Key : Type}.
Implicit Types (t : RB_Tree Key) (n : RB_Node Key) (p q : node_ptr).

Definition with_color n (c : RB_Color) : RB_Node Key :=
  mk_node (key n) c (left_ n) (right_ n) (parent_ n).
Definition with_left n q : RB_Node Key :=
  mk_node (key n) (color_ n) q (right_ n) (parent_ n).
Definition with_right n q : RB_Node Key :=
  mk_node (key n) (color_ n) (left_ n) q (parent_ n).
Definition with_parent n q : RB_Node Key :=
  mk_node (key n) (color_ n) (left_ n) (right_ n) q.

Definition with_nodes t (h : list (RB_Node Key)) : RB_Tree Key :=
  mk_tree h (end_node_ t) (leftmost_ t) (rightmost_ t) (size_ t).
Definition with_end t (e : option End_Node) : RB_Tree Key :=
  mk_tree (nodes_ t) e (leftmost_ t) (rightmost_ t) (size_ t).
Definition with_leftmost t p : RB_Tree Key :=
  mk_tree (nodes_ t) (end_node_ t) p (rightmost_ t) (size_ t).
Definition with_rightmost t p : RB_Tree Key :=
  mk_tree (nodes_ t) (end_node_ t) (leftmost_ t) p (size_ t).
Definition with_size t (s : nat) : RB_Tree Key :=
  mk_tree (nodes_ t) (end_node_ t) (leftmost_ t) (rightmost_ t) s.

(** [p->field]: only a node has a key, a color, a right link and a parent;
    the sentinel has a left link too. *)
Definition node_at t p : option (RB_Node Key) :=
  match p with
  | node_addr i => nodes_ t !! i
  | _ => None
  end.

Definition load_key t p : option Key := key <$> node_at t p.
Definition load_color t p : option RB_Color := color_ <$> node_at t p.
Definition load_right t p : option node_ptr := right_ <$> node_at t p.
Definition load_parent t p : option node_ptr := parent_ <$> node_at t p.
Definition load_left t p : option node_ptr :=
  match p with
  | nullptr => None
  | end_addr => end_left_ <$> end_node_ t
  | node_addr i => left_ <$> nodes_ t !! i
  end.

(** [p->field = v] *)
Definition store_node t p (f : RB_Node Key -> RB_Node Key) : option (RB_Tree Key) :=
  match p with
  | node_addr i =>
      match nodes_ t !! i with
      | Some n => Some (with_nodes t (<[i := f n]> (nodes_ t)))
      | None => None
      end
  | _ => None
  end.

Definition store_color t p (c : RB_Color) := store_node t p (fun n => with_color n c).
Definition store_right t p q := store_node t p (fun n => with_right n q).
Definition store_parent t p q := store_node t p (fun n => with_parent n q).
Definition store_left t p q : option (RB_Tree Key) :=
  match p with
  | nullptr => None
  | end_addr =>
      match end_node_ t with
      | Some _ => Some (with_end t (Some (mk_end q)))
      | None => None
      end
  | node_addr _ => store_node t p (fun n => with_left n q)
  end.

(** [end_node()]: the sentinel's address, null when the handle is empty. *)
Definition end_node t : node_ptr :=
  match end_node_ t with
  | Some _ => end_addr
  | None => nullptr
  end.

(** [root()] is [end_node()->left_]. *)
Definition root t : option node_ptr := load_left t (end_node t).
Definition set_root t q : option (RB_Tree Key) := store_left t (end_node t) q.

End Memory.

(** ** The helpers of namespace [details] and the iterator *)

Section Details.
Context {Key : Type} (less : Key -> Key -> bool).
Implicit Types (t : RB_Tree Key) (p q x y z : node_ptr) (k : Key).

(** Modelled from the spec: details.hpp is not part of the sources.  "Descend
    from root; at each node compare key; move left/right accordingly; return
    the node on exact match, or absent"; only the less-than comparison of
    the key type is used. *)
Fixpoint find_loop (fuel : nat) t (node : node_ptr) k : option node_ptr :=
  match fuel with
  | 0 => None
  | S fuel =>
      if bool_decide (node = nullptr) then Some nullptr
      else
        nk ← load_key t node;
        if less k nk then l ← load_left t node; find_loop fuel t l k
        else if less nk k then r ← load_right t node; find_loop fuel t r k
        else Some node
  end.

Definition find_in t (root : node_ptr) k : option node_ptr :=
  find_loop (S (length (nodes_ t))) t root k.

(** Modelled from the spec: details.hpp is not part of the sources.  "Same
    descent, but also returns the last node visited before taking the absent
    branch ... parent is null only when the tree is empty." *)
Fixpoint find_v2_loop (fuel : nat) t (node parent : node_ptr) k
    : option (node_ptr * node_ptr) :=
  match fuel with
  | 0 => None
  | S fuel =>
      if bool_decide (node = nullptr) then Some (nullptr, parent)
      else
        nk ← load_key t node;
        if less k nk then l ← load_left t node; find_v2_loop fuel t l node k
        else if less nk k then r ← load_right t node; find_v2_loop fuel t r node k
        else Some (node, parent)
  end.

Definition find_v2 t (root : node_ptr) k : option (node_ptr * node_ptr) :=
  find_v2_loop (S (length (nodes_ t))) t root nullptr k.

(** Modelled from the spec: details.hpp is not part of the sources.  "Descend
    keeping a candidate set to the most recent node whose key is >= search
    key when descending left; return candidate or absent." *)
Fixpoint lower_bound_loop (fuel : nat) t (node result : node_ptr) k : option node_ptr :=
  match fuel with
  | 0 => None
  | S fuel =>
      if bool_decide (node = nullptr) then Some result
      else
        nk ← load_key t node;
        if less nk k then r ← load_right t node; lower_bound_loop fuel t r result k
        else l ← load_left t node; lower_bound_loop fuel t l node k
  end.

Definition details_lower_bound t (root : node_ptr) k : option node_ptr :=
  lower_bound_loop (S (length (nodes_ t))) t root nullptr k.

(** Modelled from the spec: details.hpp is not part of the sources.
    "Identical but candidate set on keys strictly greater than the search
    key." *)
Fixpoint upper_bound_loop (fuel : nat) t (node result : node_ptr) k : option node_ptr :=
  match fuel with
  | 0 => None
  | S fuel =>
      if bool_decide (node = nullptr) then Some result
      else
        nk ← load_key t node;
        if less k nk then l ← load_left t node; upper_bound_loop fuel t l node k
        else r ← load_right t node; upper_bound_loop fuel t r result k
  end.

Definition details_upper_bound t (root : node_ptr) k : option node_ptr :=
  upper_bound_loop (S (length (nodes_ t))) t root nullptr k.

(** Modelled from the spec: details.hpp is not part of the sources.  A node
    is a left child when it is its parent's [left_]; the root is the left
    child of the sentinel. *)
Definition is_left_child t x : option bool :=
  p ← load_parent t x;
  l ← load_left t p;
  Some (bool_decide (x = l)).

(** Modelled from the spec: details.hpp is not part of the sources.  "A
    left/right rotation exchanges a node with its right/left child while
    preserving in-order sequence, updating the three pairs of parent/child
    links": the inner subtree and its new parent, the rising child and the
    old parent of the rotated node (the sentinel's [left_] when that node is
    the root), and the two exchanged nodes. *)
Definition left_rotate t x : option (RB_Tree Key) :=
  y ← load_right t x;
  b ← load_left t y;
  t ← store_right t x b;
  t ← (if bool_decide (b = nullptr) then Some t else store_parent t b x);
  xp ← load_parent t x;
  t ← store_parent t y xp;
  lc ← is_left_child t x;
  t ← (if lc : bool then store_left t xp y else store_right t xp y);
  t ← store_left t y x;
  store_parent t x y.

Definition right_rotate t x : option (RB_Tree Key) :=
  y ← load_left t x;
  b ← load_right t y;
  t ← store_left t x b;
  t ← (if bool_decide (b = nullptr) then Some t else store_parent t b x);
  xp ← load_parent t x;
  t ← store_parent t y xp;
  lc ← is_left_child t x;
  t ← (if lc : bool then store_left t xp y else store_right t xp y);
  t ← store_right t y x;
  store_parent t x y.

(** The color test of the fix-up: an absent uncle counts as black, and the
    sentinel "is conceptually black". *)
Definition is_red t p : option bool :=
  match p with
  | node_addr _ => c ← load_color t p; Some (bool_decide (c = red))
  | _ => Some false
  end.

(** Modelled from the spec: details.hpp is not part of the sources.  The
    fix-up loop of section 4.2: while the parent of the cursor is red, look
    at the uncle; a red uncle recolors and moves the cursor to the
    grandparent; a black or absent uncle straightens an inner grandchild by
    a rotation at the parent, then rotates at the grandparent, blackens the
    parent, reddens the grandparent, and the loop terminates. *)
Fixpoint fixup_loop (fuel : nat) t z : option (RB_Tree Key) :=
  match fuel with
  | 0 => None
  | S fuel =>
      p ← load_parent t z;
      pr ← is_red t p;
      if negb pr then Some t
      else
        g ← load_parent t p;
        gl ← load_left t g;
        if bool_decide (p = gl) then
          u ← load_right t g;
          ur ← is_red t u;
          if ur : bool then
            t ← store_color t p black;
            t ← store_color t u black;
            t ← store_color t g red;
            fixup_loop fuel t g
          else
            pr ← load_right t p;
            '(t, z) ← (if bool_decide (z = pr)
                       then t ← left_rotate t p; Some (t, p)
                       else Some (t, z));
            p ← load_parent t z;
            g ← load_parent t p;
            t ← store_color t p black;
            t ← store_color t g red;
            right_rotate t g
        else
          u ← load_left t g;
          ur ← is_red t u;
          if ur : bool then
            t ← store_color t p black;
            t ← store_color t u black;
            t ← store_color t g red;
            fixup_loop fuel t g
          else
            pl ← load_left t p;
            '(t, z) ← (if bool_decide (z = pl)
                       then t ← right_rotate t p; Some (t, p)
                       else Some (t, z));
            p ← load_parent t z;
            g ← load_parent t p;
            t ← store_color t p black;
            t ← store_color t g red;
            left_rotate t g
  end.

(** "After the loop: force the root's color to black unconditionally."  The
    root is the one the sentinel designates once the loop is over. *)
Definition rb_insert_fixup t (new_node : node_ptr) : option (RB_Tree Key) :=
  t ← fixup_loop (S (length (nodes_ t))) t new_node;
  r ← root t;
  store_color t r black.

(** Modelled from the spec: tree_iterator.hpp is not part of the sources.
    Increment (section 4.3): "if a right child exists, move to the leftmost
    node of that subtree; else climb via parent links while the current node
    is a right child, then step to the parent". *)
Fixpoint descend_left (fuel : nat) t x : option node_ptr :=
  match fuel with
  | 0 => None
  | S fuel =>
      l ← load_left t x;
      if bool_decide (l = nullptr) then Some x else descend_left fuel t l
  end.

Fixpoint climb (fuel : nat) t x : option node_ptr :=
  match fuel with
  | 0 => None
  | S fuel =>
      lc ← is_left_child t x;
      p ← load_parent t x;
      if lc : bool then Some p else climb fuel t p
  end.

Definition increment t x : option node_ptr :=
  r ← load_right t x;
  if bool_decide (r = nullptr) then climb (S (length (nodes_ t))) t x
  else descend_left (S (length (nodes_ t))) t r.

End Details.

(** ** The member functions of [RB_Tree] *)

Section Members.
Context {Key : Type} (less : Key -> Key -> bool) (mem : allocator).
Implicit Types (t rhs : RB_Tree Key) (p q : node_ptr) (k : Key).

Definition and_then {A B} (m : outcome Key A)
    (f : A -> RB_Tree Key -> outcome Key B) : outcome Key B :=
  match m with
  | Returns a t => f a t
  | Throws t => Throws t
  | Undefined => Undefined
  end.

Definition defined {A B} (o : option A) (f : A -> outcome Key B) : outcome Key B :=
  match o with
  | Some a => f a
  | None => Undefined
  end.

(** [RB_Tree () = default]: the default member initializers. *)
Definition RB_Tree_default : RB_Tree Key :=
  mk_tree [] (Some (mk_end nullptr)) end_addr nullptr 0.

Definition size t : nat := size_ t.
Definition empty t : bool := bool_decide (size_ t = 0).

(** An iterator is the node pointer it wraps. *)
Definition begin t : node_ptr := leftmost_ t.
Definition end_ t : node_ptr := end_node t.

(** [insert_node]: the node is created, then pushed onto the arena; its
    address is the new last slot.  When [new] throws nothing has been
    touched; when [push_back] throws the vector is unchanged and the node is
    released by the handle that held it. *)
Definition insert_node t k (c : RB_Color) : outcome Key node_ptr :=
  match mem (length (nodes_ t)) with
  | alloc_ok =>
      Returns (node_addr (length (nodes_ t)))
              (with_nodes t (nodes_ t ++ [mk_node k c nullptr nullptr nullptr]))
  | new_fails => Throws t
  | push_back_fails => Throws t
  end.

Definition insert_root t k : outcome Key node_ptr :=
  and_then (insert_node t k black) (fun new_node t =>
  defined (set_root t new_node) (fun t =>
  defined (root t) (fun r =>
  defined (store_parent t r (end_node t)) (fun t =>
  let t := with_rightmost t new_node in
  let t := with_leftmost t (rightmost_ t) in
  let t := with_size t (S (size_ t)) in
  Returns new_node t)))).

Definition insert_hint_unique t (parent : node_ptr) k : outcome Key node_ptr :=
  and_then (insert_node t k red) (fun new_node t =>
  defined (store_parent t new_node parent) (fun t =>
  defined (load_key t parent) (fun pk =>
  defined (if less k pk then store_left t parent new_node
           else store_right t parent new_node) (fun t =>
  defined (root t) (fun _ =>
  defined (rb_insert_fixup t new_node) (fun t =>
  defined (load_left t (leftmost_ t)) (fun ll =>
  defined (if bool_decide (new_node = ll) then Some (with_leftmost t new_node)
           else rr ← load_right t (rightmost_ t);
                Some (if bool_decide (new_node = rr)
                      then with_rightmost t new_node else t)) (fun t =>
  Returns new_node (with_size t (S (size_ t))))))))))).

Definition insert t k : outcome Key (node_ptr * bool) :=
  if empty t then
    and_then (insert_root t k) (fun new_node t => Returns (new_node, true) t)
  else
    defined (root t) (fun r =>
    defined (find_v2 less t r k) (fun '(node, parent) =>
    if bool_decide (node = nullptr) then
      and_then (insert_hint_unique t parent k) (fun new_node t =>
      Returns (new_node, true) t)
    else Returns (node, false) t)).

Definition insert_unique t k : outcome Key unit :=
  if empty t then
    and_then (insert_root t k) (fun _ t => Returns tt t)
  else
    defined (root t) (fun r =>
    defined (find_v2 less t r k) (fun '(node, parent) =>
    if bool_decide (node = nullptr) then
      and_then (insert_hint_unique t parent k) (fun _ t => Returns tt t)
    else Returns tt t)).

(** [insert (first, last)] and [insert (ilist)]: the same loop over the
    elements of the input, in order. *)
Fixpoint insert_range t (ks : list Key) : outcome Key unit :=
  match ks with
  | [] => Returns tt t
  | k :: ks => and_then (insert_unique t k) (fun _ t => insert_range t ks)
  end.

Definition insert_ilist t (ilist : list Key) : outcome Key unit :=
  insert_range t ilist.

(** Lookup: the helper's node, or [end()] when it found none. *)
Definition or_end t (node : node_ptr) : node_ptr :=
  if bool_decide (node = nullptr) then end_ t else node.

Definition find t k : option node_ptr :=
  r ← root t; node ← find_in less t r k; Some (or_end t node).

Definition lower_bound t k : option node_ptr :=
  r ← root t; node ← details_lower_bound less t r k; Some (or_end t node).

Definition upper_bound t k : option node_ptr :=
  r ← root t; node ← details_upper_bound less t r k; Some (or_end t node).

Definition contains t k : option bool :=
  it ← find t k; Some (bool_decide (it <> end_ t)).

(** The copy constructor.  [size_] is taken from [rhs]; the other members
    start from their default initializers.  The loop walks [rhs] and the
    tree under construction with two cursors. *)
Fixpoint copy_loop (fuel : nat) rhs t (rhs_node node : node_ptr)
    : outcome Key unit :=
  match fuel with
  | 0 => Undefined
  | S fuel =>
      if bool_decide (rhs_node = end_node rhs) then Returns tt t
      else
        defined (load_left rhs rhs_node) (fun rl =>
        defined (if bool_decide (rl = nullptr) then Some false
                 else nl ← load_left t node; Some (bool_decide (nl = nullptr)))
                (fun go_left =>
        if go_left : bool then
          let rhs_node := rl in
          defined (load_key rhs rhs_node) (fun rk =>
          defined (load_color rhs rhs_node) (fun rc =>
          and_then (insert_node t rk rc) (fun new_node t =>
          defined (store_left t node new_node) (fun t =>
          defined (load_left t node) (fun nl =>
          defined (store_parent t nl node) (fun t =>
          defined (load_left t node) (fun node =>
          let t := if bool_decide (rhs_node = leftmost_ rhs)
                   then with_leftmost t node else t in
          copy_loop fuel rhs t rhs_node node)))))))
        else
          defined (load_right rhs rhs_node) (fun rr =>
          defined (if bool_decide (rr = nullptr) then Some false
                   else nr ← load_right t node; Some (bool_decide (nr = nullptr)))
                  (fun go_right =>
          if go_right : bool then
            let rhs_node := rr in
            defined (load_key rhs rhs_node) (fun rk =>
            defined (load_color rhs rhs_node) (fun rc =>
            and_then (insert_node t rk rc) (fun new_node t =>
            defined (store_right t node new_node) (fun t =>
            defined (load_right t node) (fun nr =>
            defined (store_parent t nr node) (fun t =>
            defined (load_right t node) (fun node =>
            let t := if bool_decide (rhs_node = rightmost_ rhs)
                     then with_rightmost t node else t in
            copy_loop fuel rhs t rhs_node node)))))))
          else
            defined (load_parent rhs rhs_node) (fun rhs_node =>
            defined (load_parent t node) (fun node =>
            copy_loop fuel rhs t rhs_node node))))))
  end.

Definition RB_Tree_copy rhs : outcome Key unit :=
  let t := with_size RB_Tree_default (size_ rhs) in
  defined (root rhs) (fun rhs_root =>
  if bool_decide (rhs_root = nullptr) then Returns tt t
  else
    let rhs_node := rhs_root in
    defined (load_key rhs rhs_node) (fun rk =>
    defined (load_color rhs rhs_node) (fun rc =>
    and_then (insert_node t rk rc) (fun new_node t =>
    defined (set_root t new_node) (fun t =>
    defined (root t) (fun r =>
    defined (store_parent t r (end_node t)) (fun t =>
    defined (root t) (fun node =>
    copy_loop (S (2 * length (nodes_ rhs))) rhs t rhs_node node)))))))).

(** The move constructor (lines 112-117) initializes its arena from
    [rhs.node_]; the class has no member of that name, so the constructor
    cannot be instantiated, and neither can what goes through it:
    [std::swap] on two trees, hence [swap] (line 149) and copy assignment
    (lines 104-110).  None of them is embedded.

    Move assignment exchanges the five members one by one with [std::swap]
    on the members themselves. *)
Definition move_assign t rhs : RB_Tree Key * RB_Tree Key :=
  let '(t, rhs) := (with_nodes t (nodes_ rhs), with_nodes rhs (nodes_ t)) in
  let '(t, rhs) := (with_end t (end_node_ rhs), with_end rhs (end_node_ t)) in
  let '(t, rhs) := (with_leftmost t (leftmost_ rhs), with_leftmost rhs (leftmost_ t)) in
  let '(t, rhs) := (with_rightmost t (rightmost_ rhs), with_rightmost rhs (rightmost_ t)) in
  let '(t, rhs) := (with_size t (size_ rhs), with_size rhs (size_ t)) in
  (t, rhs).

(** Walking [begin(), end())] with [operator++], collecting the keys. *)
Fixpoint walk (fuel : nat) t (it last : node_ptr) : option (list Key) :=
  match fuel with
  | 0 => None
  | S fuel =>
      if bool_decide (it = last) then Some []
      else
        k ← load_key t it;
        next ← increment t it;
        ks ← walk fuel t next last;
        Some (k :: ks)
  end.

Definition traverse t : option (list Key) :=
  walk (S (length (nodes_ t))) t (begin t) (end_ t).

End Members.

(** Running a program of single-key inserts from a given tree. *)
Fixpoint insert_all {Key} (less : Key -> Key -> bool) (mem : allocator)
    (t : RB_Tree Key) (ks : list Key) : outcome Key unit :=
  match ks with
  | [] => Returns tt t
  | k :: ks =>
      match insert less mem t k with
      | Returns _ t => insert_all less mem t ks
      | Throws t => Throws t
      | Undefined => Undefined
      end
  end.

(** A program of insertions: single keys, iterator ranges and initializer
    lists, and the keys it presents in order. *)
Inductive insert_op (Key : Type) :=
  | op_insert (k : Key)
  | op_insert_range (ks : list Key)
  | op_insert_ilist (ks : list Key).
Arguments op_insert {Key} _.
Arguments op_insert_range {Key} _.
Arguments op_insert_ilist {Key} _.

Definition run_op {Key} (less : Key -> Key -> bool) (mem : allocator)
    (t : RB_Tree Key) (o : insert_op Key) : outcome Key unit :=
  match o with
  | op_insert k => and_then (insert less mem t k) (fun _ t => Returns tt t)
  | op_insert_range ks => insert_range less mem t ks
  | op_insert_ilist ks => insert_ilist less mem t ks
  end.

Fixpoint run_ops {Key} (less : Key -> Key -> bool) (mem : allocator)
    (t : RB_Tree Key) (ops : list (insert_op Key)) : outcome Key unit :=
  match ops with
  | [] => Returns tt t
  | o :: ops => and_then (run_op less mem t o) (fun _ t => run_ops less mem t ops)
  end.

Definition op_keys {Key} (o : insert_op Key) : list Key :=
  match o with
  | op_insert k => [k]
  | op_insert_range ks => ks
  | op_insert_ilist ks => ks
  end.

Definition program_keys {Key} (ops : list (insert_op Key)) : list Key :=
  concat (map op_keys ops).

(** Trees of natural numbers under [<], for the examples: the tree a
    program of inserts builds from the empty tree, and the three-node tree
    that inserting 2, 1, 3 builds, written out. *)
Definition tree_of_list (ks : list nat) : RB_Tree nat :=
  match insert_all Nat.ltb plenty RB_Tree_default ks with
  | Returns _ t => t
  | _ => RB_Tree_default
  end.

Definition example_tree : RB_Tree nat :=
  mk_tree
    [ mk_node 2 black (node_addr 1) (node_addr 2) end_addr;
      mk_node 1 red nullptr nullptr (node_addr 0);
      mk_node 3 red nullptr nullptr (node_addr 0) ]
    (Some (mk_end (node_addr 0))) (node_addr 1) (node_addr 2) 3.

(** ** The tree a heap holds

    A [shape] is the tree read off the heap: every node with the slot it
    occupies, its color and its key.  [rep h par s] says that the arena [h]
    holds [s] below a node (or the sentinel) [par]: every node of [s] sits
    in its slot with exactly the key, color and three links [s] gives it. *)

Inductive shape (Key : Type) :=
  | Lf
  | Nd (i : nat) (c : RB_Color) (l : shape Key) (k : Key) (r : shape Key).
Arguments Lf {Key}.
Arguments Nd {Key} _ _ _ _ _.

(** A step of the path from a node up to the root: the node is the left
    child of [i] (whose right subtree is [r]), or its right child. *)
Inductive frame (Key : Type) :=
  | FL (i : nat) (c : RB_Color) (k : Key) (r : shape Key)
  | FR (i : nat) (c : RB_Color) (l : shape Key) (k : Key).
Arguments FL {Key} _ _ _ _.
Arguments FR {Key} _ _ _ _.

Section Shape.
Context {Key : Type} (less : Key -> Key -> bool).
Implicit Types (s l r z u : shape Key) (c : list (frame Key)) (h : list (RB_Node Key)).

Definition root_ptr s : node_ptr :=
  match s with
  | Lf => nullptr
  | Nd i _ _ _ _ => node_addr i
  end.

Definition root_color s : RB_Color :=
  match s with
  | Lf => black
  | Nd _ c _ _ _ => c
  end.

(** In-order sequences: slots, and keys. *)
Fixpoint addrs s : list nat :=
  match s with
  | Lf => []
  | Nd i _ l _ r => addrs l ++ i :: addrs r
  end.

Fixpoint keys s : list Key :=
  match s with
  | Lf => []
  | Nd _ _ l k r => keys l ++ k :: keys r
  end.

Fixpoint height s : nat :=
  match s with
  | Lf => 0
  | Nd _ _ l _ r => S (max (height l) (height r))
  end.

Fixpoint rep h (par : node_ptr) s : Prop :=
  match s with
  | Lf => True
  | Nd i c l k r =>
      h !! i = Some (mk_node k c (root_ptr l) (root_ptr r) par)
      /\ rep h (node_addr i) l /\ rep h (node_addr i) r
  end.

(** The tree hanging off the sentinel of [t] is [s], no slot is used twice,
    and the arena holds no other node. *)
Definition tree_rep (t : RB_Tree Key) s : Prop :=
  end_node_ t = Some (mk_end (root_ptr s))
  /\ rep (nodes_ t) end_addr s
  /\ NoDup (addrs s)
  /\ length (nodes_ t) = length (addrs s).

(** The order the keys are compared by, and what is required of it: a
    strict total order (section 3, invariant 1). *)
Definition key_lt (a b : Key) : Prop := less a b = true.

Definition strict_total : Prop :=
  (forall x, less x x = false)
  /\ (forall x y w, less x y = true -> less y w = true -> less x w = true)
  /\ (forall x y, less x y = false -> less y x = false -> x = y).

(** *** The invariants of section 3, on the tree the heap holds *)

(** 1. BST order: at every node, the keys of the left subtree are less than
    its key and the keys of the right subtree are greater. *)
Fixpoint bst s : Prop :=
  match s with
  | Lf => True
  | Nd _ _ l k r =>
      Forall (fun x => less x k = true) (keys l)
      /\ Forall (fun x => less k x = true) (keys r)
      /\ bst l /\ bst r
  end.

(** 3. No red node has a red child (that is, a red parent). *)
Fixpoint no_red_red s : Prop :=
  match s with
  | Lf => True
  | Nd _ c l _ r =>
      (c = red -> root_color l = black /\ root_color r = black)
      /\ no_red_red l /\ no_red_red r
  end.

(** 4. The black nodes crossed by each downward path from the root of [s]
    to an absent child; they are the same number from every node. *)
Definition black_weight (c : RB_Color) : nat :=
  match c with
  | black => 1
  | red => 0
  end.

Fixpoint black_counts s : list nat :=
  match s with
  | Lf => [0]
  | Nd _ c l _ r => (fun n => black_weight c + n) <$> (black_counts l ++ black_counts r)
  end.

Fixpoint black_uniform s : Prop :=
  match s with
  | Lf => True
  | Nd _ _ l _ r =>
      (exists n, Forall (fun m => m = n) (black_counts s))
      /\ black_uniform l /\ black_uniform r
  end.

(** The same, as the proofs use it: the count along the left spine, and the
    two subtrees of every node agreeing on it. *)
Fixpoint black_height s : nat :=
  match s with
  | Lf => 0
  | Nd _ c l _ _ => black_weight c + black_height l
  end.

Fixpoint balanced s : Prop :=
  match s with
  | Lf => True
  | Nd _ _ l _ r => black_height l = black_height r /\ balanced l /\ balanced r
  end.

(** 5. The caches: the first and the last node in order. *)
Definition first_ptr s : node_ptr :=
  match addrs s with
  | [] => end_addr
  | i :: _ => node_addr i
  end.

Definition last_ptr s : node_ptr :=
  match last (addrs s) with
  | None => nullptr
  | Some i => node_addr i
  end.

(** 6. Sentinel linkage, read on the heap. *)
Definition sentinel_linked (t : RB_Tree Key) : Prop :=
  exists rt : node_ptr, load_left t (end_node t) = Some rt
    /\ end_node t = end_addr
    /\ (rt <> nullptr -> load_parent t rt = Some (end_node t)).

(** No red-red, read on the heap: the parent of a red node is not red. *)
Definition no_red_parent (t : RB_Tree Key) : Prop :=
  forall i n, nodes_ t !! i = Some n -> color_ n = red ->
    load_color t (parent_ n) <> Some red.

Definition red_black s : Prop :=
  root_color s = black /\ no_red_red s /\ balanced s.

(** The state of a tree between two calls. *)
Definition structure_ok (t : RB_Tree Key) s : Prop :=
  tree_rep t s /\ bst s /\ size_ t = length (addrs s).

Definition caches_ok (t : RB_Tree Key) s : Prop :=
  leftmost_ t = first_ptr s /\ rightmost_ t = last_ptr s.

(** The members that the helpers of [details] never touch. *)
Definition same_caches (t t' : RB_Tree Key) : Prop :=
  leftmost_ t' = leftmost_ t /\ rightmost_ t' = rightmost_ t /\ size_ t' = size_ t.

Definition Inv (t : RB_Tree Key) s : Prop :=
  structure_ok t s /\ red_black s /\ caches_ok t s.

(** *** Paths *)

Definition fill (f : frame Key) s : shape Key :=
  match f with
  | FL i col k r => Nd i col s k r
  | FR i col l k => Nd i col l k s
  end.

Fixpoint plug c s : shape Key :=
  match c with
  | [] => s
  | f :: c => plug c (fill f s)
  end.

Definition frame_addr (f : frame Key) : nat :=
  match f with
  | FL i _ _ _ => i
  | FR i _ _ _ => i
  end.

Definition frame_color (f : frame Key) : RB_Color :=
  match f with
  | FL _ col _ _ => col
  | FR _ col _ _ => col
  end.

Definition frame_key (f : frame Key) : Key :=
  match f with
  | FL _ _ k _ => k
  | FR _ _ _ k => k
  end.

Definition sibling (f : frame Key) : shape Key :=
  match f with
  | FL _ _ _ r => r
  | FR _ _ l _ => l
  end.

(** The parent of the node a path starts from. *)
Definition ctx_ptr c : node_ptr :=
  match c with
  | [] => end_addr
  | f :: _ => node_addr (frame_addr f)
  end.

(** What [find_v2] reports as the parent: null at the root. *)
Definition ctx_parent c : node_ptr :=
  match c with
  | [] => nullptr
  | f :: _ => node_addr (frame_addr f)
  end.

Fixpoint rep_ctx h (q : node_ptr) c : Prop :=
  match c with
  | [] => True
  | FL i col k r :: up =>
      h !! i = Some (mk_node k col q (root_ptr r) (ctx_ptr up))
      /\ rep h (node_addr i) r /\ rep_ctx h (node_addr i) up
  | FR i col l k :: up =>
      h !! i = Some (mk_node k col (root_ptr l) q (ctx_ptr up))
      /\ rep h (node_addr i) l /\ rep_ctx h (node_addr i) up
  end.

Fixpoint ctx_root c (q : node_ptr) : node_ptr :=
  match c with
  | [] => q
  | f :: up => ctx_root up (node_addr (frame_addr f))
  end.

(** The slots and keys a path holds before and after the node it leads
    to, in order. *)
Fixpoint addrs_before c : list nat :=
  match c with
  | [] => []
  | FL _ _ _ _ :: up => addrs_before up
  | FR i _ l _ :: up => addrs_before up ++ addrs l ++ [i]
  end.

Fixpoint addrs_after c : list nat :=
  match c with
  | [] => []
  | FL i _ _ r :: up => i :: addrs r ++ addrs_after up
  | FR _ _ _ _ :: up => addrs_after up
  end.

Fixpoint keys_before c : list Key :=
  match c with
  | [] => []
  | FL _ _ _ _ :: up => keys_before up
  | FR _ _ l k :: up => keys_before up ++ keys l ++ [k]
  end.

Fixpoint keys_after c : list Key :=
  match c with
  | [] => []
  | FL _ _ k r :: up => k :: keys r ++ keys_after up
  | FR _ _ _ _ :: up => keys_after up
  end.

(** The descent of [find_v2], on shapes: the path to the node holding [k],
    or to the absent child where the descent ends. *)
Fixpoint descend s k c : list (frame Key) * shape Key :=
  match s with
  | Lf => (c, Lf)
  | Nd i col l nk r =>
      if less k nk then descend l k (FL i col nk r :: c)
      else if less nk k then descend r k (FR i col l nk :: c)
      else (c, s)
  end.

(** The candidate of [lower_bound] and [upper_bound], on shapes. *)
Fixpoint lower_bound_in s k (result : node_ptr) : node_ptr :=
  match s with
  | Lf => result
  | Nd i _ l nk r =>
      if less nk k then lower_bound_in r k result
      else lower_bound_in l k (node_addr i)
  end.

Fixpoint upper_bound_in s k (result : node_ptr) : node_ptr :=
  match s with
  | Lf => result
  | Nd i _ l nk r =>
      if less k nk then upper_bound_in l k (node_addr i)
      else upper_bound_in r k result
  end.

(** *** The fix-up, on paths *)

Definition paint (col : RB_Color) s : shape Key :=
  match s with
  | Lf => Lf
  | Nd i _ l k r => Nd i col l k r
  end.

Definition is_red_shape s : bool := bool_decide (root_color s = red).

Fixpoint fix_up c z : shape Key :=
  match c with
  | [] => z
  | FL p red kp rp :: FL g _ kg u :: up =>
      if is_red_shape u
      then fix_up up (Nd g red (Nd p black z kp rp) kg (paint black u))
      else plug up (Nd p black z kp (Nd g red rp kg u))
  | FR p red lp kp :: FL g _ kg u :: up =>
      if is_red_shape u
      then fix_up up (Nd g red (Nd p black lp kp z) kg (paint black u))
      else
        match z with
        | Nd zi _ zl zk zr =>
            plug up (Nd zi black (Nd p red lp kp zl) zk (Nd g red zr kg u))
        | Lf => plug c z
        end
  | FR p red lp kp :: FR g _ u kg :: up =>
      if is_red_shape u
      then fix_up up (Nd g red (paint black u) kg (Nd p black lp kp z))
      else plug up (Nd p black (Nd g red u kg lp) kp z)
  | FL p red kp rp :: FR g _ u kg :: up =>
      if is_red_shape u
      then fix_up up (Nd g red (paint black u) kg (Nd p black z kp rp))
      else
        match z with
        | Nd zi _ zl zk zr =>
            plug up (Nd zi black (Nd g red u kg zl) zk (Nd p red zr kp rp))
        | Lf => plug c z
        end
  | _ => plug c z
  end.

(** The root of a path is black (or the path is empty). *)
Definition ctx_root_black c : Prop :=
  match last c with
  | Some f => frame_color f = black
  | None => True
  end.

(** A path is well colored and balanced around a node of black height [n]
    whose root would be of color [col]. *)
Fixpoint ctx_ok (n : nat) (col : RB_Color) c : Prop :=
  match c with
  | [] => True
  | f :: up =>
      black_height (sibling f) = n
      /\ no_red_red (sibling f) /\ balanced (sibling f)
      /\ (frame_color f = red -> col = black /\ root_color (sibling f) = black)
      /\ ctx_ok (black_weight (frame_color f) + n) (frame_color f) up
  end.

(** [p] has the leaf [n] as its left (right) child somewhere in [s]. *)
Fixpoint has_left_leaf (p n : nat) s : Prop :=
  match s with
  | Lf => False
  | Nd i _ l _ r =>
      (i = p /\ exists col k, l = Nd n col Lf k Lf)
      \/ has_left_leaf p n l \/ has_left_leaf p n r
  end.

Fixpoint has_right_leaf (p n : nat) s : Prop :=
  match s with
  | Lf => False
  | Nd i _ l _ r =>
      (i = p /\ exists col k, r = Nd n col Lf k Lf)
      \/ has_right_leaf p n l \/ has_right_leaf p n r
  end.

(** The node in slot [i] of [s] holds the key [k]. *)
Fixpoint holds (i : nat) (k : Key) s : Prop :=
  match s with
  | Lf => False
  | Nd j _ l nk r => (j = i /\ nk = k) \/ holds i k l \/ holds i k r
  end.

(** The keys of a program of inserts, each kept once (two keys are the
    same when neither is less than the other). *)
Definition same_key (a b : Key) : bool := negb (less a b) && negb (less b a).

Fixpoint distinct (ks : list Key) : list Key :=
  match ks with
  | [] => []
  | k :: ks => if existsb (same_key k) ks then distinct ks else k :: distinct ks
  end.

End Shape.

(** *** The copy constructor, on shapes

    The copy constructor creates the node of a subtree's root, then the
    nodes of its left subtree, then those of its right subtree: [relabel n s]
    is [s] with its nodes in the slots that order gives them from [n] on,
    and [cells par s] is the content of those slots. *)
Fixpoint relabel {Key : Type} (n : nat) (s : shape Key) : shape Key :=
  match s with
  | Lf => Lf
  | Nd _ c l k r =>
      Nd n c (relabel (S n) l) k (relabel (S n + length (addrs l)) r)
  end.

Fixpoint cells {Key : Type} (par : node_ptr) (s : shape Key) : list (RB_Node Key) :=
  match s with
  | Lf => []
  | Nd i c l k r =>
      mk_node k c (root_ptr l) (root_ptr r) par
      :: cells (node_addr i) l ++ cells (node_addr i) r
  end.

(** What the walk makes of the caches of the copy: [leftmost_] is assigned
    when a step down to a left child lands on the node [rhs.leftmost_]
    designates, [rightmost_] when a step down to a right child lands on
    [rhs.rightmost_]. *)
Fixpoint copied_leftmost {Key : Type} (lm : node_ptr) (n : nat) (s : shape Key)
    (cur : node_ptr) : node_ptr :=
  match s with
  | Lf => cur
  | Nd _ _ l _ r =>
      let cur :=
        match l with
        | Lf => cur
        | Nd li _ _ _ _ =>
            copied_leftmost lm (S n) l
              (if bool_decide (node_addr li = lm) then node_addr (S n) else cur)
        end in
      copied_leftmost lm (S n + length (addrs l)) r cur
  end.

Fixpoint copied_rightmost {Key : Type} (rm : node_ptr) (n : nat) (s : shape Key)
    (cur : node_ptr) : node_ptr :=
  match s with
  | Lf => cur
  | Nd _ _ l _ r =>
      let cur := copied_rightmost rm (S n) l cur in
      match r with
      | Lf => cur
      | Nd ri _ _ _ _ =>
          copied_rightmost rm (S n + length (addrs l)) r
            (if bool_decide (node_addr ri = rm)
             then node_addr (S n + length (addrs l)) else cur)
      end
  end.

(** The keys in the arena, slot by slot: what an operation leaves as it is
    when it neither moves a node nor rewrites a key. *)
Definition arena_keys {Key : Type} (t : RB_Tree Key) : list Key :=
  key <$> nodes_ t.

(** The shape [example_tree] holds. *)
Definition example_shape : shape nat :=
  Nd 0 black (Nd 1 red Lf 1 Lf) 2 (Nd 2 red Lf 3 Lf).

(** * Properties *)

(** ** Memory *)

Section MemoryLemmas.
Context {Key : Type}.
Implicit Types (t : RB_Tree Key) (n : RB_Node Key) (p q : node_ptr)
  (h : list (RB_Node Key)) (s l r : shape Key) (c : list (frame Key)).

Lemma load_key_node t i n :
  nodes_ t !! i = Some n -> load_key t (node_addr i) = Some (key n).
Proof. unfold load_key. simpl. by intros ->. Qed.

Lemma load_color_node t i n :
  nodes_ t !! i = Some n -> load_color t (node_addr i) = Some (color_ n).
Proof. unfold load_color. simpl. by intros ->. Qed.

Lemma load_left_node t i n :
  nodes_ t !! i = Some n -> load_left t (node_addr i) = Some (left_ n).
Proof. unfold load_left. by intros ->. Qed.

Lemma load_right_node t i n :
  nodes_ t !! i = Some n -> load_right t (node_addr i) = Some (right_ n).
Proof. unfold load_right. simpl. by intros ->. Qed.

Lemma load_parent_node t i n :
  nodes_ t !! i = Some n -> load_parent t (node_addr i) = Some (parent_ n).
Proof. unfold load_parent. simpl. by intros ->. Qed.

Lemma load_left_end t e :
  end_node_ t = Some e -> load_left t end_addr = Some (end_left_ e).
Proof. unfold load_left. by intros ->. Qed.

Lemma store_node_node t i n f :
  nodes_ t !! i = Some n ->
  store_node t (node_addr i) f = Some (with_nodes t (<[i := f n]> (nodes_ t))).
Proof. unfold store_node. by intros ->. Qed.

Lemma store_color_node t i n col :
  nodes_ t !! i = Some n ->
  store_color t (node_addr i) col
  = Some (with_nodes t (<[i := with_color n col]> (nodes_ t))).
Proof. apply store_node_node. Qed.

Lemma store_left_node t i n q :
  nodes_ t !! i = Some n ->
  store_left t (node_addr i) q
  = Some (with_nodes t (<[i := with_left n q]> (nodes_ t))).
Proof. apply store_node_node. Qed.

Lemma store_right_node t i n q :
  nodes_ t !! i = Some n ->
  store_right t (node_addr i) q
  = Some (with_nodes t (<[i := with_right n q]> (nodes_ t))).
Proof. apply store_node_node. Qed.

Lemma store_parent_node t i n q :
  nodes_ t !! i = Some n ->
  store_parent t (node_addr i) q
  = Some (with_nodes t (<[i := with_parent n q]> (nodes_ t))).
Proof. apply store_node_node. Qed.

Lemma store_left_end t e q :
  end_node_ t = Some e -> store_left t end_addr q = Some (with_end t (Some (mk_end q))).
Proof. unfold store_left. by intros ->. Qed.

#[global] Arguments load_key : simpl never.
#[global] Arguments load_color : simpl never.
#[global] Arguments load_left : simpl never.
#[global] Arguments load_right : simpl never.
#[global] Arguments load_parent : simpl never.
#[global] Arguments store_node : simpl never.
#[global] Arguments store_color : simpl never.
#[global] Arguments store_left : simpl never.
#[global] Arguments store_right : simpl never.
#[global] Arguments store_parent : simpl never.

(** ** Shapes and paths *)

Lemma addrs_plug c s :
  addrs (plug c s) = addrs_before c ++ addrs s ++ addrs_after c.
Proof.
  revert s. induction c as [|[i col k r|i col l k] c IH]; intros s; simpl.
  - by rewrite app_nil_r.
  - rewrite IH. simpl. by rewrite <-!app_assoc.
  - rewrite IH. simpl. by rewrite <-!app_assoc.
Qed.

Lemma keys_plug c s :
  keys (plug c s) = keys_before c ++ keys s ++ keys_after c.
Proof.
  revert s. induction c as [|[i col k r|i col l k] c IH]; intros s; simpl.
  - by rewrite app_nil_r.
  - rewrite IH. simpl. by rewrite <-!app_assoc.
  - rewrite IH. simpl. by rewrite <-!app_assoc.
Qed.

Lemma root_ptr_plug c s : root_ptr (plug c s) = ctx_root c (root_ptr s).
Proof.
  revert s. induction c as [|f c IH]; intros s; simpl; [done|].
  rewrite IH. by destruct f.
Qed.

Lemma root_ptr_nd_plug c s :
  c <> [] -> exists i, root_ptr (plug c s) = node_addr i.
Proof.
  revert s. induction c as [|f c IH]; intros s Hc; [done|]. simpl.
  destruct c as [|f' c].
  - destruct f; simpl; eauto.
  - apply IH. done.
Qed.

Lemma rep_plug h c s :
  rep h end_addr (plug c s) <-> rep_ctx h (root_ptr s) c /\ rep h (ctx_ptr c) s.
Proof.
  revert s. induction c as [|[i col k r|i col l k] c IH]; intros s; simpl.
  - tauto.
  - rewrite IH. simpl. tauto.
  - rewrite IH. simpl. tauto.
Qed.

Lemma rep_lt h par s i : rep h par s -> i ∈ addrs s -> i < length h.
Proof.
  revert par. induction s as [|j col l IHl k r IHr]; intros par; simpl.
  - intros _ Hi. by apply elem_of_nil in Hi.
  - intros (Hj & Hl & Hr). rewrite elem_of_app, elem_of_cons.
    intros [Hi|[->|Hi]]; eauto using lookup_lt_Some.
Qed.

Lemma rep_frame h h' par s :
  (forall i, i ∈ addrs s -> h' !! i = h !! i) -> rep h par s -> rep h' par s.
Proof.
  revert par. induction s as [|j col l IHl k r IHr]; intros par Hsame; simpl; [done|].
  intros (Hj & Hl & Hr). split_and!.
  - rewrite Hsame; [done|]. simpl. set_solver.
  - apply IHl; [|done]. intros i Hi. apply Hsame. simpl. set_solver.
  - apply IHr; [|done]. intros i Hi. apply Hsame. simpl. set_solver.
Qed.

Lemma rep_insert h par s i n :
  i ∉ addrs s -> rep h par s -> rep (<[i := n]> h) par s.
Proof.
  intros Hi. apply rep_frame. intros j Hj.
  apply list_lookup_insert_ne. set_solver.
Qed.

Lemma rep_app h h2 par s : rep h par s -> rep (h ++ h2) par s.
Proof.
  intros Hrep. eapply rep_frame; [|done]. intros i Hi.
  apply lookup_app_l. eauto using rep_lt.
Qed.

Lemma rep_ctx_frame h h' q c :
  (forall i, i ∈ addrs_before c ++ addrs_after c -> h' !! i = h !! i) ->
  rep_ctx h q c -> rep_ctx h' q c.
Proof.
  revert q. induction c as [|[i col k r|i col l k] c IH]; intros q Hsame; simpl; [done| |].
  - intros (Hi & Hr & Hc). split_and!.
    + rewrite Hsame; [done|]. simpl. set_solver.
    + eapply rep_frame; [|done]. intros j Hj. apply Hsame. simpl. set_solver.
    + apply IH; [|done]. intros j Hj. apply Hsame. simpl. set_solver.
  - intros (Hi & Hr & Hc). split_and!.
    + rewrite Hsame; [done|]. simpl. set_solver.
    + eapply rep_frame; [|done]. intros j Hj. apply Hsame. simpl. set_solver.
    + apply IH; [|done]. intros j Hj. apply Hsame. simpl. set_solver.
Qed.

Lemma rep_ctx_insert h q c i n :
  i ∉ addrs_before c -> i ∉ addrs_after c ->
  rep_ctx h q c -> rep_ctx (<[i := n]> h) q c.
Proof.
  intros Hb Ha. apply rep_ctx_frame. intros j Hj.
  apply list_lookup_insert_ne. set_solver.
Qed.

Lemma rep_ctx_app h h2 q c : rep_ctx h q c -> rep_ctx (h ++ h2) q c.
Proof.
  revert q. induction c as [|[i col k r|i col l k] c IH]; intros q; simpl; [done| |].
  - intros (Hi & Hr & Hc). split_and!; eauto using rep_app.
    rewrite lookup_app_l; eauto using lookup_lt_Some.
  - intros (Hi & Hr & Hc). split_and!; eauto using rep_app.
    rewrite lookup_app_l; eauto using lookup_lt_Some.
Qed.

(** Changing the parent link of the root of a subtree re-hangs it. *)
Lemma rep_reparent h par par' s :
  NoDup (addrs s) -> rep h par s ->
  match s with
  | Lf => True
  | Nd i col l k r =>
      rep (<[i := mk_node k col (root_ptr l) (root_ptr r) par']> h) par' s
  end.
Proof.
  destruct s as [|i col l k r]; [done|]. simpl.
  rewrite NoDup_app, NoDup_cons. intros (Hl & Hlr & Hi & Hr) (Hn & Hrl & Hrr).
  split_and!.
  - apply list_lookup_insert_eq. eauto using lookup_lt_Some.
  - apply rep_insert; [|done]. set_solver.
  - apply rep_insert; [|done]. set_solver.
Qed.

End MemoryLemmas.

(** ** Stores and rotations, on the tree the heap holds *)


Lemma nodup_sub {A} (L l : list A) : NoDup L -> l ⊆+ L -> NoDup l.
Proof.
  intros HL (k & Hk)%submseteq_Permutation. rewrite Hk in HL.
  by apply NoDup_app in HL as (? & _).
Qed.

Lemma nodup_pick2 {A} (L : list A) x y : NoDup L -> [x; y] ⊆+ L -> x <> y.
Proof.
  intros HL Hsub. pose proof (nodup_sub _ _ HL Hsub) as Hxy.
  apply NoDup_cons in Hxy as (Hx & _). set_solver.
Qed.

Lemma nodup_pick_notin {A} (L l : list A) x : NoDup L -> x :: l ⊆+ L -> x ∉ l.
Proof.
  intros HL Hsub. pose proof (nodup_sub _ _ HL Hsub) as Hxy.
  by apply NoDup_cons in Hxy as (Hx & _).
Qed.

(** Disequalities and non-memberships that follow from a [NoDup] fact. *)
Ltac nd H :=
  lazymatch goal with
  | |- ?x <> ?y => apply (nodup_pick2 _ _ _ H); solve_submseteq
  | |- ?x ∉ ?l => apply (nodup_pick_notin _ _ _ H); solve_submseteq
  | |- NoDup ?l => apply (nodup_sub _ _ H); solve_submseteq
  end.

Ltac lookup_simpl :=
  repeat first
    [ rewrite list_lookup_insert_ne by done
    | rewrite list_lookup_insert_eq
        by (rewrite ?length_insert; eauto using lookup_lt_Some) ].

Ltac frame_solve H :=
  lazymatch goal with
  | |- rep _ _ _ => repeat (apply rep_insert; [nd H|]); done
  | |- rep_ctx _ _ _ => repeat (apply rep_ctx_insert; [nd H..|]); done
  | |- _ !! _ = _ => lookup_simpl; done
  | |- NoDup _ => nd H
  | |- length _ = _ =>
      rewrite ?length_insert; etrans; [eassumption|];
      repeat first [rewrite length_app | progress simpl]; lia
  | |- _ => done
  end.

Ltac heap_lookup := simpl; lookup_simpl; first [reflexivity | eassumption].

Ltac exec_step :=
  match goal with
  | |- context [load_key ?t (node_addr ?i)] =>
      erewrite (load_key_node t i) by heap_lookup
  | |- context [load_color ?t (node_addr ?i)] =>
      erewrite (load_color_node t i) by heap_lookup
  | |- context [load_left ?t (node_addr ?i)] =>
      erewrite (load_left_node t i) by heap_lookup
  | |- context [load_right ?t (node_addr ?i)] =>
      erewrite (load_right_node t i) by heap_lookup
  | |- context [load_parent ?t (node_addr ?i)] =>
      erewrite (load_parent_node t i) by heap_lookup
  | |- context [store_color ?t (node_addr ?i) ?q] =>
      erewrite (store_color_node t i) by heap_lookup
  | |- context [store_left ?t (node_addr ?i) ?q] =>
      erewrite (store_left_node t i) by heap_lookup
  | |- context [store_right ?t (node_addr ?i) ?q] =>
      erewrite (store_right_node t i) by heap_lookup
  | |- context [store_parent ?t (node_addr ?i) ?q] =>
      erewrite (store_parent_node t i) by heap_lookup
  | |- context [load_left ?t end_addr] =>
      erewrite (load_left_end t) by (simpl; eassumption)
  | |- context [store_left ?t end_addr ?q] =>
      erewrite (store_left_end t) by (simpl; eassumption)
  end; unfold with_left, with_right, with_parent, with_color; simpl.

Ltac exec_plain := simpl; repeat exec_step.
Ltac exec := exec_plain; repeat (rewrite bool_decide_true by done; exec_plain).

(** One load through a node whose contents are known. *)
Ltac load H :=
  rewrite ?(load_parent_node _ _ _ H), ?(load_left_node _ _ _ H),
    ?(load_right_node _ _ _ H), ?(load_color_node _ _ _ H),
    ?(load_key_node _ _ _ H); simpl.

Section HeapLemmas.
Context {Key : Type}.
Implicit Types (t : RB_Tree Key) (n : RB_Node Key) (q : node_ptr)
  (h : list (RB_Node Key)) (s l r a b u z : shape Key) (c : list (frame Key)).

Lemma same_caches_refl t : same_caches t t.
Proof. done. Qed.

Lemma same_caches_trans t1 t2 t3 :
  same_caches t1 t2 -> same_caches t2 t3 -> same_caches t1 t3.
Proof. unfold same_caches. intros (?&?&?) (?&?&?). split_and!; congruence. Qed.

Lemma tree_rep_plug t c s :
  tree_rep t (plug c s) <->
  end_node_ t = Some (mk_end (ctx_root c (root_ptr s)))
  /\ rep_ctx (nodes_ t) (root_ptr s) c
  /\ rep (nodes_ t) (ctx_ptr c) s
  /\ NoDup (addrs_before c ++ addrs s ++ addrs_after c)
  /\ length (nodes_ t) = length (addrs_before c ++ addrs s ++ addrs_after c).
Proof. unfold tree_rep. rewrite rep_plug, root_ptr_plug, addrs_plug. tauto. Qed.

Lemma focus_node t c i col l k r :
  tree_rep t (plug c (Nd i col l k r)) ->
  nodes_ t !! i = Some (mk_node k col (root_ptr l) (root_ptr r) (ctx_ptr c)).
Proof. intros (_ & Hrep & _). apply rep_plug in Hrep as (_ & Hrep). apply Hrep. Qed.

Lemma focus_root t c s :
  tree_rep t (plug c s) -> root t = Some (ctx_root c (root_ptr s)).
Proof.
  intros (He & _). unfold root, end_node. rewrite He.
  erewrite load_left_end by done. simpl. by rewrite root_ptr_plug.
Qed.

Lemma store_color_focus t c i col l k r col' :
  tree_rep t (plug c (Nd i col l k r)) ->
  exists t', store_color t (node_addr i) col' = Some t'
    /\ tree_rep t' (plug c (Nd i col' l k r)) /\ same_caches t t'.
Proof.
  intros Ht. pose proof (focus_node _ _ _ _ _ _ _ Ht) as Hi.
  destruct Ht as (He & Hrep & Hnd & Hlen).
  unfold store_color. rewrite (store_node_node _ _ _ _ Hi).
  eexists. split; [done|]. split; [|done].
  rewrite addrs_plug in Hnd, Hlen. simpl in Hnd, Hlen.
  apply rep_plug in Hrep as (Hc & _ & Hl & Hr).
  split_and!; simpl.
  - by rewrite He, !root_ptr_plug.
  - apply rep_plug. simpl. split_and!; frame_solve Hnd.
  - by rewrite addrs_plug.
  - by rewrite length_insert, addrs_plug.
Qed.

Lemma right_rotate_focus t c g cg p cp a kp b kg u :
  tree_rep t (plug c (Nd g cg (Nd p cp a kp b) kg u)) ->
  exists t', right_rotate t (node_addr g) = Some t'
    /\ tree_rep t' (plug c (Nd p cp a kp (Nd g cg b kg u))) /\ same_caches t t'.
Proof.
  intros Ht. setoid_rewrite tree_rep_plug. apply tree_rep_plug in Ht.
  destruct Ht as (He & Hc & (Hg & (Hp & Ha & Hb) & Hu) & Hnd & Hlen).
  assert (g <> p) as Hgp by nd Hnd.
  unfold right_rotate, is_left_child. simpl in *. exec.
  destruct b as [|bi cb bl bk br]; simpl in *.
  - destruct c as [|[i col k r|i col l k] up]; simpl in *.
    + exec. eexists. split; [done|]. simpl. split; [|done].
      split_and!; frame_solve Hnd.
    + destruct Hc as (Hi & Hr & Hup).
      assert (i <> g /\ i <> p) as [??] by (split; nd Hnd).
      exec. eexists. split; [done|]. simpl. split; [|done].
      split_and!; frame_solve Hnd.
    + destruct Hc as (Hi & Hr & Hup).
      assert (i <> g /\ i <> p) as [??] by (split; nd Hnd).
      exec. rewrite bool_decide_false.
      2:{ assert (g ∉ addrs l) as Hgl by nd Hnd.
          destruct l; simpl; [done|]. intros [= ->]. apply Hgl. simpl. set_solver. }
      exec. eexists. split; [done|]. simpl. split; [|done].
      split_and!; frame_solve Hnd.
  - destruct Hb as (Hbi & Hbl & Hbr).
    assert (bi <> g /\ bi <> p) as [??] by (split; nd Hnd).
    destruct c as [|[i col k r|i col l k] up]; simpl in *.
    + exec. eexists. split; [done|]. simpl. split; [|done].
      split_and!; frame_solve Hnd.
    + destruct Hc as (Hi & Hr & Hup).
      assert (i <> g /\ i <> p /\ i <> bi) as (?&?&?) by (split_and!; nd Hnd).
      exec. eexists. split; [done|]. simpl. split; [|done].
      split_and!; frame_solve Hnd.
    + destruct Hc as (Hi & Hr & Hup).
      assert (i <> g /\ i <> p /\ i <> bi) as (?&?&?) by (split_and!; nd Hnd).
      exec. rewrite bool_decide_false.
      2:{ assert (g ∉ addrs l) as Hgl by nd Hnd.
          destruct l; simpl; [done|]. intros [= ->]. apply Hgl. simpl. set_solver. }
      exec. eexists. split; [done|]. simpl. split; [|done].
      split_and!; frame_solve Hnd.
Qed.

Lemma left_rotate_focus t c x cx a kx y cy b ky d :
  tree_rep t (plug c (Nd x cx a kx (Nd y cy b ky d))) ->
  exists t', left_rotate t (node_addr x) = Some t'
    /\ tree_rep t' (plug c (Nd y cy (Nd x cx a kx b) ky d)) /\ same_caches t t'.
Proof.
  intros Ht. setoid_rewrite tree_rep_plug. apply tree_rep_plug in Ht.
  destruct Ht as (He & Hc & (Hx & Ha & (Hy & Hb & Hd)) & Hnd & Hlen).
  assert (x <> y) as Hxy by nd Hnd.
  unfold left_rotate, is_left_child. simpl in *. exec.
  destruct b as [|bi cb bl bk br]; simpl in *.
  - destruct c as [|[i col k r|i col l k] up]; simpl in *.
    + exec. eexists. split; [done|]. simpl. split; [|done].
      split_and!; frame_solve Hnd.
    + destruct Hc as (Hi & Hr & Hup).
      assert (i <> x /\ i <> y) as [??] by (split; nd Hnd).
      exec. eexists. split; [done|]. simpl. split; [|done].
      split_and!; frame_solve Hnd.
    + destruct Hc as (Hi & Hr & Hup).
      assert (i <> x /\ i <> y) as [??] by (split; nd Hnd).
      exec. rewrite bool_decide_false.
      2:{ assert (x ∉ addrs l) as Hxl by nd Hnd.
          destruct l; simpl; [done|]. intros [= ->]. apply Hxl. simpl. set_solver. }
      exec. eexists. split; [done|]. simpl. split; [|done].
      split_and!; frame_solve Hnd.
  - destruct Hb as (Hbi & Hbl & Hbr).
    assert (bi <> x /\ bi <> y) as [??] by (split; nd Hnd).
    destruct c as [|[i col k r|i col l k] up]; simpl in *.
    + exec. eexists. split; [done|]. simpl. split; [|done].
      split_and!; frame_solve Hnd.
    + destruct Hc as (Hi & Hr & Hup).
      assert (i <> x /\ i <> y /\ i <> bi) as (?&?&?) by (split_and!; nd Hnd).
      exec. eexists. split; [done|]. simpl. split; [|done].
      split_and!; frame_solve Hnd.
    + destruct Hc as (Hi & Hr & Hup).
      assert (i <> x /\ i <> y /\ i <> bi) as (?&?&?) by (split_and!; nd Hnd).
      exec. rewrite bool_decide_false.
      2:{ assert (x ∉ addrs l) as Hxl by nd Hnd.
          destruct l; simpl; [done|]. intros [= ->]. apply Hxl. simpl. set_solver. }
      exec. eexists. split; [done|]. simpl. split; [|done].
      split_and!; frame_solve Hnd.
Qed.

End HeapLemmas.

(** ** The fix-up loop, on the tree the heap holds *)

Section FixupLoop.
Context {Key : Type}.
Implicit Types (t : RB_Tree Key) (n : RB_Node Key) (q : node_ptr)
  (h : list (RB_Node Key)) (s l r a b u z : shape Key) (c : list (frame Key)).

Lemma root_ptr_neq i s : i ∉ addrs s -> node_addr i <> root_ptr s.
Proof. destruct s; simpl; [done|]. intros Hi [= ->]. set_solver. Qed.

Lemma focus_nodup t c s :
  tree_rep t (plug c s) -> NoDup (addrs_before c ++ addrs s ++ addrs_after c).
Proof. intros Ht. by apply tree_rep_plug in Ht as (_ & _ & _ & ? & _). Qed.

Lemma is_red_shape_true u :
  is_red_shape u = true -> exists ui ul uk ur, u = Nd ui red ul uk ur.
Proof.
  destruct u as [|ui [] ul uk ur]; unfold is_red_shape; simpl; try done.
  intros _. eauto.
Qed.

Lemma ctx_root_black_tail f1 f2 c :
  ctx_root_black (f1 :: f2 :: c) -> ctx_root_black c.
Proof.
  unfold ctx_root_black. rewrite !last_cons.
  destruct (last c); [done|]. done.
Qed.

Lemma is_red_focus t c u :
  tree_rep t (plug c u) -> is_red t (root_ptr u) = Some (is_red_shape u).
Proof.
  intros Ht. destruct u as [|ui cu ul uk ur]; [done|].
  pose proof (focus_node _ _ _ _ _ _ _ Ht) as Hu. simpl.
  rewrite (load_color_node _ _ _ Hu). simpl. unfold is_red_shape. simpl. done.
Qed.

Lemma is_red_ctx_ptr t c z :
  tree_rep t (plug c z) ->
  is_red t (ctx_ptr c)
  = Some (match c with [] => false | f :: _ => bool_decide (frame_color f = red) end).
Proof.
  intros Ht. destruct c as [|f c]; [done|].
  destruct f; simpl in *;
    pose proof (focus_node _ _ _ _ _ _ _ Ht) as Hu;
    by rewrite (load_color_node _ _ _ Hu).
Qed.

Lemma fixup_loop_focus fuel : forall c t zi zc zl zk zr,
  tree_rep t (plug c (Nd zi zc zl zk zr)) -> ctx_root_black c -> length c < fuel ->
  exists t', fixup_loop fuel t (node_addr zi) = Some t'
    /\ tree_rep t' (fix_up c (Nd zi zc zl zk zr)) /\ same_caches t t'.
Proof.
  induction fuel as [|fuel IH]; intros c t zi zc zl zk zr Ht Hblack Hfuel; [lia|].
  pose proof (focus_node _ _ _ _ _ _ _ Ht) as Hz.
  pose proof (is_red_ctx_ptr _ _ _ Ht) as Hred.
  simpl fixup_loop. load Hz. rewrite Hred. simpl.
  destruct c as [|f1 c1]; simpl.
  { eexists. split; [done|]. done. }
  destruct (decide (frame_color f1 = red)) as [Hf1|Hf1].
  2:{ rewrite bool_decide_false by done. simpl. eexists. split; [done|].
      split; [|done]. destruct f1 as [p [] kp rp|p [] lp kp]; try done. }
  rewrite bool_decide_true by done. simpl.
  destruct c1 as [|f2 up].
  { destruct f1; simpl in *; unfold ctx_root_black in Hblack; simpl in *; congruence. }
  pose proof (focus_nodup _ _ _ Ht) as Hnd. simpl in Hnd.
  apply ctx_root_black_tail in Hblack.
  assert (length up < fuel) as Hfuel' by (simpl in Hfuel; lia).
  destruct f1 as [p cp kp rp|p cp lp kp]; simpl in Hf1; subst cp;
    destruct f2 as [g cg kg u|g cg u kg]; simpl in *.
  - (* z is the left child of p, p the left child of g *)
    pose proof (focus_node _ (FL g cg kg u :: up) _ _ _ _ _ Ht) as Hp.
    pose proof (focus_node _ up _ _ _ _ _ Ht) as Hg. simpl in Hp, Hg.
    load Hp. load Hg. rewrite bool_decide_true by done. load Hg.
    rewrite (is_red_focus t (FR g cg _ kg :: up) u Ht). simpl.
    destruct (is_red_shape u) eqn:Hu.
    + apply is_red_shape_true in Hu as (ui & ul & uk & ur & ->).
      destruct (store_color_focus _ (FL g cg kg _ :: up) _ _ _ _ _ black Ht)
        as (t1 & -> & Ht1 & Hc1). simpl.
      destruct (store_color_focus _ (FR g cg _ kg :: up) _ _ _ _ _ black Ht1)
        as (t2 & -> & Ht2 & Hc2). simpl.
      destruct (store_color_focus _ up _ _ _ _ _ red Ht2)
        as (t3 & -> & Ht3 & Hc3). simpl.
      destruct (IH up t3 _ _ _ _ _ Ht3 Hblack Hfuel') as (t4 & -> & Ht4 & Hc4).
      eexists. split; [done|]. split; [done|].
      eauto using same_caches_trans.
    + load Hp. rewrite bool_decide_false by (apply root_ptr_neq; nd Hnd). simpl.
      load Hz. load Hp.
      destruct (store_color_focus _ (FL g cg kg _ :: up) _ _ _ _ _ black Ht)
        as (t1 & -> & Ht1 & Hc1). simpl.
      destruct (store_color_focus _ up _ _ _ _ _ red Ht1)
        as (t2 & -> & Ht2 & Hc2). simpl.
      destruct (right_rotate_focus _ _ _ _ _ _ _ _ _ _ _ Ht2) as (t3 & -> & Ht3 & Hc3).
      eexists. split; [done|]. split; [done|].
      eauto using same_caches_trans.
  - (* z is the left child of p, p the right child of g *)
    pose proof (focus_node _ (FR g cg u kg :: up) _ _ _ _ _ Ht) as Hp.
    pose proof (focus_node _ up _ _ _ _ _ Ht) as Hg. simpl in Hp, Hg.
    load Hp. load Hg. rewrite bool_decide_false by (apply root_ptr_neq; nd Hnd).
    simpl. rewrite (is_red_focus t (FL g cg kg _ :: up) u Ht). simpl.
    destruct (is_red_shape u) eqn:Hu.
    + apply is_red_shape_true in Hu as (ui & ul & uk & ur & ->).
      destruct (store_color_focus _ (FR g cg _ kg :: up) _ _ _ _ _ black Ht)
        as (t1 & -> & Ht1 & Hc1). simpl.
      destruct (store_color_focus _ (FL g cg kg _ :: up) _ _ _ _ _ black Ht1)
        as (t2 & -> & Ht2 & Hc2). simpl.
      destruct (store_color_focus _ up _ _ _ _ _ red Ht2)
        as (t3 & -> & Ht3 & Hc3). simpl.
      destruct (IH up t3 _ _ _ _ _ Ht3 Hblack Hfuel') as (t4 & -> & Ht4 & Hc4).
      eexists. split; [done|]. split; [done|].
      eauto using same_caches_trans.
    + load Hp. rewrite bool_decide_true by done.
      destruct (right_rotate_focus _ (FR g cg u kg :: up) _ _ _ _ _ _ _ _ _ Ht)
        as (t1 & -> & Ht1 & Hc1). simpl.
      pose proof (focus_node _ (FR zi zc zl zk :: FR g cg u kg :: up) _ _ _ _ _ Ht1)
        as Hp1.
      pose proof (focus_node _ (FR g cg u kg :: up) _ _ _ _ _ Ht1) as Hz1.
      simpl in Hp1, Hz1. load Hp1. load Hz1.
      destruct (store_color_focus _ (FR g cg u kg :: up) _ _ _ _ _ black Ht1)
        as (t2 & -> & Ht2 & Hc2). simpl.
      destruct (store_color_focus _ up _ _ _ _ _ red Ht2)
        as (t3 & -> & Ht3 & Hc3). simpl.
      destruct (left_rotate_focus _ _ _ _ _ _ _ _ _ _ _ Ht3) as (t4 & -> & Ht4 & Hc4).
      eexists. split; [done|]. split; [done|].
      eauto using same_caches_trans.
  - (* z is the right child of p, p the left child of g *)
    pose proof (focus_node _ (FL g cg kg u :: up) _ _ _ _ _ Ht) as Hp.
    pose proof (focus_node _ up _ _ _ _ _ Ht) as Hg. simpl in Hp, Hg.
    load Hp. load Hg. rewrite bool_decide_true by done. load Hg.
    rewrite (is_red_focus t (FR g cg _ kg :: up) u Ht). simpl.
    destruct (is_red_shape u) eqn:Hu.
    + apply is_red_shape_true in Hu as (ui & ul & uk & ur & ->).
      destruct (store_color_focus _ (FL g cg kg _ :: up) _ _ _ _ _ black Ht)
        as (t1 & -> & Ht1 & Hc1). simpl.
      destruct (store_color_focus _ (FR g cg _ kg :: up) _ _ _ _ _ black Ht1)
        as (t2 & -> & Ht2 & Hc2). simpl.
      destruct (store_color_focus _ up _ _ _ _ _ red Ht2)
        as (t3 & -> & Ht3 & Hc3). simpl.
      destruct (IH up t3 _ _ _ _ _ Ht3 Hblack Hfuel') as (t4 & -> & Ht4 & Hc4).
      eexists. split; [done|]. split; [done|].
      eauto using same_caches_trans.
    + load Hp. rewrite bool_decide_true by done.
      destruct (left_rotate_focus _ (FL g cg kg u :: up) _ _ _ _ _ _ _ _ _ Ht)
        as (t1 & -> & Ht1 & Hc1). simpl.
      pose proof (focus_node _ (FL zi zc zk zr :: FL g cg kg u :: up) _ _ _ _ _ Ht1)
        as Hp1.
      pose proof (focus_node _ (FL g cg kg u :: up) _ _ _ _ _ Ht1) as Hz1.
      simpl in Hp1, Hz1. load Hp1. load Hz1.
      destruct (store_color_focus _ (FL g cg kg u :: up) _ _ _ _ _ black Ht1)
        as (t2 & -> & Ht2 & Hc2). simpl.
      destruct (store_color_focus _ up _ _ _ _ _ red Ht2)
        as (t3 & -> & Ht3 & Hc3). simpl.
      destruct (right_rotate_focus _ _ _ _ _ _ _ _ _ _ _ Ht3) as (t4 & -> & Ht4 & Hc4).
      eexists. split; [done|]. split; [done|].
      eauto using same_caches_trans.
  - (* z is the right child of p, p the right child of g *)
    pose proof (focus_node _ (FR g cg u kg :: up) _ _ _ _ _ Ht) as Hp.
    pose proof (focus_node _ up _ _ _ _ _ Ht) as Hg. simpl in Hp, Hg.
    load Hp. load Hg. rewrite bool_decide_false by (apply root_ptr_neq; nd Hnd).
    simpl. rewrite (is_red_focus t (FL g cg kg _ :: up) u Ht). simpl.
    destruct (is_red_shape u) eqn:Hu.
    + apply is_red_shape_true in Hu as (ui & ul & uk & ur & ->).
      destruct (store_color_focus _ (FR g cg _ kg :: up) _ _ _ _ _ black Ht)
        as (t1 & -> & Ht1 & Hc1). simpl.
      destruct (store_color_focus _ (FL g cg kg _ :: up) _ _ _ _ _ black Ht1)
        as (t2 & -> & Ht2 & Hc2). simpl.
      destruct (store_color_focus _ up _ _ _ _ _ red Ht2)
        as (t3 & -> & Ht3 & Hc3). simpl.
      destruct (IH up t3 _ _ _ _ _ Ht3 Hblack Hfuel') as (t4 & -> & Ht4 & Hc4).
      eexists. split; [done|]. split; [done|].
      eauto using same_caches_trans.
    + load Hp. rewrite bool_decide_false by (apply root_ptr_neq; nd Hnd). simpl.
      load Hz. load Hp.
      destruct (store_color_focus _ (FR g cg u kg :: up) _ _ _ _ _ black Ht)
        as (t1 & -> & Ht1 & Hc1). simpl.
      destruct (store_color_focus _ up _ _ _ _ _ red Ht1)
        as (t2 & -> & Ht2 & Hc2). simpl.
      destruct (left_rotate_focus _ _ _ _ _ _ _ _ _ _ _ Ht2) as (t3 & -> & Ht3 & Hc3).
      eexists. split; [done|]. split; [done|].
      eauto using same_caches_trans.
Qed.
End FixupLoop.

(** ** Colors and black heights along a path *)

Ltac app_norm :=
  repeat first [rewrite <-app_assoc | rewrite app_nil_r | progress simpl].

Section ColorLemmas.
Context {Key : Type}.
Implicit Types (s l r a b u z : shape Key) (c : list (frame Key)).

Lemma ctx_ind2 (P : list (frame Key) -> Prop) :
  P [] -> (forall f, P [f]) -> (forall f1 f2 c, P c -> P (f1 :: f2 :: c)) ->
  forall c, P c.
Proof.
  intros H0 H1 H2. cut (forall c, P c /\ forall f, P (f :: c)); [naive_solver|].
  induction c as [|f c [IH1 IH2]]; [done|]. split; [done|]. intros f'. by apply H2.
Qed.

Lemma addrs_paint col s : addrs (paint col s) = addrs s.
Proof. by destruct s. Qed.

Lemma keys_paint col s : keys (paint col s) = keys s.
Proof. by destruct s. Qed.

Lemma root_ptr_paint col s : root_ptr (paint col s) = root_ptr s.
Proof. by destruct s. Qed.

Lemma paint_black_id s : root_color s = black -> paint black s = s.
Proof. destruct s; simpl; [done|]. by intros ->. Qed.

Lemma no_red_red_paint_black s : no_red_red s -> no_red_red (paint black s).
Proof. destruct s; simpl; [done|]. intros (_ & ? & ?). done. Qed.

Lemma balanced_paint col s : balanced s -> balanced (paint col s).
Proof. by destruct s. Qed.

Lemma root_color_paint_black s : root_color (paint black s) = black.
Proof. by destruct s. Qed.

Lemma addrs_fix_up c : forall zi zc zl zk zr,
  addrs (fix_up c (Nd zi zc zl zk zr)) = addrs (plug c (Nd zi zc zl zk zr)).
Proof.
  induction c as [|f|f1 f2 c IH] using ctx_ind2; intros zi zc zl zk zr.
  - done.
  - by destruct f as [? [] ? ?|? [] ? ?].
  - destruct f1 as [p [] kp rp|p [] lp kp], f2 as [g cg kg u|g cg u kg];
      simpl; try done; destruct (is_red_shape u); try done;
      rewrite ?IH, ?addrs_plug; simpl; rewrite ?addrs_paint; by app_norm.
Qed.

Lemma keys_fix_up c : forall zi zc zl zk zr,
  keys (fix_up c (Nd zi zc zl zk zr)) = keys (plug c (Nd zi zc zl zk zr)).
Proof.
  induction c as [|f|f1 f2 c IH] using ctx_ind2; intros zi zc zl zk zr.
  - done.
  - by destruct f as [? [] ? ?|? [] ? ?].
  - destruct f1 as [p [] kp rp|p [] lp kp], f2 as [g cg kg u|g cg u kg];
      simpl; try done; destruct (is_red_shape u); try done;
      rewrite ?IH, ?keys_plug; simpl; rewrite ?keys_paint; by app_norm.
Qed.

Lemma black_height_fill f s :
  black_height (sibling f) = black_height s ->
  black_height (fill f s) = black_weight (frame_color f) + black_height s.
Proof. destruct f; simpl; lia. Qed.

(** A well-colored, balanced tree plugged into a path that is so around
    it gives a well-colored, balanced tree, and conversely. *)
Lemma plug_ok c : forall s,
  ctx_ok (black_height s) (root_color s) c -> no_red_red s -> balanced s ->
  no_red_red (plug c s) /\ balanced (plug c s).
Proof.
  induction c as [|f c IH]; intros s Hc Hs Hb; [done|].
  destruct Hc as (Hbh & Hsn & Hsb & Hcol & Hup). simpl. apply IH.
  - rewrite black_height_fill by done. by destruct f.
  - destruct f; simpl in *; naive_solver.
  - destruct f; simpl in *; naive_solver.
Qed.

Lemma plug_ok_inv c : forall s,
  no_red_red (plug c s) -> balanced (plug c s) ->
  ctx_ok (black_height s) (root_color s) c /\ no_red_red s /\ balanced s.
Proof.
  induction c as [|f c IH]; intros s Hs Hb; [done|].
  simpl in Hs, Hb. destruct (IH _ Hs Hb) as (Hc & Hfs & Hfb).
  assert (black_height (sibling f) = black_height s) as Hbh
    by (destruct f; simpl in *; naive_solver).
  rewrite black_height_fill in Hc by done.
  destruct f; simpl in *; naive_solver.
Qed.

Lemma root_color_plug c s :
  root_color (plug c s)
  = match last c with Some f => frame_color f | None => root_color s end.
Proof.
  revert s. induction c as [|f c IH]; intros s; [done|]. simpl. rewrite IH.
  rewrite last_cons. destruct (last c); [done|]. by destruct f.
Qed.

Lemma ctx_root_black_plug c s :
  root_color (plug c s) = black -> c <> [] -> ctx_root_black c.
Proof.
  rewrite root_color_plug. unfold ctx_root_black.
  destruct (last c) eqn:Hl; [done|]. intros _ Hc.
  by apply last_None in Hl.
Qed.

Lemma root_color_plug_black c s :
  ctx_root_black c -> c <> [] -> root_color (plug c s) = black.
Proof.
  rewrite root_color_plug. unfold ctx_root_black.
  destruct (last c) eqn:Hl; [done|]. intros _ Hc.
  by apply last_None in Hl.
Qed.

Lemma ctx_ok_black_head n col col' f c :
  frame_color f = black -> ctx_ok n col (f :: c) -> ctx_ok n col' (f :: c).
Proof. simpl. intros Hf (?&?&?&?&?). split_and!; try done. congruence. Qed.

Lemma red_black_plug c s :
  ctx_ok (black_height s) (root_color s) c -> ctx_root_black c ->
  (c = [] -> root_color s = black) -> no_red_red s -> balanced s ->
  red_black (paint black (plug c s)).
Proof.
  intros Hc Hroot Hcol Hs Hb. destruct (plug_ok _ _ Hc Hs Hb) as (Hn & Hbal).
  assert (root_color (plug c s) = black) as Hrc.
  { destruct c as [|f c]; [by apply Hcol|]. by apply root_color_plug_black. }
  rewrite paint_black_id by done. done.
Qed.

Ltac crush := simpl in *; intuition (try congruence; try lia).

Lemma fix_up_red_black c : forall zi zl zk zr,
  ctx_ok (black_height zl) black c -> ctx_root_black c ->
  root_color zl = black -> root_color zr = black ->
  no_red_red zl -> no_red_red zr ->
  black_height zl = black_height zr -> balanced zl -> balanced zr ->
  red_black (paint black (fix_up c (Nd zi red zl zk zr))).
Proof.
  induction c as [|f|f1 f2 c IH] using ctx_ind2;
    intros zi zl zk zr Hc Hroot Hcl Hcr Hnl Hnr Hbh Hbl Hbr.
  - done.
  - destruct f as [p [] kp rp|p [] lp kp]; try done.
    + apply (red_black_plug [FL p black kp rp] (Nd zi red zl zk zr)); try done.
      eapply ctx_ok_black_head; [done|exact Hc].
    + apply (red_black_plug [FR p black lp kp] (Nd zi red zl zk zr)); try done.
      eapply ctx_ok_black_head; [done|exact Hc].
  - pose proof (ctx_root_black_tail _ _ _ Hroot) as Hroot'.
    assert (frame_color f1 = black ->
            red_black (paint black (plug (f1 :: f2 :: c) (Nd zi red zl zk zr))))
      as Hblack.
    { intros Hf1. apply red_black_plug; try done.
      eapply ctx_ok_black_head; [done|exact Hc]. }
    destruct f1 as [p [] kp rp|p [] lp kp]; try (by apply Hblack);
      destruct f2 as [g cg kg u|g cg u kg]; simpl in Hc;
      destruct Hc as (Hbp & Hnp & Hbalp & Hcp & Hbg & Hng & Hbalg & Hcg & Hc);
      destruct (Hcp eq_refl) as (_ & Hcs); clear Hcp Hblack;
      (assert (cg = black) as -> by (destruct cg; [by destruct Hcg|done]));
      clear Hcg; simpl in Hc.
    all: simpl; destruct (is_red_shape u) eqn:Hu;
      [ apply is_red_shape_true in Hu as (ui & ul & uk & ur & ->);
        apply IH; crush
      | assert (root_color u = black) by (by destruct u as [|? [] ? ? ?]);
        apply red_black_plug; crush ].
Qed.

Lemma black_counts_balanced s :
  balanced s -> Forall (fun m => m = black_height s) (black_counts s).
Proof.
  induction s as [|i col l IHl k r IHr]; simpl.
  - intros _. by repeat constructor.
  - intros (Hbh & Hl & Hr). apply Forall_fmap, Forall_app. split.
    + eapply Forall_impl; [by apply IHl|]. simpl. intros ? ->. done.
    + eapply Forall_impl; [by apply IHr|]. simpl. intros ? ->. by rewrite Hbh.
Qed.

Lemma balanced_uniform s : balanced s -> black_uniform s.
Proof.
  induction s as [|i col l IHl k r IHr]; [done|].
  intros Hb. pose proof (black_counts_balanced _ Hb) as Hc.
  destruct Hb as (Hbh & Hl & Hr). split_and!; eauto.
Qed.

(** *** The new leaf stays under its parent *)

Lemma has_left_leaf_here p n col col' k k' (r : shape Key) :
  has_left_leaf p n (Nd p col (Nd n col' Lf k Lf) k' r).
Proof. simpl. left. split; [done|]. by eexists _, _. Qed.

Lemma has_right_leaf_here p n col col' k k' (l : shape Key) :
  has_right_leaf p n (Nd p col l k' (Nd n col' Lf k Lf)).
Proof. simpl. left. split; [done|]. by eexists _, _. Qed.

Lemma has_left_leaf_paint p n col s :
  has_left_leaf p n s -> has_left_leaf p n (paint col s).
Proof. by destruct s. Qed.

Lemma has_right_leaf_paint p n col s :
  has_right_leaf p n s -> has_right_leaf p n (paint col s).
Proof. by destruct s. Qed.

Lemma has_left_leaf_plug p n c : forall s,
  has_left_leaf p n s -> has_left_leaf p n (plug c s).
Proof.
  induction c as [|f c IH]; intros s Hs; [done|]. simpl. apply IH.
  destruct f; simpl; auto.
Qed.

Lemma has_right_leaf_plug p n c : forall s,
  has_right_leaf p n s -> has_right_leaf p n (plug c s).
Proof.
  induction c as [|f c IH]; intros s Hs; [done|]. simpl. apply IH.
  destruct f; simpl; auto.
Qed.

Lemma has_left_leaf_fix_up p n c : forall zi zc zl zk zr,
  has_left_leaf p n zl \/ has_left_leaf p n zr ->
  has_left_leaf p n (fix_up c (Nd zi zc zl zk zr)).
Proof.
  induction c as [|f|f1 f2 c IH] using ctx_ind2; intros zi zc zl zk zr Hz.
  - simpl. tauto.
  - destruct f as [? [] ? ?|? [] ? ?]; simpl; tauto.
  - assert (has_left_leaf p n (plug (f1 :: f2 :: c) (Nd zi zc zl zk zr))) as Hplug.
    { apply has_left_leaf_plug. simpl. tauto. }
    destruct f1 as [q [] kq rq|q [] lq kq]; try done;
      destruct f2 as [g cg kg u|g cg u kg]; simpl;
      destruct (is_red_shape u);
      first [ apply IH; simpl; tauto
            | apply has_left_leaf_plug; simpl; tauto ].
Qed.

Lemma has_right_leaf_fix_up p n c : forall zi zc zl zk zr,
  has_right_leaf p n zl \/ has_right_leaf p n zr ->
  has_right_leaf p n (fix_up c (Nd zi zc zl zk zr)).
Proof.
  induction c as [|f|f1 f2 c IH] using ctx_ind2; intros zi zc zl zk zr Hz.
  - simpl. tauto.
  - destruct f as [? [] ? ?|? [] ? ?]; simpl; tauto.
  - assert (has_right_leaf p n (plug (f1 :: f2 :: c) (Nd zi zc zl zk zr))) as Hplug.
    { apply has_right_leaf_plug. simpl. tauto. }
    destruct f1 as [q [] kq rq|q [] lq kq]; try done;
      destruct f2 as [g cg kg u|g cg u kg]; simpl;
      destruct (is_red_shape u);
      first [ apply IH; simpl; tauto
            | apply has_right_leaf_plug; simpl; tauto ].
Qed.

Lemma holds_paint i k col s : holds i k s -> holds i k (paint col s).
Proof. by destruct s. Qed.

Lemma holds_plug i k c : forall s, holds i k s -> holds i k (plug c s).
Proof.
  induction c as [|f c IH]; intros s Hs; [done|]. simpl. apply IH.
  destruct f; simpl; auto.
Qed.

Lemma holds_fix_up i k c : forall zi zc zl zk zr,
  holds i k (Nd zi zc zl zk zr) -> holds i k (fix_up c (Nd zi zc zl zk zr)).
Proof.
  induction c as [|f|f1 f2 c IH] using ctx_ind2; intros zi zc zl zk zr Hz.
  - done.
  - destruct f as [? [] ? ?|? [] ? ?]; simpl in *; tauto.
  - assert (holds i k (plug (f1 :: f2 :: c) (Nd zi zc zl zk zr))) as Hplug
      by (by apply holds_plug).
    destruct f1 as [q [] kq rq|q [] lq kq]; try done;
      destruct f2 as [g cg kg u|g cg u kg]; simpl;
      destruct (is_red_shape u);
      first [ apply IH; simpl in *; tauto
            | apply holds_plug; simpl in *; tauto ].
Qed.

(** A new leaf that comes first in order is still the left child of the
    node that came first before, once the fix-up is over. *)
Lemma first_leaf_fix_up p cp kp rp c n k :
  addrs_before (FL p cp kp rp :: c) = [] ->
  has_left_leaf p n (fix_up (FL p cp kp rp :: c) (Nd n red Lf k Lf)).
Proof.
  intros Hb.
  assert (has_left_leaf p n (plug (FL p cp kp rp :: c) (Nd n red Lf k Lf)))
    as Hplug by (simpl; apply has_left_leaf_plug, has_left_leaf_here).
  destruct cp; [|by destruct c as [|[] ?]].
  destruct c as [|[g cg kg u|g cg u kg] up]; [done| |].
  - simpl. destruct (is_red_shape u).
    + apply has_left_leaf_fix_up. left. apply has_left_leaf_here.
    + apply has_left_leaf_plug. apply has_left_leaf_here.
  - simpl in Hb. by destruct (addrs_before up), (addrs u).
Qed.

Lemma last_leaf_fix_up p cp lp kp c n k :
  addrs_after (FR p cp lp kp :: c) = [] ->
  has_right_leaf p n (fix_up (FR p cp lp kp :: c) (Nd n red Lf k Lf)).
Proof.
  intros Hb.
  assert (has_right_leaf p n (plug (FR p cp lp kp :: c) (Nd n red Lf k Lf)))
    as Hplug by (simpl; apply has_right_leaf_plug, has_right_leaf_here).
  destruct cp; [|by destruct c as [|[] ?]].
  destruct c as [|[g cg kg u|g cg u kg] up]; [done| |].
  - simpl in Hb. done.
  - simpl. destruct (is_red_shape u).
    + apply has_right_leaf_fix_up. right. apply has_right_leaf_here.
    + apply has_right_leaf_plug. apply has_right_leaf_here.
Qed.

End ColorLemmas.

(** ** Order: binary search trees and sorted sequences *)

Section DescentLemmas.
Context {Key : Type} (less : Key -> Key -> bool).
Implicit Types (s l r a b u z : shape Key) (c : list (frame Key)) (k : Key).

#[local] Abbreviation lt := (key_lt less).

Lemma sorted_insert (before after : list Key) k :
  StronglySorted lt (before ++ after) ->
  Forall (fun x => less x k = true) before ->
  Forall (fun x => less k x = true) after ->
  StronglySorted lt (before ++ k :: after).
Proof.
  rewrite !StronglySorted_app, StronglySorted_cons, !Forall_forall.
  intros (Hba & Hb & Ha) Hbk Hka. split_and!; try done.
  intros x1 x2 Hx1 [->|Hx2]%elem_of_cons; [by apply Hbk|by apply Hba].
Qed.

Lemma descend_plug s : forall k c c' s',
  descend less s k c = (c', s') -> plug c' s' = plug c s.
Proof.
  induction s as [|i col l IHl nk r IHr]; intros k c c' s'; simpl.
  - by intros [= <- <-].
  - destruct (less k nk); [by intros ->%IHl|].
    destruct (less nk k); [by intros ->%IHr|]. by intros [= <- <-].
Qed.

(** The direction taken at the last node of the descent. *)
Lemma descend_head s : forall k c c' s' f up,
  descend less s k c = (c', s') -> c' = f :: up ->
  (c = c' \/
   match f with
   | FL _ _ nk _ => less k nk = true
   | FR _ _ _ nk => less k nk = false
   end).
Proof.
  induction s as [|i col l IHl nk r IHr]; intros k c c' s' f up; simpl.
  - intros [= <- <-]. auto.
  - destruct (less k nk) eqn:H1.
    { intros Hd Hc. destruct (IHl _ _ _ _ _ _ Hd Hc) as [<-|?]; [|by right].
      injection Hc as <- <-. by right. }
    destruct (less nk k) eqn:H2.
    { intros Hd Hc. destruct (IHr _ _ _ _ _ _ Hd Hc) as [<-|?]; [|by right].
      injection Hc as <- <-. by right. }
    intros [= <- <-]. auto.
Qed.

End DescentLemmas.

Section OrderLemmas.
Context {Key : Type} (less : Key -> Key -> bool).
Hypothesis less_order : strict_total less.
Implicit Types (s l r a b u z : shape Key) (c : list (frame Key)) (k : Key).

#[local] Abbreviation lt := (key_lt less).

Lemma bst_sorted s : bst less s <-> StronglySorted lt (keys s).
Proof.
  destruct less_order as (less_irrefl & less_trans & less_total).
  induction s as [|i col l IHl k r IHr]; simpl.
  - split; [constructor|done].
  - rewrite StronglySorted_app, StronglySorted_cons, IHl, IHr, !Forall_forall.
    split.
    + intros (Hl & Hr & Hsl & Hsr). split_and!; try done.
      intros x1 x2 Hx1 [->|Hx2]%elem_of_cons; [by apply Hl|].
      eapply less_trans; [by apply Hl|by apply Hr].
    + intros (Hlr & Hsl & Hr & Hsr). split_and!; try done.
      intros x Hx. apply Hlr; [done|]. by left.
Qed.

Lemma sorted_NoDup (ks : list Key) : StronglySorted lt ks -> NoDup ks.
Proof.
  destruct less_order as (less_irrefl & less_trans & less_total).
  induction 1 as [|x ks Hs IH Hx]; constructor; [|done].
  intros Hin. rewrite Forall_forall in Hx. specialize (Hx _ Hin).
  unfold key_lt in Hx. by rewrite less_irrefl in Hx.
Qed.

Lemma descend_found s : forall k c c' i col l nk r,
  descend less s k c = (c', Nd i col l nk r) -> nk = k.
Proof.
  destruct less_order as (less_irrefl & less_trans & less_total).
  induction s as [|j colj lj IHl nj rj IHr]; intros k c c' i col l nk r; simpl.
  - done.
  - destruct (less k nj) eqn:H1; [by apply IHl|].
    destruct (less nj k) eqn:H2; [by apply IHr|].
    intros [= <- <- <- <- <- <-]. by apply less_total.
Qed.

Lemma descend_bounds s : forall k c c' s',
  descend less s k c = (c', s') -> bst less s ->
  Forall (fun x => less x k = true) (keys_before c) ->
  Forall (fun x => less k x = true) (keys_after c) ->
  Forall (fun x => less x k = true) (keys_before c')
  /\ Forall (fun x => less k x = true) (keys_after c').
Proof.
  destruct less_order as (less_irrefl & less_trans & less_total).
  induction s as [|i col l IHl nk r IHr]; intros k c c' s'; simpl.
  - by intros [= <- <-].
  - intros Hd (Hl & Hr & Hbl & Hbr) Hb Ha.
    destruct (less k nk) eqn:H1.
    { eapply IHl; [done..| |]; simpl; [done|].
      constructor; [done|]. apply Forall_app. split; [|done].
      eapply Forall_impl; [done|]. simpl. eauto. }
    destruct (less nk k) eqn:H2.
    { eapply IHr; [done..| |]; simpl; [|done].
      rewrite !Forall_app. split_and!; [done| |by repeat constructor].
      eapply Forall_impl; [done|]. simpl. eauto. }
    by injection Hd as <- <-.
Qed.

Lemma descend_absent s k c' :
  descend less s k [] = (c', Lf) -> bst less s -> k ∉ keys s.
Proof.
  destruct less_order as (less_irrefl & less_trans & less_total).
  intros Hd Hb. destruct (descend_bounds _ _ _ _ _ Hd Hb) as (Hbe & Haf);
    [by constructor..|].
  apply descend_plug in Hd. simpl in Hd. rewrite <-Hd, keys_plug. simpl.
  rewrite !Forall_forall in Hbe, Haf.
  intros [Hin|Hin]%elem_of_app.
  - specialize (Hbe _ Hin). by rewrite less_irrefl in Hbe.
  - specialize (Haf _ Hin). by rewrite less_irrefl in Haf.
Qed.

Lemma descend_present s k c' i col l nk r :
  descend less s k [] = (c', Nd i col l nk r) -> nk = k /\ k ∈ keys s.
Proof.
  destruct less_order as (less_irrefl & less_trans & less_total).
  intros Hd. pose proof (descend_found _ _ _ _ _ _ _ _ _ Hd) as ->.
  split; [done|]. apply descend_plug in Hd. simpl in Hd.
  rewrite <-Hd, keys_plug. simpl. set_solver.
Qed.

End OrderLemmas.

(** ** The descents of [details], on the tree the heap holds *)

Section SearchLemmas.
Context {Key : Type} (less : Key -> Key -> bool).
Implicit Types (t : RB_Tree Key) (s l r a b u z : shape Key)
  (c : list (frame Key)) (k : Key).

Lemma height_le s : height s <= length (addrs s).
Proof.
  induction s as [|i col l IHl k r IHr]; simpl; [done|].
  rewrite length_app. simpl. lia.
Qed.

Lemma ctx_length_le c : length c <= length (addrs_before c ++ addrs_after c).
Proof.
  induction c as [|[i col k r|i col l k] c IH]; simpl; [done| |];
    rewrite !length_app in *; simpl; rewrite ?length_app; simpl; lia.
Qed.

Lemma rep_root_node t par i col l k r :
  rep (nodes_ t) par (Nd i col l k r) ->
  nodes_ t !! i = Some (mk_node k col (root_ptr l) (root_ptr r) par).
Proof. by intros (? & _). Qed.

Lemma find_v2_loop_rep fuel : forall s t par c k c' s',
  rep (nodes_ t) par s -> height s < fuel ->
  descend less s k c = (c', s') ->
  find_v2_loop less fuel t (root_ptr s) (ctx_parent c) k
  = Some (root_ptr s', ctx_parent c').
Proof.
  induction fuel as [|fuel IH]; intros s t par c k c' s' Hrep Hfuel Hd; [lia|].
  destruct s as [|i col l nk r]; simpl in *.
  { by injection Hd as <- <-. }
  destruct Hrep as (Hi & Hl & Hr).
  load Hi. destruct (less k nk).
  { load Hi. eapply (IH l t _ (FL i col nk r :: c)); [done|lia|done]. }
  destruct (less nk k).
  { load Hi. eapply (IH r t _ (FR i col l nk :: c)); [done|lia|done]. }
  by injection Hd as <- <-.
Qed.

Lemma find_loop_rep fuel : forall s t par c k c' s',
  rep (nodes_ t) par s -> height s < fuel ->
  descend less s k c = (c', s') ->
  find_loop less fuel t (root_ptr s) k = Some (root_ptr s').
Proof.
  induction fuel as [|fuel IH]; intros s t par c k c' s' Hrep Hfuel Hd; [lia|].
  destruct s as [|i col l nk r]; simpl in *.
  { by injection Hd as <- <-. }
  destruct Hrep as (Hi & Hl & Hr).
  load Hi. destruct (less k nk).
  { load Hi. eapply (IH l t _ (FL i col nk r :: c)); [done|lia|done]. }
  destruct (less nk k).
  { load Hi. eapply (IH r t _ (FR i col l nk :: c)); [done|lia|done]. }
  by injection Hd as <- <-.
Qed.

Lemma lower_bound_loop_rep fuel : forall s t par k result,
  rep (nodes_ t) par s -> height s < fuel ->
  lower_bound_loop less fuel t (root_ptr s) result k
  = Some (lower_bound_in less s k result).
Proof.
  induction fuel as [|fuel IH]; intros s t par k result Hrep Hfuel; [lia|].
  destruct s as [|i col l nk r]; simpl in *; [done|].
  destruct Hrep as (Hi & Hl & Hr).
  load Hi. destruct (less nk k); load Hi.
  - eapply IH; [done|lia].
  - eapply IH; [done|lia].
Qed.

Lemma upper_bound_loop_rep fuel : forall s t par k result,
  rep (nodes_ t) par s -> height s < fuel ->
  upper_bound_loop less fuel t (root_ptr s) result k
  = Some (upper_bound_in less s k result).
Proof.
  induction fuel as [|fuel IH]; intros s t par k result Hrep Hfuel; [lia|].
  destruct s as [|i col l nk r]; simpl in *; [done|].
  destruct Hrep as (Hi & Hl & Hr).
  load Hi. destruct (less k nk); load Hi.
  - eapply IH; [done|lia].
  - eapply IH; [done|lia].
Qed.

Lemma tree_rep_fuel t s : tree_rep t s -> height s < S (length (nodes_ t)).
Proof. intros (_ & _ & _ & ->). pose proof (height_le s). lia. Qed.

Lemma tree_rep_root t s : tree_rep t s -> root t = Some (root_ptr s).
Proof. apply (focus_root t []). Qed.

Lemma tree_rep_end_node t s : tree_rep t s -> end_node t = end_addr.
Proof. intros (He & _). unfold end_node. by rewrite He. Qed.

Lemma find_v2_rep t s k c' s' :
  tree_rep t s -> descend less s k [] = (c', s') ->
  find_v2 less t (root_ptr s) k = Some (root_ptr s', ctx_parent c').
Proof.
  intros Ht Hd. unfold find_v2.
  eapply (find_v2_loop_rep _ s t end_addr []); [apply Ht|by eapply tree_rep_fuel|done].
Qed.

End SearchLemmas.

(** ** Insertion, on the tree the heap holds *)

Section InsertLemmas.
Context {Key : Type}.
Implicit Types (t : RB_Tree Key) (s l r a b u z : shape Key)
  (c : list (frame Key)) (k : Key).

Lemma rep_ctx_lt h q c i :
  rep_ctx h q c -> i ∈ addrs_before c ++ addrs_after c -> i < length h.
Proof.
  revert q. induction c as [|[j col k r|j col l k] c IH]; intros q; simpl.
  - intros _ Hi. by apply elem_of_nil in Hi.
  - intros (Hj & Hr & Hc) Hi.
    assert (i = j \/ i ∈ addrs r \/ i ∈ addrs_before c ++ addrs_after c)
      as [->|[?|?]] by set_solver; eauto using lookup_lt_Some, rep_lt.
  - intros (Hj & Hr & Hc) Hi.
    assert (i = j \/ i ∈ addrs l \/ i ∈ addrs_before c ++ addrs_after c)
      as [->|[?|?]] by set_solver; eauto using lookup_lt_Some, rep_lt.
Qed.

(** Hanging a fresh red leaf below the node where the descent ended. *)
Lemma link_leaf t f up k :
  tree_rep t (plug (f :: up) Lf) ->
  let n := length (nodes_ t) in
  let p := node_addr (frame_addr f) in
  let t1 := with_nodes t (nodes_ t ++ [mk_node k red nullptr nullptr nullptr]) in
  exists t2 t3,
    store_parent t1 (node_addr n) p = Some t2
    /\ load_key t2 p = Some (frame_key f)
    /\ match f with
       | FL _ _ _ _ => store_left t2 p (node_addr n)
       | FR _ _ _ _ => store_right t2 p (node_addr n)
       end = Some t3
    /\ tree_rep t3 (plug (f :: up) (Nd n red Lf k Lf))
    /\ same_caches t t3.
Proof.
  intros Ht n p t1. apply tree_rep_plug in Ht.
  destruct Ht as (He & Hc & _ & Hnd & Hlen).
  setoid_rewrite tree_rep_plug.
  assert (forall i, i ∈ addrs_before (f :: up) ++ addrs_after (f :: up) -> i <> n)
    as Hfresh.
  { intros i Hi. pose proof (rep_ctx_lt _ _ _ _ Hc Hi). unfold n. lia. }
  assert (NoDup (n :: addrs_before (f :: up) ++ addrs_after (f :: up))) as Hnd'.
  { apply NoDup_cons. split; [|done]. intros Hn. by apply (Hfresh n). }
  assert ((nodes_ t ++ [mk_node k red nullptr nullptr nullptr]) !! n
          = Some (mk_node k red nullptr nullptr nullptr)) as Hn
    by (by apply list_lookup_middle).
  assert (length (nodes_ t ++ [mk_node k red nullptr nullptr nullptr]) = S n)
    as Hlen1 by (rewrite length_app; simpl; lia).
  assert (n = length (nodes_ t)) as Hndef by done.
  clear Hfresh. subst p t1. clearbody n.
  destruct f as [pi col pk r|pi col l pk]; simpl in *;
    destruct Hc as (Hp & Hr & Hup);
    assert (pi <> n) as Hpn by nd Hnd';
    (assert ((nodes_ t ++ [mk_node k red nullptr nullptr nullptr]) !! pi
             = nodes_ t !! pi) as Hp1
      by (apply lookup_app_l; eauto using lookup_lt_Some));
    rewrite Hp in Hp1;
    eexists _, _; (split; [by exec|]); exec; (split; [done|]);
    exec; (split; [done|]); (split; [|done]); simpl.
  - split_and!; try done.
    + lookup_simpl. done.
    + do 2 (apply rep_insert; [nd Hnd'|]). by apply rep_app.
    + do 2 (apply rep_ctx_insert; [nd Hnd'..|]). by apply rep_ctx_app.
    + lookup_simpl. done.
    + nd Hnd'.
    + rewrite !length_insert, Hlen1, Hndef, Hlen.
      repeat first [rewrite length_app | progress simpl]. lia.
  - split_and!; try done.
    + lookup_simpl. done.
    + do 2 (apply rep_insert; [nd Hnd'|]). by apply rep_app.
    + do 2 (apply rep_ctx_insert; [nd Hnd'..|]). by apply rep_ctx_app.
    + lookup_simpl. done.
    + nd Hnd'.
    + rewrite !length_insert, Hlen1, Hndef, Hlen.
      repeat first [rewrite length_app | progress simpl]. lia.
Qed.

Lemma rb_insert_fixup_focus t c zi zc zl zk zr :
  tree_rep t (plug c (Nd zi zc zl zk zr)) -> ctx_root_black c ->
  exists t', rb_insert_fixup t (node_addr zi) = Some t'
    /\ tree_rep t' (paint black (fix_up c (Nd zi zc zl zk zr)))
    /\ same_caches t t'.
Proof.
  intros Ht Hblack. unfold rb_insert_fixup.
  assert (length c < S (length (nodes_ t))) as Hfuel.
  { apply tree_rep_plug in Ht as (_ & _ & _ & _ & ->).
    pose proof (ctx_length_le c) as Hle.
    rewrite !length_app in *. lia. }
  destruct (fixup_loop_focus _ _ _ _ _ _ _ _ Ht Hblack Hfuel) as (t1 & -> & Ht1 & Hc1).
  simpl. rewrite (tree_rep_root _ _ Ht1). simpl.
  pose proof (addrs_fix_up c zi zc zl zk zr) as Haddrs.
  destruct (fix_up c (Nd zi zc zl zk zr)) as [|i col l k r] eqn:Hfix.
  { rewrite addrs_plug in Haddrs. simpl in Haddrs.
    by destruct (addrs_before c), (addrs zl). }
  simpl. destruct (store_color_focus _ [] _ _ _ _ _ black Ht1) as (t2 & -> & Ht2 & Hc2).
  eexists. split; [done|]. split; [done|]. eauto using same_caches_trans.
Qed.

Lemma first_ptr_cons s i rest : addrs s = i :: rest -> first_ptr s = node_addr i.
Proof. unfold first_ptr. by intros ->. Qed.

Lemma last_ptr_snoc s i front : addrs s = front ++ [i] -> last_ptr s = node_addr i.
Proof. unfold last_ptr. intros ->. by rewrite last_snoc. Qed.

Lemma rep_first_left h par s i rest :
  rep h par s -> addrs s = i :: rest ->
  exists n, h !! i = Some n /\ left_ n = nullptr.
Proof.
  revert par rest. induction s as [|j col l IHl k r IHr]; intros par rest; [done|].
  simpl. intros (Hj & Hl & Hr) Heq. destruct l as [|li lc ll lk lr].
  - injection Heq as <- <-. eauto.
  - destruct (addrs (Nd li lc ll lk lr)) as [|x xs] eqn:Hx.
    { simpl in Hx. by destruct (addrs ll). }
    injection Heq as -> <-. eapply IHl; done.
Qed.

Lemma rep_last_right h par s i :
  rep h par s -> last (addrs s) = Some i ->
  exists n, h !! i = Some n /\ right_ n = nullptr.
Proof.
  revert par. induction s as [|j col l IHl k r IHr]; intros par; [done|].
  simpl. intros (Hj & Hl & Hr) Heq. destruct r as [|ri rc rl rk rr].
  - simpl in Heq. rewrite last_snoc in Heq. injection Heq as <-. eauto.
  - rewrite last_app, last_cons in Heq.
    destruct (last (addrs (Nd ri rc rl rk rr))) as [x|] eqn:Hx.
    + injection Heq as ->. eapply IHr; done.
    + apply last_None in Hx. simpl in Hx. by destruct (addrs rl).
Qed.

Lemma rep_has_left_leaf h par s p n :
  rep h par s -> has_left_leaf p n s ->
  exists x, h !! p = Some x /\ left_ x = node_addr n.
Proof.
  revert par. induction s as [|j col l IHl k r IHr]; intros par; [done|].
  simpl. intros (Hj & Hl & Hr) [(-> & c' & k' & ->)|[?|?]]; eauto.
Qed.

Lemma rep_has_right_leaf h par s p n :
  rep h par s -> has_right_leaf p n s ->
  exists x, h !! p = Some x /\ right_ x = node_addr n.
Proof.
  revert par. induction s as [|j col l IHl k r IHr]; intros par; [done|].
  simpl. intros (Hj & Hl & Hr) [(-> & c' & k' & ->)|[?|?]]; eauto.
Qed.


Lemma rep_holds h par s i k :
  rep h par s -> holds i k s -> exists x, h !! i = Some x /\ key x = k.
Proof.
  revert par. induction s as [|j col l IHl nk r IHr]; intros par; [done|].
  simpl. intros (Hj & Hl & Hr) [(-> & ->)|[?|?]]; eauto.
Qed.

Lemma leaf_position (c : list (frame Key)) n k :
  c <> [] ->
  let s' := paint black (fix_up c (Nd n red Lf k Lf)) in
  (addrs_before c = [] ->
   exists p rest, addrs_after c = p :: rest /\ has_left_leaf p n s')
  /\ (addrs_after c = [] ->
      exists p front, addrs_before c = front ++ [p] /\ has_right_leaf p n s').
Proof.
  intros Hc s'. destruct c as [|[p cp kp rp|p cp lp kp] up]; [done| |]; split.
  - intros Hb. eexists _, _. split; [done|].
    by apply has_left_leaf_paint, first_leaf_fix_up.
  - done.
  - simpl. intros Hb. by destruct (addrs_before up), (addrs lp).
  - intros Ha. eexists p, (addrs_before up ++ addrs lp). split.
    + simpl. by rewrite <-app_assoc.
    + by apply has_right_leaf_paint, last_leaf_fix_up.
Qed.

(** The cache update of [insert_hint_unique], after the fix-up. *)
Lemma cache_update t s s' (B A : list nat) n :
  tree_rep t s' -> addrs s = B ++ A -> addrs s' = B ++ n :: A ->
  leftmost_ t = first_ptr s -> rightmost_ t = last_ptr s ->
  (B = [] -> exists p rest, A = p :: rest /\ has_left_leaf p n s') ->
  (A = [] -> exists p front, B = front ++ [p] /\ has_right_leaf p n s') ->
  exists ll,
    load_left t (leftmost_ t) = Some ll
    /\ exists t',
      (if bool_decide (node_addr n = ll)
       then Some (with_leftmost t (node_addr n))
       else rr ← load_right t (rightmost_ t);
            Some (if bool_decide (node_addr n = rr)
                  then with_rightmost t (node_addr n) else t)) = Some t'
      /\ nodes_ t' = nodes_ t /\ end_node_ t' = end_node_ t
      /\ size_ t' = size_ t
      /\ leftmost_ t' = first_ptr s' /\ rightmost_ t' = last_ptr s'.
Proof.
  intros (_ & Hrep & _) Hs Hs' Hl Hr HB HA.
  unfold first_ptr, last_ptr in *. rewrite Hs in Hl, Hr. rewrite Hs'.
  destruct B as [|b0 bs].
  - destruct (HB eq_refl) as (p & rest & -> & Hleaf). simpl in *.
    destruct (rep_has_left_leaf _ _ _ _ _ Hrep Hleaf) as (x & Hx & Hxl).
    rewrite Hl. load Hx. rewrite Hxl.
    eexists. split; [done|]. rewrite bool_decide_true by done.
    eexists. split; [done|]. simpl. split_and!; done.
  - destruct (rep_first_left _ _ _ b0 _ Hrep Hs') as (x & Hx & Hxl).
    simpl in Hl. rewrite Hl. load Hx. rewrite Hxl.
    eexists. split; [done|]. rewrite bool_decide_false by done.
    destruct A as [|a0 rest].
    + destruct (HA eq_refl) as (p & front & HBeq & Hleaf).
      rewrite HBeq, app_nil_r, last_snoc in Hr.
      destruct (rep_has_right_leaf _ _ _ _ _ Hrep Hleaf) as (y & Hy & Hyr).
      rewrite Hr. load Hy. rewrite Hyr. rewrite bool_decide_true by done.
      eexists. split; [done|]. simpl. split_and!; try done.
      by rewrite last_cons, last_snoc.
    + assert (last ((b0 :: bs) ++ n :: a0 :: rest)
              = last ((b0 :: bs) ++ a0 :: rest)) as Hlast
        by (by rewrite !last_app_cons, last_cons_cons).
      simpl in Hlast, Hr. rewrite Hlast.
      destruct (last (b0 :: bs ++ a0 :: rest)) as [R|] eqn:HR.
      2:{ apply last_None in HR. done. }
      assert (last (addrs s') = Some R) as HR' by (by rewrite Hs').
      destruct (rep_last_right _ _ _ _ Hrep HR') as (y & Hy & Hyr).
      rewrite Hr. load Hy. rewrite Hyr. rewrite bool_decide_false by done.
      eexists. split; [done|]. simpl. split_and!; done.
Qed.

Lemma tree_rep_same_mem t t' s :
  nodes_ t' = nodes_ t -> end_node_ t' = end_node_ t ->
  tree_rep t s -> tree_rep t' s.
Proof. unfold tree_rep. by intros -> ->. Qed.

End InsertLemmas.

(** ** [insert], on the tree the heap holds *)

Ltac osimpl := cbn [defined and_then mbind option_bind ctx_parent].

Section InsertSpec.
Context {Key : Type} (less : Key -> Key -> bool) (mem : allocator).
Hypothesis less_order : strict_total less.
Implicit Types (t : RB_Tree Key) (s l r a b u z : shape Key)
  (c : list (frame Key)) (k : Key).

Lemma insert_hint_unique_spec t s k c :
  Inv less t s -> s <> Lf -> descend less s k [] = (c, Lf) ->
  mem (length (nodes_ t)) = alloc_ok ->
  exists t' s',
    insert_hint_unique less mem t (ctx_parent c) k
    = Returns (node_addr (length (nodes_ t))) t'
    /\ Inv less t' s'
    /\ keys s' = keys_before c ++ k :: keys_after c
    /\ keys s = keys_before c ++ keys_after c
    /\ length (nodes_ t') = S (length (nodes_ t))
    /\ load_key t' (node_addr (length (nodes_ t))) = Some k.
Proof.
  intros ((Ht & Hbst & Hsize) & (Hrc & Hnrr & Hbal) & (Hlm & Hrm)) Hne Hd Hmem.
  pose proof (descend_plug _ _ _ _ _ _ Hd) as Hs. simpl in Hs. subst s.
  destruct c as [|f up]; [done|].
  unfold insert_hint_unique, insert_node. rewrite Hmem. osimpl.
  destruct (link_leaf t f up k Ht) as (t2 & t3 & -> & Hk & Hst & Ht3 & Hc3). osimpl.
  rewrite Hk. osimpl.
  assert ((if less k (frame_key f)
           then store_left t2 (node_addr (frame_addr f)) (node_addr (length (nodes_ t)))
           else store_right t2 (node_addr (frame_addr f)) (node_addr (length (nodes_ t))))
          = Some t3) as ->.
  { destruct (descend_head _ _ _ _ _ _ _ _ Hd eq_refl) as [?|Hdir]; [done|].
    destruct f; simpl in *; by rewrite Hdir. }
  osimpl. rewrite (tree_rep_root _ _ Ht3). osimpl.
  assert (ctx_root_black (f :: up)) as Hblack by (by eapply ctx_root_black_plug).
  destruct (rb_insert_fixup_focus _ _ _ _ _ _ _ Ht3 Hblack) as (t4 & -> & Ht4 & Hc4).
  osimpl.
  set (n := length (nodes_ t)) in *.
  remember (f :: up) as c eqn:Hceq.
  set (s' := paint black (fix_up c (Nd n red Lf k Lf))) in *.
  assert (addrs s' = addrs_before c ++ n :: addrs_after c) as Hin'.
  { unfold s'. by rewrite addrs_paint, addrs_fix_up, addrs_plug. }
  assert (keys s' = keys_before c ++ k :: keys_after c) as Hk'.
  { unfold s'. by rewrite keys_paint, keys_fix_up, keys_plug. }
  assert (addrs (plug c Lf) = addrs_before c ++ addrs_after c) as Hin
    by (by rewrite addrs_plug).
  assert (keys (plug c Lf) = keys_before c ++ keys_after c) as Hk0
    by (by rewrite keys_plug).
  assert (bst less s') as Hbst'.
  { apply (bst_sorted less less_order). rewrite Hk'.
    destruct (descend_bounds less less_order _ _ _ _ _ Hd Hbst) as (Hb & Ha);
      [by constructor..|].
    apply sorted_insert; [|done..]. rewrite <-Hk0.
    by apply (bst_sorted less less_order). }
  assert (red_black s') as Hrb'.
  { destruct (plug_ok_inv _ _ Hnrr Hbal) as (Hcok & _ & _).
    apply fix_up_red_black; done. }
  assert (length (nodes_ t4) = S n) as Hlen4.
  { destruct Ht4 as (_ & _ & _ & ->). destruct Ht as (_ & _ & _ & Hl).
    rewrite Hin', length_app. simpl. unfold n. rewrite Hl, Hin, length_app. lia. }
  destruct Hc3 as (Hl3 & Hr3 & Hs3). destruct Hc4 as (Hl4 & Hr4 & Hs4).
  rewrite Hl3, Hlm in Hl4. rewrite Hr3, Hrm in Hr4. rewrite Hs3, Hsize in Hs4.
  assert (c <> []) as Hcne by (by subst c).
  destruct (leaf_position c n k Hcne) as (HB & HA). fold s' in HB, HA.
  assert (holds n k s') as Hholds.
  { apply holds_paint, holds_fix_up. simpl. auto. }
  clearbody s'.
  destruct (cache_update t4 _ s' _ _ n Ht4 Hin Hin' Hl4 Hr4 HB HA)
    as (ll & Hll & t5 & Hupd & Hn5 & He5 & Hs5 & Hl5 & Hr5).
  rewrite Hll. osimpl. rewrite Hupd. osimpl. eexists _, s'. split; [done|].
  unfold Inv, structure_ok, caches_ok. split_and!; try done; simpl.
  - by apply (tree_rep_same_mem t4).
  - rewrite Hs5, Hs4, Hin', Hin, !length_app. simpl. lia.
  - by rewrite Hn5.
  - destruct Ht4 as (_ & Hrep4 & _).
    destruct (rep_holds _ _ _ _ _ Hrep4 Hholds) as (x & Hx & Hxk).
    rewrite <-Hn5 in Hx. erewrite load_key_node by (simpl; exact Hx).
    by rewrite Hxk.
Qed.

Lemma tree_rep_Lf t :
  tree_rep t Lf -> nodes_ t = [] /\ end_node_ t = Some (mk_end nullptr).
Proof. intros (He & _ & _ & Hl). split; [by apply nil_length_inv|done]. Qed.

Lemma length_addrs_keys s : length (addrs s) = length (keys s).
Proof.
  induction s as [|i col l IHl k r IHr]; [done|]. simpl.
  rewrite !length_app. simpl. lia.
Qed.

Lemma insert_root_spec t k :
  tree_rep t Lf -> size_ t = 0 -> mem 0 = alloc_ok ->
  exists t', insert_root mem t k = Returns (node_addr 0) t'
    /\ Inv less t' (Nd 0 black Lf k Lf)
    /\ length (nodes_ t') = 1
    /\ load_key t' (node_addr 0) = Some k.
Proof.
  intros (Hn & He)%tree_rep_Lf Hsz Hmem.
  unfold insert_root, insert_node. rewrite Hn. simpl. rewrite Hmem. simpl.
  unfold set_root, root, end_node. simpl. rewrite He. osimpl.
  erewrite store_left_end by (simpl; done). osimpl. simpl.
  eexists. split; [done|]. split; [|done].
  unfold Inv, structure_ok, caches_ok, tree_rep, red_black. simpl.
  rewrite Hsz. split_and!; try done. apply NoDup_singleton.
Qed.

(** Inserting a key that is stored changes nothing: no node is created,
    whatever the allocator would have answered. *)
Lemma insert_present t s k :
  structure_ok less t s -> k ∈ keys s ->
  exists p, insert less mem t k = Returns (p, false) t
    /\ load_key t p = Some k /\ p <> end_ t.
Proof.
  intros (Ht & Hbst & Hsize) Hk.
  destruct (descend less s k []) as [c' s'] eqn:Hd.
  destruct s' as [|i col l nk r].
  { by destruct (descend_absent less less_order _ _ _ Hd Hbst). }
  destruct (descend_present less less_order _ _ _ _ _ _ _ _ Hd) as (-> & _).
  pose proof (descend_plug _ _ _ _ _ _ Hd) as Hs. simpl in Hs. subst s.
  unfold insert, empty. rewrite bool_decide_false.
  2:{ rewrite Hsize, addrs_plug.
      repeat first [rewrite length_app | progress simpl]. lia. }
  rewrite (tree_rep_root _ _ Ht). osimpl.
  rewrite (find_v2_rep less _ _ _ _ _ Ht Hd). osimpl. simpl.
  eexists. split; [done|]. split.
  - pose proof (focus_node _ _ _ _ _ _ _ Ht) as Hi. by load Hi.
  - unfold end_. by rewrite (tree_rep_end_node _ _ Ht).
Qed.

Lemma insert_absent t s k :
  Inv less t s -> k ∉ keys s -> mem (length (nodes_ t)) = alloc_ok ->
  exists t' s' before after,
    insert less mem t k = Returns (node_addr (length (nodes_ t)), true) t'
    /\ Inv less t' s'
    /\ keys s = before ++ after /\ keys s' = before ++ k :: after
    /\ length (nodes_ t') = S (length (nodes_ t))
    /\ load_key t' (node_addr (length (nodes_ t))) = Some k.
Proof.
  intros HInv Hk Hmem. pose proof HInv as ((Ht & Hbst & Hsize) & _ & _).
  destruct (descend less s k []) as [c' s'] eqn:Hd.
  destruct s' as [|i col l nk r].
  2:{ by destruct (descend_present less less_order _ _ _ _ _ _ _ _ Hd). }
  unfold insert, empty. destruct s as [|si sc sl sk sr].
  - simpl in Hsize. rewrite bool_decide_true by done.
    destruct (tree_rep_Lf _ Ht) as (Hn & _). rewrite Hn in Hmem |- *.
    destruct (insert_root_spec t k Ht Hsize Hmem) as (t' & -> & HInv' & Hlen & Hkey).
    osimpl. exists t', (Nd 0 black Lf k Lf), [], []. done.
  - rewrite bool_decide_false.
    2:{ rewrite Hsize. simpl. rewrite length_app. simpl. lia. }
    rewrite (tree_rep_root _ _ Ht). osimpl.
    rewrite (find_v2_rep less _ _ _ _ _ Ht Hd). osimpl. simpl.
    destruct (insert_hint_unique_spec t _ k c' HInv)
      as (t' & s' & -> & ? & ? & ? & ? & ?); [done..|].
    osimpl. by exists t', s', (keys_before c'), (keys_after c').
Qed.

End InsertSpec.

(** ** Programs of insertions *)

Section BulkLemmas.
Context {Key : Type} (less : Key -> Key -> bool) (mem : allocator).
Implicit Types (t : RB_Tree Key) (k : Key) (ks : list Key).

(** [insert_unique] is [insert] without its result. *)
Lemma insert_unique_insert t k :
  insert_unique less mem t k
  = and_then (insert less mem t k) (fun _ t' => Returns tt t').
Proof.
  unfold insert_unique, insert. destruct (empty t).
  { by destruct (insert_root mem t k). }
  destruct (root t) as [r|]; [|done]. simpl.
  destruct (find_v2 less t r k) as [[node parent]|]; [|done]. simpl.
  destruct (bool_decide (node = nullptr)); [|done].
  by destruct (insert_hint_unique less mem t parent k).
Qed.

Lemma insert_range_insert_all t ks :
  insert_range less mem t ks = insert_all less mem t ks.
Proof.
  revert t. induction ks as [|k ks IH]; intros t; [done|]. simpl.
  rewrite insert_unique_insert.
  destruct (insert less mem t k) as [[p b] t'| |]; simpl; [apply IH|done..].
Qed.

Lemma insert_all_app t ks1 ks2 :
  insert_all less mem t (ks1 ++ ks2)
  = and_then (insert_all less mem t ks1) (fun _ t' => insert_all less mem t' ks2).
Proof.
  revert t. induction ks1 as [|k ks1 IH]; intros t; [done|]. simpl.
  destruct (insert less mem t k) as [[p b] t'| |]; simpl; [apply IH|done..].
Qed.

Lemma run_ops_insert_all t (ops : list (insert_op Key)) :
  run_ops less mem t ops = insert_all less mem t (program_keys ops).
Proof.
  revert t. induction ops as [|o ops IH]; intros t; [done|].
  unfold program_keys in *. simpl. rewrite insert_all_app.
  assert (run_op less mem t o = insert_all less mem t (op_keys o)) as ->.
  { destruct o as [k|ks|ks]; simpl.
    - by destruct (insert less mem t k) as [[p b] t'| |].
    - apply insert_range_insert_all.
    - apply insert_range_insert_all. }
  destruct (insert_all less mem t (op_keys o)) as [[] t'| |]; simpl; [apply IH|done..].
Qed.

End BulkLemmas.

Section ProgramLemmas.
Context {Key : Type} (less : Key -> Key -> bool).
Hypothesis less_order : strict_total less.
Implicit Types (t : RB_Tree Key) (s : shape Key) (k : Key) (ks : list Key).

Lemma Inv_default : Inv less RB_Tree_default Lf.
Proof.
  unfold Inv, structure_ok, caches_ok, tree_rep, red_black. simpl.
  split_and!; try done. constructor.
Qed.

Lemma key_in_dec s k : bst less s -> k ∈ keys s \/ k ∉ keys s.
Proof.
  intros Hbst. destruct (descend less s k []) as [c' s'] eqn:Hd.
  destruct s' as [|i col l nk r].
  - right. by eapply descend_absent.
  - left. by eapply descend_present.
Qed.

(** One insertion: the tree is again well formed, and holds the key on top
    of those it held. *)
Lemma insert_spec t s k :
  Inv less t s ->
  exists p b t' s',
    insert less plenty t k = Returns (p, b) t'
    /\ Inv less t' s'
    /\ (forall x, x ∈ keys s' <-> x = k \/ x ∈ keys s)
    /\ load_key t' p = Some k
    /\ (b = false <-> k ∈ keys s)
    /\ (b = false -> t' = t).
Proof.
  intros HInv. pose proof HInv as (Hstr & _ & _).
  destruct (key_in_dec s k) as [Hin|Hnin]; [apply Hstr|..].
  - destruct (insert_present less plenty less_order t s k Hstr Hin)
      as (p & -> & Hk & _).
    exists p, false, t, s. split_and!; try done. set_solver.
  - destruct (insert_absent less plenty less_order t s k HInv Hnin eq_refl)
      as (t' & s' & before & after & -> & HInv' & Hks & Hks' & Hlen & Hkey).
    eexists _, true, t', s'. split_and!; try done.
    intros x. rewrite Hks, Hks'. set_solver.
Qed.


Lemma insert_all_spec ks : forall t s,
  Inv less t s ->
  exists t' s',
    insert_all less plenty t ks = Returns tt t'
    /\ Inv less t' s'
    /\ (forall x, x ∈ keys s' <-> x ∈ ks \/ x ∈ keys s).
Proof.
  induction ks as [|k ks IH]; intros t s HInv.
  - exists t, s. split_and!; try done. set_solver.
  - destruct (insert_spec t s k HInv) as (p & b & t1 & s1 & Hins & HInv1 & Hk1 & _).
    destruct (IH t1 s1 HInv1) as (t' & s' & Hall & HInv' & Hk').
    exists t', s'. simpl. rewrite Hins. split_and!; try done.
    intros x. rewrite Hk', Hk1. set_solver.
Qed.

Lemma same_key_eq (a b : Key) : same_key less a b = true <-> a = b.
Proof.
  destruct less_order as (less_irrefl & less_trans & less_total).
  unfold same_key. split.
  - intros (H1 & H2)%andb_true_iff.
    apply less_total; by apply negb_true_iff.
  - intros ->. by rewrite less_irrefl.
Qed.

Lemma existsb_same_key k ks : existsb (same_key less k) ks = true <-> k ∈ ks.
Proof.
  rewrite existsb_exists. split.
  - intros (x & Hx & ->%same_key_eq). by apply list_elem_of_In.
  - intros Hk. exists k. split; [by apply list_elem_of_In|by apply same_key_eq].
Qed.

Lemma distinct_elem_of ks x : x ∈ distinct less ks <-> x ∈ ks.
Proof.
  induction ks as [|k ks IH]; [done|]. simpl.
  destruct (existsb (same_key less k) ks) eqn:Hex.
  - apply existsb_same_key in Hex. rewrite IH. set_solver.
  - rewrite !elem_of_cons, IH. done.
Qed.

Lemma distinct_NoDup ks : NoDup (distinct less ks).
Proof.
  induction ks as [|k ks IH]; [constructor|]. simpl.
  destruct (existsb (same_key less k) ks) eqn:Hex; [done|].
  constructor; [|done]. rewrite distinct_elem_of.
  intros Hk%existsb_same_key. congruence.
Qed.

(** The keys a well-formed tree holds are its size in number. *)
Lemma size_distinct t s ks :
  Inv less t s -> (forall x, x ∈ keys s <-> x ∈ ks) ->
  size t = length (distinct less ks).
Proof.
  intros ((Ht & Hbst & Hsize) & _) Hks. unfold size.
  rewrite Hsize, length_addrs_keys. apply Permutation_length.
  apply NoDup_Permutation.
  - apply (sorted_NoDup less less_order). by apply (bst_sorted less less_order).
  - apply distinct_NoDup.
  - intros x. by rewrite distinct_elem_of.
Qed.

End ProgramLemmas.

(** ** The iterator, on the tree the heap holds *)

Section IteratorLemmas.
Context {Key : Type}.
Implicit Types (t : RB_Tree Key) (s l r : shape Key) (c : list (frame Key)).

Lemma length_before_keys c : length (keys_before c) = length (addrs_before c).
Proof.
  induction c as [|[i col k r|i col l k] c IH]; simpl; [done..|].
  rewrite !length_app, IH, length_addrs_keys. done.
Qed.

Lemma descend_left_rep fuel : forall t par i col l k r,
  rep (nodes_ t) par (Nd i col l k r) -> height (Nd i col l k r) < S fuel ->
  exists a rest, addrs (Nd i col l k r) = a :: rest
    /\ descend_left (S fuel) t (node_addr i) = Some (node_addr a).
Proof.
  induction fuel as [|fuel IH]; intros t par i col l k r (Hi & Hl & Hr) Hfuel.
  { simpl in Hfuel. lia. }
  simpl descend_left. load Hi. destruct l as [|li lc ll lk lr].
  - simpl. eauto.
  - rewrite bool_decide_false by done.
    destruct (IH t _ _ _ _ _ _ Hl) as (a & rest & Ha & Hd).
    { simpl in *. lia. }
    exists a, (rest ++ i :: addrs r). split; [|done].
    change (addrs (Nd i col (Nd li lc ll lk lr) k r))
      with (addrs (Nd li lc ll lk lr) ++ i :: addrs r).
    by rewrite Ha.
Qed.

Lemma climb_rep fuel : forall t c i col l k r,
  tree_rep t (plug c (Nd i col l k r)) -> length c < fuel ->
  climb fuel t (node_addr i)
  = Some (match addrs_after c with [] => end_addr | a :: _ => node_addr a end).
Proof.
  induction fuel as [|fuel IH]; intros t c i col l k r Ht Hfuel; [lia|].
  pose proof (focus_node _ _ _ _ _ _ _ Ht) as Hi.
  pose proof (focus_nodup _ _ _ Ht) as Hnd.
  simpl climb. unfold is_left_child. load Hi.
  destruct c as [|[j cj kj rj|j cj lj kj] up]; simpl in *.
  - destruct Ht as (He & _). erewrite load_left_end by done. simpl.
    by rewrite bool_decide_true.
  - pose proof (focus_node _ up _ _ _ _ _ Ht) as Hj. load Hj.
    by rewrite bool_decide_true.
  - pose proof (focus_node _ up _ _ _ _ _ Ht) as Hj. load Hj.
    rewrite bool_decide_false by (apply root_ptr_neq; nd Hnd).
    apply (IH t up j cj lj kj _ Ht). lia.
Qed.

#[local] Arguments climb : simpl never.
#[local] Arguments descend_left : simpl never.

Lemma increment_rep t c i col l k r :
  tree_rep t (plug c (Nd i col l k r)) ->
  increment t (node_addr i)
  = Some (match addrs r ++ addrs_after c with
          | [] => end_addr
          | a :: _ => node_addr a
          end).
Proof.
  intros Ht. pose proof (focus_node _ _ _ _ _ _ _ Ht) as Hi.
  unfold increment. load Hi. destruct r as [|ri rc rl rk rr].
  - simpl. apply (climb_rep _ _ _ _ _ _ _ _ Ht).
    apply tree_rep_plug in Ht as (_ & _ & _ & _ & ->).
    pose proof (ctx_length_le c). rewrite !length_app in *. lia.
  - rewrite bool_decide_false by done. cbn [root_ptr].
    assert (rep (nodes_ t) (node_addr i) (Nd ri rc rl rk rr)) as Hr.
    { apply tree_rep_plug in Ht as (_ & _ & (_ & _ & ?) & _). done. }
    destruct (descend_left_rep (length (nodes_ t)) t _ _ _ _ _ _ Hr)
      as (a & rest & Ha & ->).
    { apply tree_rep_plug in Ht as (_ & _ & _ & _ & ->).
      pose proof (height_le (Nd ri rc rl rk rr)) as Hh.
      remember (Nd ri rc rl rk rr) as R. clear HeqR.
      repeat first [rewrite length_app | progress simpl]. lia. }
    by rewrite Ha.
Qed.

(** Every node of a tree can be brought under focus. *)
Lemma focus_at s : forall c0 j i,
  addrs s !! j = Some i ->
  exists c col l k r,
    plug c0 s = plug c (Nd i col l k r)
    /\ length (addrs_before c ++ addrs l) = length (addrs_before c0) + j.
Proof.
  induction s as [|i0 col l IHl k r IHr]; intros c0 j i; [done|]. simpl.
  intros Hj. destruct (decide (j < length (addrs l))) as [Hlt|Hge].
  - rewrite lookup_app_l in Hj by done.
    destruct (IHl (FL i0 col k r :: c0) _ _ Hj) as (c & ? & ? & ? & ? & Heq & Hlen).
    eauto 10.
  - rewrite lookup_app_r in Hj by lia.
    destruct (j - length (addrs l)) as [|j'] eqn:Hj'.
    + injection Hj as <-. exists c0, col, l, k, r. split; [done|].
      rewrite length_app. lia.
    + simpl in Hj.
      destruct (IHr (FR i0 col l k :: c0) _ _ Hj) as (c & ? & ? & ? & ? & Heq & Hlen).
      eexists c, _, _, _, _. split; [done|]. rewrite Hlen. simpl.
      rewrite !length_app. simpl. lia.
Qed.


#[local] Arguments increment : simpl never.

Lemma walk_rep t s : tree_rep t s -> forall fuel j,
  length (addrs s) - j < fuel -> j <= length (addrs s) ->
  walk fuel t
    (match addrs s !! j with Some i => node_addr i | None => end_addr end)
    end_addr
  = Some (drop j (keys s)).
Proof.
  intros Ht. induction fuel as [|fuel IH]; intros j Hfuel Hj; [lia|].
  destruct (addrs s !! j) as [i|] eqn:Hi.
  - destruct (focus_at s [] j i Hi) as (c & col & l & k & r & Hs & Hlen).
    simpl in Hs, Hlen. subst s.
    pose proof (focus_node _ _ _ _ _ _ _ Ht) as Hn.
    simpl walk. load Hn.
    rewrite (increment_rep _ _ _ _ _ _ _ Ht). simpl.
    assert (addrs (plug c (Nd i col l k r))
            = (addrs_before c ++ addrs l) ++ i :: (addrs r ++ addrs_after c))
      as Haddrs by (rewrite addrs_plug; simpl; by rewrite <-!app_assoc).
    assert (keys (plug c (Nd i col l k r))
            = (keys_before c ++ keys l) ++ k :: (keys r ++ keys_after c))
      as Hkeys by (rewrite keys_plug; simpl; by rewrite <-!app_assoc).
    assert (length (keys_before c ++ keys l) = j) as Hlenk.
    { rewrite length_app, length_before_keys, <-length_addrs_keys, <-length_app.
      done. }
    assert (addrs (plug c (Nd i col l k r)) !! S j
            = (addrs r ++ addrs_after c) !! 0) as HS.
    { rewrite Haddrs, lookup_app_r by lia. rewrite Hlen.
      by replace (S j - j) with 1 by lia. }
    specialize (IH (S j)). rewrite HS in IH.
    assert (match addrs r ++ addrs_after c with
            | [] => end_addr
            | a :: _ => node_addr a
            end
            = match (addrs r ++ addrs_after c) !! 0 with
              | Some i => node_addr i
              | None => end_addr
              end) as -> by (by destruct (addrs r ++ addrs_after c)).
    apply lookup_lt_Some in Hi.
    rewrite IH by lia.
    simpl. f_equal. symmetry. apply drop_S.
    rewrite Hkeys. by apply list_lookup_middle.
  - apply lookup_ge_None in Hi. simpl.
    rewrite drop_ge; [done|]. rewrite <-length_addrs_keys. lia.
Qed.

Lemma traverse_rep t s :
  tree_rep t s -> leftmost_ t = first_ptr s -> traverse t = Some (keys s).
Proof.
  intros Ht Hl. unfold traverse, begin, end_.
  rewrite (tree_rep_end_node _ _ Ht), Hl.
  pose proof (walk_rep t s Ht (S (length (nodes_ t))) 0) as Hw.
  rewrite drop_0 in Hw. rewrite <-Hw.
  - unfold first_ptr. by destruct (addrs s).
  - destruct Ht as (_ & _ & _ & ->). lia.
  - lia.
Qed.

End IteratorLemmas.

(** ** Bound queries *)

Section BoundLemmas.
Context {Key : Type} (less : Key -> Key -> bool).
Hypothesis less_order : strict_total less.
Implicit Types (t : RB_Tree Key) (s l r : shape Key) (c : list (frame Key))
  (k : Key) (res : node_ptr).

Lemma less_asym (a b : Key) : less a b = true -> less b a = false.
Proof.
  destruct less_order as (less_irrefl & less_trans & less_total).
  intros Hab. destruct (less b a) eqn:Hba; [|done].
  by rewrite <-(less_irrefl a), (less_trans a b a).
Qed.

Lemma holds_keys i k s : holds i k s -> k ∈ keys s.
Proof.
  induction s as [|j col l IHl nk r IHr]; [done|]. simpl.
  intros [(_ & ->)|[?|?]]; set_solver.
Qed.

Lemma holds_addrs i k s : holds i k s -> i ∈ addrs s.
Proof.
  induction s as [|j col l IHl nk r IHr]; [done|]. simpl.
  intros [(-> & _)|[?|?]]; set_solver.
Qed.

(** [lower_bound]: no stored key is at least [k] and the candidate is
    unchanged, or the candidate is the node of the least such key. *)
Lemma lower_bound_in_spec s : forall k res,
  bst less s ->
  (lower_bound_in less s k res = res
   /\ Forall (fun x => less x k = true) (keys s))
  \/ (exists i ki, lower_bound_in less s k res = node_addr i
        /\ holds i ki s /\ less ki k = false
        /\ Forall (fun x => less x k = false -> less x ki = false) (keys s)).
Proof.
  destruct less_order as (less_irrefl & less_trans & less_total).
  induction s as [|i0 col l IHl nk r IHr]; intros k res; simpl.
  { intros _. left. split; [done|constructor]. }
  intros (Hl & Hr & Hbl & Hbr). rewrite !Forall_forall in Hl, Hr.
  destruct (less nk k) eqn:Hnk.
  - destruct (IHr k res Hbr) as [(-> & Hall)|(i & ki & -> & Hh & Hki & Hmin)].
    + left. split; [done|]. rewrite Forall_app, Forall_cons, !Forall_forall.
      split_and!; [|done|by apply Forall_forall].
      intros x Hx. eauto.
    + right. exists i, ki. split_and!; try done; [by auto|].
      rewrite Forall_app, Forall_cons, !Forall_forall.
      rewrite Forall_forall in Hmin.
      split_and!; [|congruence|done].
      intros x Hx Hxk. rewrite (less_trans x nk k) in Hxk; [done|by auto|done].
  - destruct (IHl k (node_addr i0) Hbl)
      as [(-> & Hall)|(i & ki & -> & Hh & Hki & Hmin)].
    + right. exists i0, nk. split_and!; try done; [by auto|].
      rewrite Forall_forall in Hall.
      rewrite Forall_app, Forall_cons, !Forall_forall.
      split_and!.
      * intros x Hx Hxk. rewrite Hall in Hxk; done.
      * done.
      * intros x Hx _. apply less_asym. by apply Hr.
    + right. exists i, ki. split_and!; try done; [by auto|].
      rewrite Forall_forall in Hmin.
      rewrite Forall_app, Forall_cons, !Forall_forall.
      pose proof (Hl _ (holds_keys _ _ _ Hh)) as Hkin.
      split_and!; [done| |].
      * intros _. by apply less_asym.
      * intros x Hx _. apply less_asym. eapply less_trans; [done|]. by apply Hr.
Qed.

Lemma upper_bound_in_spec s : forall k res,
  bst less s ->
  (upper_bound_in less s k res = res
   /\ Forall (fun x => less k x = false) (keys s))
  \/ (exists i ki, upper_bound_in less s k res = node_addr i
        /\ holds i ki s /\ less k ki = true
        /\ Forall (fun x => less k x = true -> less x ki = false) (keys s)).
Proof.
  destruct less_order as (less_irrefl & less_trans & less_total).
  induction s as [|i0 col l IHl nk r IHr]; intros k res; simpl.
  { intros _. left. split; [done|constructor]. }
  intros (Hl & Hr & Hbl & Hbr). rewrite !Forall_forall in Hl, Hr.
  destruct (less k nk) eqn:Hnk.
  - destruct (IHl k (node_addr i0) Hbl)
      as [(-> & Hall)|(i & ki & -> & Hh & Hki & Hmin)].
    + right. exists i0, nk. split_and!; try done; [by auto|].
      rewrite Forall_forall in Hall.
      rewrite Forall_app, Forall_cons, !Forall_forall.
      split_and!.
      * intros x Hx Hxk. rewrite Hall in Hxk; done.
      * done.
      * intros x Hx _. apply less_asym. by apply Hr.
    + right. exists i, ki. split_and!; try done; [by auto|].
      rewrite Forall_forall in Hmin.
      rewrite Forall_app, Forall_cons, !Forall_forall.
      pose proof (Hl _ (holds_keys _ _ _ Hh)) as Hkin.
      split_and!; [done| |].
      * intros _. by apply less_asym.
      * intros x Hx _. apply less_asym. eapply less_trans; [done|]. by apply Hr.
  - destruct (IHr k res Hbr) as [(-> & Hall)|(i & ki & -> & Hh & Hki & Hmin)].
    + left. split; [done|]. rewrite Forall_app, Forall_cons, !Forall_forall.
      split_and!; [|done|by apply Forall_forall].
      intros x Hx. destruct (less k x) eqn:Hkx; [|done].
      by rewrite (less_trans k x nk) in Hnk by auto.
    + right. exists i, ki. split_and!; try done; [by auto|].
      rewrite Forall_app, Forall_cons, !Forall_forall.
      rewrite Forall_forall in Hmin.
      split_and!; [|congruence|done].
      intros x Hx Hxk. by rewrite (less_trans k x nk) in Hnk by auto.
Qed.


Lemma lower_bound_in_all_less l k res :
  Forall (fun x => less x k = true) (keys l) -> lower_bound_in less l k res = res.
Proof.
  revert res. induction l as [|i col l IHl nk r IHr]; intros res; [done|]. simpl.
  rewrite Forall_app, Forall_cons. intros (_ & -> & Hr). by apply IHr.
Qed.

Lemma upper_bound_in_all_greater r k res :
  Forall (fun x => less k x = true) (keys r) ->
  upper_bound_in less r k res
  = match addrs r with [] => res | a :: _ => node_addr a end.
Proof.
  revert res. induction r as [|i col l IHl nk r IHr]; intros res; [done|]. simpl.
  rewrite Forall_app, Forall_cons. intros (Hl & -> & _).
  rewrite IHl by done. by destruct (addrs l).
Qed.

(** For a key that is stored, the lower bound is its node. *)
Lemma lower_bound_in_found s : forall k c0 c i col l nk r res,
  bst less s -> descend less s k c0 = (c, Nd i col l nk r) ->
  lower_bound_in less s k res = node_addr i.
Proof.
  induction s as [|i0 col0 l0 IHl nk0 r0 IHr]; intros k c0 c i col l nk r res;
    [done|]. simpl.
  intros (Hl & Hr & Hbl & Hbr) Hd. destruct (less k nk0) eqn:Hk.
  { rewrite (less_asym _ _ Hk). by eapply IHl. }
  destruct (less nk0 k) eqn:Hk'; [by eapply IHr|].
  assert (k = nk0) as <- by (by apply less_order).
  injection Hd as <- <- <- <- <- <-.
  by apply lower_bound_in_all_less.
Qed.

(** For a key that is stored, the upper bound is the node that follows its
    node in order. *)
Lemma upper_bound_in_found s : forall k c0 c i col l nk r d,
  bst less s -> descend less s k c0 = (c, Nd i col l nk r) ->
  upper_bound_in less s k
    (match addrs_after c0 with [] => d | a :: _ => node_addr a end)
  = match addrs r ++ addrs_after c with [] => d | a :: _ => node_addr a end.
Proof.
  induction s as [|i0 col0 l0 IHl nk0 r0 IHr]; intros k c0 c i col l nk r d;
    [done|]. simpl.
  intros (Hl & Hr & Hbl & Hbr) Hd. destruct (less k nk0) eqn:Hk.
  { by rewrite <-(IHl _ _ _ _ _ _ _ _ d Hbl Hd). }
  destruct (less nk0 k) eqn:Hk'.
  { by rewrite <-(IHr _ _ _ _ _ _ _ _ d Hbr Hd). }
  assert (k = nk0) as <- by (by apply less_order).
  injection Hd as <- <- <- <- <- <-.
  rewrite upper_bound_in_all_greater by done.
  by destruct (addrs r0).
Qed.

Lemma find_rep t s k c s' :
  tree_rep t s -> descend less s k [] = (c, s') ->
  find less t k = Some (or_end t (root_ptr s')).
Proof.
  intros Ht Hd. unfold find, find_in. rewrite (tree_rep_root _ _ Ht). cbn [mbind option_bind].
  erewrite (find_loop_rep less _ s t end_addr []);
    [done|apply Ht|by eapply tree_rep_fuel|done].
Qed.

Lemma lower_bound_rep t s k :
  tree_rep t s ->
  lower_bound less t k = Some (or_end t (lower_bound_in less s k nullptr)).
Proof.
  intros Ht. unfold lower_bound, details_lower_bound.
  rewrite (tree_rep_root _ _ Ht). cbn [mbind option_bind].
  erewrite (lower_bound_loop_rep less _ s t end_addr);
    [done|apply Ht|by eapply tree_rep_fuel].
Qed.

Lemma upper_bound_rep t s k :
  tree_rep t s ->
  upper_bound less t k = Some (or_end t (upper_bound_in less s k nullptr)).
Proof.
  intros Ht. unfold upper_bound, details_upper_bound.
  rewrite (tree_rep_root _ _ Ht). cbn [mbind option_bind].
  erewrite (upper_bound_loop_rep less _ s t end_addr);
    [done|apply Ht|by eapply tree_rep_fuel].
Qed.

Lemma lower_bound_spec t s k :
  structure_ok less t s ->
  exists it, lower_bound less t k = Some it
    /\ ((it = end_ t /\ Forall (fun x => less x k = true) (keys s))
        \/ (exists ki, load_key t it = Some ki /\ ki ∈ keys s
              /\ less ki k = false
              /\ Forall (fun x => less x k = false -> less x ki = false) (keys s))).
Proof.
  intros (Ht & Hbst & _). rewrite (lower_bound_rep _ _ _ Ht).
  eexists. split; [done|].
  destruct (lower_bound_in_spec s k nullptr Hbst)
    as [(-> & Hall)|(i & ki & -> & Hh & Hki & Hmin)].
  - left. done.
  - right. exists ki. destruct Ht as (_ & Hrep & _).
    destruct (rep_holds _ _ _ _ _ Hrep Hh) as (x & Hx & <-).
    split_and!; try done.
    + unfold or_end. simpl. by load Hx.
    + by eapply holds_keys.
Qed.

Lemma upper_bound_spec t s k :
  structure_ok less t s ->
  exists it, upper_bound less t k = Some it
    /\ ((it = end_ t /\ Forall (fun x => less k x = false) (keys s))
        \/ (exists ki, load_key t it = Some ki /\ ki ∈ keys s
              /\ less k ki = true
              /\ Forall (fun x => less k x = true -> less x ki = false) (keys s))).
Proof.
  intros (Ht & Hbst & _). rewrite (upper_bound_rep _ _ _ Ht).
  eexists. split; [done|].
  destruct (upper_bound_in_spec s k nullptr Hbst)
    as [(-> & Hall)|(i & ki & -> & Hh & Hki & Hmin)].
  - left. done.
  - right. exists ki. destruct Ht as (_ & Hrep & _).
    destruct (rep_holds _ _ _ _ _ Hrep Hh) as (x & Hx & <-).
    split_and!; try done.
    + unfold or_end. simpl. by load Hx.
    + by eapply holds_keys.
Qed.

(** For a stored key: [find] and [lower_bound] give its node, and
    [upper_bound] gives what [operator++] gives from there. *)
Lemma bounds_present t s k :
  structure_ok less t s -> k ∈ keys s ->
  exists it, find less t k = Some it
    /\ it <> end_ t /\ load_key t it = Some k
    /\ lower_bound less t k = Some it
    /\ upper_bound less t k = increment t it.
Proof.
  intros (Ht & Hbst & _) Hk.
  destruct (descend less s k []) as [c s'] eqn:Hd.
  destruct s' as [|i col l nk r].
  { by destruct (descend_absent less less_order _ _ _ Hd Hbst). }
  destruct (descend_present less less_order _ _ _ _ _ _ _ _ Hd) as (-> & _).
  pose proof (descend_plug _ _ _ _ _ _ Hd) as Hs. simpl in Hs.
  rewrite (find_rep _ _ _ _ _ Ht Hd), (lower_bound_rep _ _ _ Ht),
    (upper_bound_rep _ _ _ Ht).
  rewrite (lower_bound_in_found _ _ _ _ _ _ _ _ _ nullptr Hbst Hd).
  pose proof (upper_bound_in_found _ _ _ _ _ _ _ _ _ nullptr Hbst Hd) as Hub.
  simpl in Hub. rewrite Hub. subst s.
  pose proof (focus_node _ _ _ _ _ _ _ Ht) as Hn.
  exists (node_addr i). unfold or_end, end_.
  rewrite (tree_rep_end_node _ _ Ht). simpl.
  split_and!; try done.
  - by load Hn.
  - rewrite (increment_rep _ _ _ _ _ _ _ Ht). f_equal.
    by destruct (addrs r ++ addrs_after c).
Qed.

End BoundLemmas.

(** ** The invariants, read on the heap *)

Section HeapInvariants.
Context {Key : Type}.
Implicit Types (t : RB_Tree Key) (s l r : shape Key) (c : list (frame Key)).

(** Every slot of the arena is a node of the tree. *)
Lemma tree_rep_slot t s i :
  tree_rep t s -> i < length (nodes_ t) -> i ∈ addrs s.
Proof.
  intros (_ & Hrep & Hnd & Hlen) Hi.
  assert (addrs s ≡ₚ seq 0 (length (nodes_ t))) as ->.
  { apply submseteq_length_Permutation.
    - apply NoDup_submseteq; [done|]. intros x Hx.
      apply elem_of_seq. pose proof (rep_lt _ _ _ _ Hrep Hx). lia.
    - rewrite length_seq. lia. }
  apply elem_of_seq. lia.
Qed.

Lemma elem_of_addrs_focus s i :
  i ∈ addrs s -> exists c col l k r, s = plug c (Nd i col l k r).
Proof.
  intros (j & Hj)%list_elem_of_lookup.
  destruct (focus_at s [] j i Hj) as (c & col & l & k & r & Hs & _).
  by exists c, col, l, k, r.
Qed.

Lemma no_red_red_plug c : forall s, no_red_red (plug c s) -> no_red_red s.
Proof.
  induction c as [|f c IH]; intros s; [done|]. simpl.
  intros Hs%IH. destruct f; simpl in Hs; tauto.
Qed.

Lemma sentinel_linked_rep t s : tree_rep t s -> sentinel_linked t.
Proof.
  intros Ht. unfold sentinel_linked. exists (root_ptr s).
  pose proof (tree_rep_root _ _ Ht) as Hroot. unfold root in Hroot.
  rewrite (tree_rep_end_node _ _ Ht) in *. split; [done|]. split; [done|].
  destruct s as [|i col l k r]; simpl; [congruence|]. intros _.
  pose proof (focus_node t [] _ _ _ _ _ Ht) as Hi. by load Hi.
Qed.

Lemma no_red_parent_rep t s : tree_rep t s -> no_red_red s -> no_red_parent t.
Proof.
  intros Ht Hnrr i n Hi Hred.
  assert (i ∈ addrs s) as Hin
    by (eapply tree_rep_slot; eauto using lookup_lt_Some).
  destruct (elem_of_addrs_focus _ _ Hin) as (c & col & l & k & r & ->).
  pose proof (focus_node _ _ _ _ _ _ _ Ht) as Hn.
  rewrite Hi in Hn. injection Hn as ->. simpl in *. subst col.
  destruct c as [|f c]; [done|]. simpl in *.
  apply no_red_red_plug in Hnrr.
  destruct f as [p cp kp rp|p cp lp kp]; simpl in *;
    pose proof (focus_node _ _ _ _ _ _ _ Ht) as Hp; load Hp;
    intros [= ->]; destruct Hnrr as (Hc & _); by destruct (Hc eq_refl).
Qed.

End HeapInvariants.

(** * The claims *)

(** [<] on natural numbers is a strict total order. *)
Ltac nat_order :=
  unfold strict_total; split_and!; intros;
  rewrite ?Nat.ltb_lt, ?Nat.ltb_ge in *; lia.

(** [example_tree] holds [example_shape]. *)
Ltac example_structure :=
  unfold structure_ok, tree_rep, example_tree, example_shape; simpl;
  split_and!; try reflexivity; try exact I;
  try (by repeat constructor);
  repeat (apply NoDup_cons_2; [set_solver|]); apply NoDup_nil_2.

(** C1.  From the empty tree, whatever keys are inserted one by one, the
    tree that results holds a shape that is a binary search tree, has a
    black root, has no red node with a red child, and has the same number of
    black nodes on every downward path from a node to an absent child; on
    the heap, no red node has a red parent, the sentinel's left link is the
    root and the root's parent is the sentinel.  (The sequence is arbitrary,
    so this is the state after each insert of a longer program.) *)
Theorem insert_keeps_red_black_invariants {Key : Type}
    (less : Key -> Key -> bool) (ks : list Key) :
  strict_total less ->
  exists t s,
    insert_all less plenty RB_Tree_default ks = Returns tt t
    /\ tree_rep t s
    /\ bst less s
    /\ root_color s = black
    /\ no_red_red s
    /\ black_uniform s
    /\ no_red_parent t
    /\ sentinel_linked t.
Proof.
  intros Hord.
  destruct (insert_all_spec less Hord ks _ _ (Inv_default less))
    as (t & s & Hrun & ((Ht & Hbst & _) & (Hrc & Hnrr & Hbal) & _) & _).
  exists t, s. split_and!; try done.
  - by apply balanced_uniform.
  - by eapply no_red_parent_rep.
  - by eapply sentinel_linked_rep.
Qed.

Lemma insert_keeps_red_black_invariants_witness :
  exists t s,
    insert_all Nat.ltb plenty RB_Tree_default [5; 3; 8; 1; 4; 7; 9; 2; 6]
    = Returns tt t
    /\ tree_rep t s
    /\ bst Nat.ltb s
    /\ root_color s = black
    /\ no_red_red s
    /\ black_uniform s
    /\ no_red_parent t
    /\ sentinel_linked t.
Proof.
  apply (insert_keeps_red_black_invariants Nat.ltb [5; 3; 8; 1; 4; 7; 9; 2; 6]).
  nat_order.
Defined.

(** C2.  From the empty tree, whatever keys are inserted, walking from
    [begin()] to [end()] with [operator++] terminates and yields the stored
    keys: the sequence is strictly ascending for the less-than relation, has
    no key twice, and holds exactly the keys that were inserted. *)
Theorem traversal_is_ascending_and_complete {Key : Type}
    (less : Key -> Key -> bool) (ks : list Key) :
  strict_total less ->
  exists t visited,
    insert_all less plenty RB_Tree_default ks = Returns tt t
    /\ traverse t = Some visited
    /\ StronglySorted (key_lt less) visited
    /\ NoDup visited
    /\ (forall x, x ∈ visited <-> x ∈ ks).
Proof.
  intros Hord.
  destruct (insert_all_spec less Hord ks _ _ (Inv_default less))
    as (t & s & Hrun & ((Ht & Hbst & _) & _ & (Hl & _)) & Hkeys).
  exists t, (keys s). split_and!; try done.
  - by apply traverse_rep.
  - by apply (bst_sorted less Hord).
  - apply (sorted_NoDup less Hord). by apply (bst_sorted less Hord).
  - intros x. rewrite Hkeys. simpl. set_solver.
Qed.

Lemma traversal_is_ascending_and_complete_witness :
  exists t visited,
    insert_all Nat.ltb plenty RB_Tree_default [5; 3; 8; 3; 1; 5] = Returns tt t
    /\ traverse t = Some visited
    /\ StronglySorted (key_lt Nat.ltb) visited
    /\ NoDup visited
    /\ (forall x, x ∈ visited <-> x ∈ [5; 3; 8; 3; 1; 5]).
Proof.
  apply (traversal_is_ascending_and_complete Nat.ltb [5; 3; 8; 3; 1; 5]).
  nat_order.
Defined.

(** C3 (the code departs from it).  Copying the tree that holds the single
    key 1 gives a tree of size 1 whose [begin()] is its [end()]: walking it
    visits nothing, where walking the source visits 1.  The copy
    constructor sets the caches only on the way down to a child, so the
    root never becomes [leftmost_] or [rightmost_]. *)
Lemma copy_of_single_node_tree_iterates_nothing :
  exists cp,
    RB_Tree_copy plenty (tree_of_list [1]) = Returns tt cp
    /\ traverse (tree_of_list [1]) = Some [1]
    /\ traverse cp = Some []
    /\ size cp = 1
    /\ begin cp = end_ cp.
Proof. eexists. split; [reflexivity|]. by vm_compute. Qed.

(** C4, as the code has it by design.  Move assignment exchanges the two
    trees member by member: the destination ends with the arena, sentinel,
    caches and size the source had (all its elements, no node copied), and
    the source ends with those the destination had.  So the source is left
    with size 0, or with [begin() == end()], exactly when the destination
    was so before the assignment. *)
Theorem move_assignment_exchanges_the_trees {Key : Type} (t rhs : RB_Tree Key) :
  move_assign t rhs = (rhs, t)
  /\ nodes_ (fst (move_assign t rhs)) = nodes_ rhs
  /\ end_node_ (fst (move_assign t rhs)) = end_node_ rhs
  /\ leftmost_ (fst (move_assign t rhs)) = leftmost_ rhs
  /\ rightmost_ (fst (move_assign t rhs)) = rightmost_ rhs
  /\ size (fst (move_assign t rhs)) = size rhs
  /\ (size (snd (move_assign t rhs)) = 0 <-> size t = 0)
  /\ (begin (snd (move_assign t rhs)) = end_ (snd (move_assign t rhs))
      <-> begin t = end_ t).
Proof. by destruct t, rhs. Qed.

(** C4 as stated fails: after a move assignment into a tree that holds a
    key, the source is not empty. *)
Lemma move_assign_leaves_source_nonempty :
  size (snd (move_assign (tree_of_list [2]) (tree_of_list [1]))) <> 0
  /\ begin (snd (move_assign (tree_of_list [2]) (tree_of_list [1])))
     <> end_ (snd (move_assign (tree_of_list [2]) (tree_of_list [1]))).
Proof. by vm_compute. Qed.

(** C5.  In a tree that holds a binary search tree, inserting a key that
    is stored returns the node that holds it, with [false], and the state
    after the call is the state before it: the arena, the sentinel, both
    caches and the size are the same, whatever the allocator would have
    done. *)
Theorem insert_existing_key_changes_nothing {Key : Type}
    (less : Key -> Key -> bool) (mem : allocator)
    (t : RB_Tree Key) (s : shape Key) (k : Key) :
  strict_total less -> structure_ok less t s -> k ∈ keys s ->
  exists p,
    insert less mem t k = Returns (p, false) t
    /\ load_key t p = Some k
    /\ p <> end_ t.
Proof. intros Hord. by apply insert_present. Qed.

Lemma insert_existing_key_changes_nothing_witness :
  exists p,
    insert Nat.ltb (exhausted_at 3 new_fails) example_tree 3
    = Returns (p, false) example_tree
    /\ load_key example_tree p = Some 3
    /\ p <> end_ example_tree.
Proof.
  apply (insert_existing_key_changes_nothing Nat.ltb (exhausted_at 3 new_fails)
           example_tree example_shape 3).
  - nat_order.
  - example_structure.
  - simpl. set_solver.
Defined.

(** C6.  In a tree that holds a binary search tree [s]: [lower_bound k]
    is [end()] when every stored key is less than [k], and otherwise a node
    whose key is stored, is not less than [k], and is not greater than any
    stored key that is not less than [k]; [upper_bound k] is [end()] when no
    stored key is greater than [k], and otherwise a node whose key is
    stored, is greater than [k], and is not greater than any stored key
    greater than [k]; and when [k] is stored, [find k] and [lower_bound k]
    are the node that holds [k], and [upper_bound k] is what [operator++]
    gives from that node. *)
Theorem bounds_locate_the_least_keys {Key : Type}
    (less : Key -> Key -> bool) (t : RB_Tree Key) (s : shape Key) (k : Key) :
  strict_total less -> structure_ok less t s ->
  (exists it, lower_bound less t k = Some it
     /\ ((it = end_ t /\ Forall (fun x => less x k = true) (keys s))
         \/ (exists ki, load_key t it = Some ki /\ ki ∈ keys s
               /\ less ki k = false
               /\ Forall (fun x => less x k = false -> less x ki = false)
                    (keys s))))
  /\ (exists it, upper_bound less t k = Some it
        /\ ((it = end_ t /\ Forall (fun x => less k x = false) (keys s))
            \/ (exists ki, load_key t it = Some ki /\ ki ∈ keys s
                  /\ less k ki = true
                  /\ Forall (fun x => less k x = true -> less x ki = false)
                       (keys s))))
  /\ (k ∈ keys s ->
      exists it, find less t k = Some it
        /\ it <> end_ t /\ load_key t it = Some k
        /\ lower_bound less t k = Some it
        /\ upper_bound less t k = increment t it).
Proof.
  intros Hord Hstr. split_and!.
  - by apply lower_bound_spec.
  - by apply upper_bound_spec.
  - by apply bounds_present.
Qed.

Lemma bounds_locate_the_least_keys_witness :
  (exists it, lower_bound Nat.ltb example_tree 2 = Some it
     /\ ((it = end_ example_tree
          /\ Forall (fun x => Nat.ltb x 2 = true) (keys example_shape))
         \/ (exists ki, load_key example_tree it = Some ki
               /\ ki ∈ keys example_shape
               /\ Nat.ltb ki 2 = false
               /\ Forall (fun x => Nat.ltb x 2 = false -> Nat.ltb x ki = false)
                    (keys example_shape))))
  /\ (exists it, upper_bound Nat.ltb example_tree 2 = Some it
        /\ ((it = end_ example_tree
             /\ Forall (fun x => Nat.ltb 2 x = false) (keys example_shape))
            \/ (exists ki, load_key example_tree it = Some ki
                  /\ ki ∈ keys example_shape
                  /\ Nat.ltb 2 ki = true
                  /\ Forall (fun x => Nat.ltb 2 x = true -> Nat.ltb x ki = false)
                       (keys example_shape))))
  /\ (2 ∈ keys example_shape ->
      exists it, find Nat.ltb example_tree 2 = Some it
        /\ it <> end_ example_tree /\ load_key example_tree it = Some 2
        /\ lower_bound Nat.ltb example_tree 2 = Some it
        /\ upper_bound Nat.ltb example_tree 2 = increment example_tree it).
Proof.
  apply (bounds_locate_the_least_keys Nat.ltb example_tree example_shape 2).
  - nat_order.
  - example_structure.
Defined.

(** C7 (the code departs from it).  After copy construction from the tree
    that holds the single key 1, the copy is not empty, yet its leftmost
    cache is the sentinel and its rightmost cache is null; the only node,
    which is the minimum and the maximum, is in neither.  This is the
    defect of C3. *)
Lemma copy_of_single_node_tree_has_no_caches :
  exists cp,
    RB_Tree_copy plenty (tree_of_list [1]) = Returns tt cp
    /\ size cp = 1
    /\ root cp = Some (node_addr 0)
    /\ leftmost_ cp = end_ cp
    /\ rightmost_ cp = nullptr
    /\ leftmost_ (tree_of_list [1]) = node_addr 0
    /\ rightmost_ (tree_of_list [1]) = node_addr 0.
Proof. eexists. split; [reflexivity|]. by vm_compute. Qed.

(** C8.  From the empty tree, after any program of single-key and bulk
    insertions, [size()] is the number of distinct keys the program
    presented, and [empty()] is true exactly when [size()] is 0. *)
Theorem size_counts_distinct_keys {Key : Type}
    (less : Key -> Key -> bool) (ops : list (insert_op Key)) :
  strict_total less ->
  exists t,
    run_ops less plenty RB_Tree_default ops = Returns tt t
    /\ size t = length (distinct less (program_keys ops))
    /\ (empty t = true <-> size t = 0).
Proof.
  intros Hord. rewrite run_ops_insert_all.
  destruct (insert_all_spec less Hord (program_keys ops) _ _ (Inv_default less))
    as (t & s & Hrun & HInv & Hkeys).
  exists t. split_and!; [done| |].
  - apply (size_distinct less Hord t s); [done|].
    intros x. rewrite Hkeys. simpl. set_solver.
  - unfold empty, size. by rewrite bool_decide_eq_true.
Qed.

Lemma size_counts_distinct_keys_witness :
  exists t,
    run_ops Nat.ltb plenty RB_Tree_default
      [op_insert 2; op_insert_range [1; 2; 3]; op_insert 1; op_insert_ilist [3; 4]]
    = Returns tt t
    /\ size t
       = length (distinct Nat.ltb
           (program_keys
              [op_insert 2; op_insert_range [1; 2; 3]; op_insert 1;
               op_insert_ilist [3; 4]]))
    /\ (empty t = true <-> size t = 0).
Proof.
  apply (size_counts_distinct_keys Nat.ltb
           [op_insert 2; op_insert_range [1; 2; 3]; op_insert 1;
            op_insert_ilist [3; 4]]).
  nat_order.
Defined.

(** An exception can only leave [insert] from [insert_node], which has
    touched nothing when it throws: on any heap whatever, the state an
    exception leaves is the state before the call. *)
Lemma defined_throws {Key A B} (o : option A) (f : A -> outcome Key B) t' :
  (forall a, f a <> Throws t') -> defined o f <> Throws t'.
Proof. intros Hf. destruct o; [apply Hf|done]. Qed.

Lemma and_then_throws {Key A B} (m : outcome Key A)
    (f : A -> RB_Tree Key -> outcome Key B) t' :
  m <> Throws t' -> (forall a t, f a t <> Throws t') -> and_then m f <> Throws t'.
Proof.
  intros Hm Hf. destruct m; simpl; [apply Hf| |done]. intros [= ->]. by apply Hm.
Qed.

Lemma insert_node_throws {Key} (mem : allocator) (t t' : RB_Tree Key) k c :
  insert_node mem t k c = Throws t' -> t' = t.
Proof. unfold insert_node. destruct (mem _); by intros [= ->]. Qed.

Lemma insert_throws_unchanged {Key} (less : Key -> Key -> bool) (mem : allocator)
    (t t' : RB_Tree Key) k :
  insert less mem t k = Throws t' -> t' = t.
Proof.
  unfold insert, insert_root, insert_hint_unique.
  destruct (empty t).
  - destruct (insert_node mem t k black) as [n t1| |] eqn:Hn; simpl.
    + intros Hthrows. exfalso. revert Hthrows.
      repeat first [apply defined_throws; intros ?
                   | apply and_then_throws; [|intros ? ?]];
        done.
    + intros [= <-]. by apply insert_node_throws in Hn.
    + done.
  - destruct (root t) as [r|]; [|done]. simpl.
    destruct (find_v2 less t r k) as [[node parent]|]; [|done]. simpl.
    case_bool_decide; [|done].
    destruct (insert_node mem t k red) as [n t1| |] eqn:Hn; simpl.
    + intros Hthrows. exfalso. revert Hthrows.
      repeat first [apply defined_throws; intros ?
                   | apply and_then_throws; [|intros ? ?]];
        done.
    + intros [= <-]. by apply insert_node_throws in Hn.
    + done.
Qed.

(** C9.  In a tree that holds a binary search tree, inserting a key that
    is not stored when the allocation fails (in [new] or in [push_back])
    ends with the exception leaving [insert], and the state it leaves is the
    state before the call: no node has been added to the arena, no link,
    cache or size has changed.  And on any tree and key whatever, when an
    exception leaves [insert] the state is the one before the call. *)
Theorem insert_alloc_failure_leaves_tree {Key : Type}
    (less : Key -> Key -> bool) (mem : allocator)
    (t : RB_Tree Key) (s : shape Key) (k : Key) :
  strict_total less -> structure_ok less t s -> k ∉ keys s ->
  mem (length (nodes_ t)) <> alloc_ok ->
  insert less mem t k = Throws t
  /\ (forall (t0 t' : RB_Tree Key) (k0 : Key),
        insert less mem t0 k0 = Throws t' -> t' = t0).
Proof.
  intros Hord (Ht & Hbst & Hsize) Hk Hmem.
  split; [|intros t0 t' k0; apply insert_throws_unchanged].
  assert (forall c, insert_node mem t k c = Throws t) as Hnode.
  { intros c. unfold insert_node. by destruct (mem (length (nodes_ t))). }
  destruct (descend less s k []) as [c' s'] eqn:Hd.
  destruct s' as [|i col l nk r].
  2:{ by destruct (descend_present less Hord _ _ _ _ _ _ _ _ Hd). }
  unfold insert, empty. destruct s as [|si sc sl sk sr].
  - simpl in Hsize. rewrite bool_decide_true by done.
    unfold insert_root. by rewrite Hnode.
  - rewrite bool_decide_false.
    2:{ rewrite Hsize. simpl. rewrite length_app. simpl. lia. }
    rewrite (tree_rep_root _ _ Ht). cbn [defined].
    rewrite (find_v2_rep less _ _ _ _ _ Ht Hd). cbn [defined root_ptr].
    rewrite bool_decide_true by done.
    unfold insert_hint_unique. by rewrite Hnode.
Qed.

Lemma insert_alloc_failure_leaves_tree_witness :
  insert Nat.ltb (exhausted_at 3 push_back_fails) example_tree 7
  = Throws example_tree
  /\ (forall (t0 t' : RB_Tree nat) (k0 : nat),
        insert Nat.ltb (exhausted_at 3 push_back_fails) t0 k0 = Throws t' ->
        t' = t0).
Proof.
  apply (insert_alloc_failure_leaves_tree Nat.ltb (exhausted_at 3 push_back_fails)
           example_tree example_shape 7).
  - nat_order.
  - example_structure.
  - simpl. set_solver.
  - simpl. discriminate.
Defined.

(** C10.  On every tree and every sequence of keys, with every allocator,
    [insert (first, last)] and [insert (ilist)] end as the single-key
    [insert] called on each key in order does, its results dropped: with
    the same final tree, or the same exception and tree, or both without a
    defined result. *)
Theorem bulk_insert_is_repeated_insert {Key : Type}
    (less : Key -> Key -> bool) (mem : allocator)
    (t : RB_Tree Key) (ks : list Key) :
  insert_range less mem t ks = insert_all less mem t ks
  /\ insert_ilist less mem t ks = insert_all less mem t ks.
Proof. split; apply insert_range_insert_all. Qed.

(** * Further properties of the member functions *)

(** ** Keys and the nodes that hold them *)

Section KeyLemmas.
Context {Key : Type} (less : Key -> Key -> bool).
Hypothesis less_order : strict_total less.
Implicit Types (t : RB_Tree Key) (s l r : shape Key) (k : Key)
  (c : list (frame Key)).

Lemma holds_focus c i col l k r : holds i k (plug c (Nd i col l k r)).
Proof. apply holds_plug. simpl. by left. Qed.

(** A key that can be loaded is the key of a node of the tree. *)
Lemma load_key_holds t s q k :
  tree_rep t s -> load_key t q = Some k ->
  exists i, q = node_addr i /\ holds i k s.
Proof.
  intros Ht Hq. destruct q as [| |i]; [done..|]. exists i. split; [done|].
  unfold load_key in Hq. simpl in Hq.
  destruct (nodes_ t !! i) as [n|] eqn:Hn; [|done]. simpl in Hq.
  assert (i ∈ addrs s) as Hi.
  { apply (tree_rep_slot t); [done|]. by eapply lookup_lt_Some. }
  destruct (elem_of_addrs_focus _ _ Hi) as (c & col & l & k0 & r & ->).
  pose proof (focus_node _ _ _ _ _ _ _ Ht) as Hi'.
  rewrite Hi' in Hn. injection Hn as <-. simpl in Hq. injection Hq as ->.
  apply holds_focus.
Qed.

Lemma holds_unique s i j k :
  NoDup (keys s) -> holds i k s -> holds j k s -> i = j.
Proof.
  induction s as [|a col l IHl nk r IHr]; [done|]. simpl.
  intros Hnd Hi Hj.
  apply NoDup_app in Hnd as (Hl & Hlr & Hr).
  apply NoDup_cons in Hr as (Hk & Hr).
  assert (forall x, holds x k l -> k ∈ keys l) as Hinl by (intros; by eapply holds_keys).
  assert (forall x, holds x k r -> k ∈ keys r) as Hinr by (intros; by eapply holds_keys).
  destruct Hi as [[-> ->]|[Hi|Hi]], Hj as [[-> Hj]|[Hj|Hj]];
    try done; try (subst; set_solver); eauto; set_solver.
Qed.

Lemma key_node_unique t s (p q : node_ptr) k :
  structure_ok less t s ->
  load_key t p = Some k -> load_key t q = Some k -> p = q.
Proof.
  intros (Ht & Hbst & _) Hp Hq.
  destruct (load_key_holds _ _ _ _ Ht Hp) as (i & -> & Hi).
  destruct (load_key_holds _ _ _ _ Ht Hq) as (j & -> & Hj).
  f_equal. apply (holds_unique s i j k); [|done..].
  apply (sorted_NoDup less less_order). by apply (bst_sorted less less_order).
Qed.

(** The key in the [j]-th node in order is the [j]-th key. *)
Lemma load_key_nth t s j i :
  tree_rep t s -> addrs s !! j = Some i ->
  load_key t (node_addr i) = keys s !! j.
Proof.
  intros Ht Hj.
  destruct (focus_at s [] j i Hj) as (c & col & l & k & r & Hs & Hlen).
  simpl in Hs, Hlen. subst s.
  pose proof (focus_node _ _ _ _ _ _ _ Ht) as Hi. load Hi.
  rewrite keys_plug. simpl. rewrite <-app_assoc.
  rewrite length_app, <-length_before_keys, length_addrs_keys in Hlen.
  rewrite lookup_app_r by lia.
  rewrite lookup_app_r by lia.
  replace (j - length (keys_before c) - length (keys l)) with 0 by lia. done.
Qed.

Lemma find_absent t s k :
  structure_ok less t s -> k ∉ keys s -> find less t k = Some (end_ t).
Proof.
  intros (Ht & Hbst & _) Hk.
  destruct (descend less s k []) as [c s'] eqn:Hd.
  rewrite (find_rep less _ _ _ _ _ Ht Hd).
  destruct s' as [|i col l nk r]; [done|].
  by destruct (descend_present less less_order _ _ _ _ _ _ _ _ Hd).
Qed.

Lemma find_cases t s k :
  structure_ok less t s ->
  exists it, find less t k = Some it
    /\ (it = end_ t <-> k ∉ keys s)
    /\ (k ∈ keys s -> load_key t it = Some k).
Proof.
  intros Hs. pose proof Hs as (_ & Hbst & _).
  destruct (key_in_dec less less_order s k Hbst) as [Hin|Hout].
  - destruct (bounds_present less less_order t s k Hs Hin)
      as (it & Hf & Hne & Hk & _).
    exists it. split_and!; [done| |done].
    split; [intros Heq; by destruct Hne|intros Hn; by destruct Hn].
  - exists (end_ t). split_and!; [by apply (find_absent t s)|done|done].
Qed.

Lemma contains_cases t s k :
  structure_ok less t s ->
  exists b, contains less t k = Some b /\ (b = true <-> k ∈ keys s).
Proof.
  intros Hs. destruct (find_cases t s k Hs) as (it & Hf & Hend & _).
  unfold contains. rewrite Hf. simpl. eexists. split; [done|].
  rewrite bool_decide_eq_true, Hend. pose proof Hs as (_ & Hbst & _).
  destruct (key_in_dec less less_order s k Hbst) as [Hin|Hout]; tauto.
Qed.

End KeyLemmas.

(** ** What the stores leave alone

    No store writes a key, and a node never changes slot: the keys of the
    arena, slot by slot, are the same after every helper, and [insert] only
    ever appends the new key. *)

Ltac heap_steps :=
  repeat match goal with
  | H : mbind _ ?o = Some _ |- _ =>
      let E := fresh "E" in destruct o eqn:E; simpl in H; [|discriminate H]
  | H : (let '(_, _) := ?x in _) = Some _ |- _ => destruct x
  | H : (if ?b then _ else _) = Some _ |- _ =>
      let E := fresh "E" in destruct b eqn:E
  | H : Some _ = Some _ |- _ => injection H as H
  | H : (_, _) = (_, _) |- _ => injection H as ? ?
  end.

Section ArenaKeys.
Context {Key : Type}.
Implicit Types (t : RB_Tree Key) (q x y z : node_ptr).

Lemma store_node_arena_keys t q (f : RB_Node Key -> RB_Node Key) t' :
  (forall n, key (f n) = key n) ->
  store_node t q f = Some t' ->
  arena_keys t' = arena_keys t /\ size_ t' = size_ t.
Proof.
  intros Hf. unfold store_node. destruct q as [| |i]; [done..|].
  destruct (nodes_ t !! i) as [n|] eqn:Hn; [|done]. intros [= <-].
  split; [|done]. unfold arena_keys. simpl.
  rewrite list_fmap_insert, Hf. apply list_insert_id.
  by rewrite list_lookup_fmap, Hn.
Qed.

Lemma store_color_arena_keys t q col t' :
  store_color t q col = Some t' ->
  arena_keys t' = arena_keys t /\ size_ t' = size_ t.
Proof. by apply store_node_arena_keys. Qed.

Lemma store_right_arena_keys t q x t' :
  store_right t q x = Some t' ->
  arena_keys t' = arena_keys t /\ size_ t' = size_ t.
Proof. by apply store_node_arena_keys. Qed.

Lemma store_parent_arena_keys t q x t' :
  store_parent t q x = Some t' ->
  arena_keys t' = arena_keys t /\ size_ t' = size_ t.
Proof. by apply store_node_arena_keys. Qed.

Lemma store_left_arena_keys t q x t' :
  store_left t q x = Some t' ->
  arena_keys t' = arena_keys t /\ size_ t' = size_ t.
Proof.
  destruct q as [| |i]; [done| |by apply store_node_arena_keys].
  unfold store_left. destruct (end_node_ t); [|done]. by intros [= <-].
Qed.

End ArenaKeys.

Ltac arena_facts :=
  repeat match goal with
  | H : store_color _ _ _ = Some _ |- _ => apply store_color_arena_keys in H as [? ?]
  | H : store_left _ _ _ = Some _ |- _ => apply store_left_arena_keys in H as [? ?]
  | H : store_right _ _ _ = Some _ |- _ => apply store_right_arena_keys in H as [? ?]
  | H : store_parent _ _ _ = Some _ |- _ => apply store_parent_arena_keys in H as [? ?]
  end.

Section ArenaKeysHelpers.
Context {Key : Type} (less : Key -> Key -> bool) (mem : allocator).
Implicit Types (t : RB_Tree Key) (q x y z : node_ptr) (k : Key).

Lemma left_rotate_arena_keys t x t' :
  left_rotate t x = Some t' ->
  arena_keys t' = arena_keys t /\ size_ t' = size_ t.
Proof.
  unfold left_rotate. intros H. heap_steps; arena_facts; subst;
    split; congruence.
Qed.

Lemma right_rotate_arena_keys t x t' :
  right_rotate t x = Some t' ->
  arena_keys t' = arena_keys t /\ size_ t' = size_ t.
Proof.
  unfold right_rotate. intros H. heap_steps; arena_facts; subst;
    split; congruence.
Qed.

Lemma fixup_loop_arena_keys fuel : forall t z t',
  fixup_loop fuel t z = Some t' ->
  arena_keys t' = arena_keys t /\ size_ t' = size_ t.
Proof.
  induction fuel as [|fuel IH]; [done|]. intros t z t' H. simpl in H.
  heap_steps; subst;
    repeat match goal with
    | H : fixup_loop fuel _ _ = Some _ |- _ => apply IH in H as [? ?]
    | H : left_rotate _ _ = Some _ |- _ => apply left_rotate_arena_keys in H as [? ?]
    | H : right_rotate _ _ = Some _ |- _ => apply right_rotate_arena_keys in H as [? ?]
    end; arena_facts; split; congruence.
Qed.

Lemma rb_insert_fixup_arena_keys t z t' :
  rb_insert_fixup t z = Some t' ->
  arena_keys t' = arena_keys t /\ size_ t' = size_ t.
Proof.
  unfold rb_insert_fixup. intros H. heap_steps.
  apply fixup_loop_arena_keys in E as [? ?]. arena_facts. split; congruence.
Qed.

End ArenaKeysHelpers.

Ltac outcome_steps :=
  repeat match goal with
  | H : defined ?o _ = Returns _ _ |- _ =>
      let E := fresh "E" in destruct o eqn:E; simpl in H; [|discriminate H]
  | H : and_then ?m _ = Returns _ _ |- _ =>
      let E := fresh "E" in destruct m eqn:E; simpl in H; [|discriminate H..]
  | H : (if ?b then _ else _) = Returns _ _ |- _ =>
      let E := fresh "E" in destruct b eqn:E
  | H : (let '(_, _) := ?x in _) = Returns _ _ |- _ => destruct x
  | H : Returns _ _ = Returns _ _ |- _ => injection H as ? ?
  end.

Section ArenaKeysInsert.
Context {Key : Type} (less : Key -> Key -> bool) (mem : allocator).
Implicit Types (t : RB_Tree Key) (q x y z : node_ptr) (k : Key).

Lemma insert_node_returns t k col q t' :
  insert_node mem t k col = Returns q t' ->
  q = node_addr (length (nodes_ t))
  /\ t' = with_nodes t (nodes_ t ++ [mk_node k col nullptr nullptr nullptr])
  /\ mem (length (nodes_ t)) = alloc_ok.
Proof. unfold insert_node. destruct (mem _); [|done..]. by intros [= <- <-]. Qed.

Lemma insert_root_arena t k q t' :
  insert_root mem t k = Returns q t' ->
  q = node_addr (length (nodes_ t))
  /\ arena_keys t' = arena_keys t ++ [k] /\ size_ t' = S (size_ t).
Proof.
  unfold insert_root, set_root. intros H. outcome_steps.
  apply insert_node_returns in E as (-> & -> & _).
  arena_facts. subst. split; [done|]. simpl in *. split; [|congruence].
  unfold arena_keys in *. simpl in *. rewrite fmap_app in *. simpl in *. congruence.
Qed.

Lemma insert_hint_unique_arena t parent k q t' :
  insert_hint_unique less mem t parent k = Returns q t' ->
  q = node_addr (length (nodes_ t))
  /\ arena_keys t' = arena_keys t ++ [k] /\ size_ t' = S (size_ t).
Proof.
  unfold insert_hint_unique. intros H. outcome_steps.
  apply insert_node_returns in E as (-> & -> & _).
  heap_steps.
  all: repeat match goal with
       | H : rb_insert_fixup _ _ = Some _ |- _ =>
           apply rb_insert_fixup_arena_keys in H as [? ?]
       end; arena_facts; subst; split; [done|];
       repeat case_match; unfold arena_keys in *; simpl in *;
       rewrite ?fmap_app in *; simpl in *; split; congruence.
Qed.

Lemma insert_arena t k q (b : bool) t' :
  insert less mem t k = Returns (q, b) t' ->
  arena_keys t' = arena_keys t ++ (if b then [k] else [])
  /\ size_ t' = size_ t + (if b then 1 else 0)
  /\ (b = true -> q = node_addr (length (nodes_ t)))
  /\ (b = false -> t' = t).
Proof.
  unfold insert. intros H. outcome_steps; simplify_eq.
  - apply insert_root_arena in E0 as (-> & ? & ?).
    split_and!; [done|lia|done|done].
  - apply insert_hint_unique_arena in E3 as (-> & ? & ?).
    split_and!; [done|lia|done|done].
  - split_and!; [by rewrite app_nil_r|lia|done|done].
Qed.

End ArenaKeysInsert.

(** ** One call of [insert], whatever the allocator does *)

Section InsertCases.
Context {Key : Type} (less : Key -> Key -> bool) (mem : allocator).
Hypothesis less_order : strict_total less.
Implicit Types (t : RB_Tree Key) (s : shape Key) (k : Key).

Lemma insert_absent_throws t s k :
  structure_ok less t s -> k ∉ keys s ->
  mem (length (nodes_ t)) <> alloc_ok ->
  insert less mem t k = Throws t.
Proof.
  intros (Ht & Hbst & Hsize) Hk Hmem.
  assert (forall c, insert_node mem t k c = Throws t) as Hnode.
  { intros c. unfold insert_node. by destruct (mem (length (nodes_ t))). }
  destruct (descend less s k []) as [c' s'] eqn:Hd.
  destruct s' as [|i col l nk r].
  2:{ by destruct (descend_present less less_order _ _ _ _ _ _ _ _ Hd). }
  unfold insert, empty. destruct s as [|si sc sl sk sr].
  - simpl in Hsize. rewrite bool_decide_true by done.
    unfold insert_root. by rewrite Hnode.
  - rewrite bool_decide_false.
    2:{ rewrite Hsize. simpl. rewrite length_app. simpl. lia. }
    rewrite (tree_rep_root _ _ Ht). cbn [defined].
    rewrite (find_v2_rep less _ _ _ _ _ Ht Hd). cbn [defined root_ptr].
    rewrite bool_decide_true by done.
    unfold insert_hint_unique. by rewrite Hnode.
Qed.

(** The three ways a call can go on a well-formed tree. *)
Lemma insert_cases t s k :
  Inv less t s ->
  (k ∈ keys s
   /\ exists q, insert less mem t k = Returns (q, false) t
        /\ load_key t q = Some k /\ q <> end_ t)
  \/ ((k ∉ keys s) /\ mem (length (nodes_ t)) = alloc_ok
      /\ exists t' s' before after,
           insert less mem t k = Returns (node_addr (length (nodes_ t)), true) t'
           /\ Inv less t' s'
           /\ keys s = before ++ after /\ keys s' = before ++ k :: after
           /\ length (nodes_ t') = S (length (nodes_ t))
           /\ load_key t' (node_addr (length (nodes_ t))) = Some k)
  \/ ((k ∉ keys s) /\ mem (length (nodes_ t)) <> alloc_ok
      /\ insert less mem t k = Throws t).
Proof.
  intros HInv. pose proof HInv as (Hs & _). pose proof Hs as (_ & Hbst & _).
  destruct (key_in_dec less less_order s k Hbst) as [Hin|Hout].
  - left. split; [done|]. by apply (insert_present less mem less_order t s).
  - right. destruct (mem (length (nodes_ t))) eqn:Hmem.
    + left. split_and!; [done..|]. by apply (insert_absent less mem less_order t s).
    + right. split_and!; [done..|]. apply (insert_absent_throws t s); [done..|].
      by rewrite Hmem.
    + right. split_and!; [done..|]. apply (insert_absent_throws t s); [done..|].
      by rewrite Hmem.
Qed.

(** A call that returns leaves a well-formed tree that holds the key at the
    position it returns, on top of the keys it held. *)
Lemma insert_returns t s k q (b : bool) t' :
  Inv less t s -> insert less mem t k = Returns (q, b) t' ->
  exists s', Inv less t' s'
    /\ (forall x, x ∈ keys s' <-> x = k \/ x ∈ keys s)
    /\ load_key t' q = Some k
    /\ (b = false <-> k ∈ keys s)
    /\ length (keys s') = length (keys s) + (if b then 1 else 0).
Proof.
  intros HInv Hins.
  destruct (insert_cases t s k HInv)
    as [(Hin & q' & Hq & Hk & _)
       |[(Hout & Hok & t2 & s2 & before & after & Hq & HInv2 & Hks & Hks2 & _ & Hk)
        |(_ & _ & Hthrow)]].
  - rewrite Hq in Hins. injection Hins as <- <- <-.
    exists s. split_and!; [done| |done|done|lia]. set_solver.
  - rewrite Hq in Hins. injection Hins as <- <- <-.
    exists s2. split_and!; [done| |done|done|].
    + intros x. rewrite Hks, Hks2. set_solver.
    + rewrite Hks, Hks2, !length_app. simpl. lia.
  - by rewrite Hthrow in Hins.
Qed.

End InsertCases.

(** ** Bounds of a key that is not stored, the caches, bulk insertion *)

Section MoreLemmas.
Context {Key : Type} (less : Key -> Key -> bool).
Hypothesis less_order : strict_total less.
Implicit Types (t : RB_Tree Key) (s l r : shape Key) (k : Key).

Lemma bounds_in_absent s : forall k res,
  k ∉ keys s -> lower_bound_in less s k res = upper_bound_in less s k res.
Proof.
  destruct less_order as (less_irrefl & less_trans & less_total).
  induction s as [|i col l IHl nk r IHr]; [done|]. intros k res Hk. simpl in *.
  assert ((k ∉ keys l) /\ k <> nk /\ (k ∉ keys r)) as (Hl & Hne & Hr) by set_solver.
  destruct (less nk k) eqn:Hnk.
  - rewrite (less_asym less less_order _ _ Hnk). by apply IHr.
  - destruct (less k nk) eqn:Hkn; [by apply IHl|].
    by destruct Hne; apply less_total.
Qed.

Lemma bounds_meet t s k :
  structure_ok less t s ->
  exists lo hi, lower_bound less t k = Some lo /\ upper_bound less t k = Some hi
    /\ (lo = hi <-> k ∉ keys s).
Proof.
  destruct less_order as (less_irrefl & less_trans & less_total).
  intros Hs. pose proof Hs as (Ht & Hbst & _).
  destruct (key_in_dec less less_order s k Hbst) as [Hin|Hout].
  - destruct (bounds_present less less_order t s k Hs Hin)
      as (it & _ & Hne & Hk & Hlo & _).
    destruct (upper_bound_spec less less_order t s k Hs)
      as (hi & Hhi & [(-> & _)|(ki & Hki & _ & Hlt & _)]).
    + exists it, (end_ t). split_and!; [done..|]. split; [done|]. by intros [].
    + exists it, hi. split_and!; [done..|]. split; [|by intros []].
      intros ->. rewrite Hk in Hki. injection Hki as <-.
      by rewrite less_irrefl in Hlt.
  - rewrite (lower_bound_rep less t s k Ht), (upper_bound_rep less t s k Ht).
    eexists _, _. split_and!; [done..|]. split; [done|]. intros _.
    by rewrite (bounds_in_absent s k nullptr Hout).
Qed.

Lemma load_key_first t s a :
  tree_rep t s -> head (addrs s) = Some a ->
  load_key t (node_addr a) = head (keys s).
Proof.
  intros Ht Ha. rewrite head_lookup in Ha.
  by rewrite (load_key_nth t s 0 a Ht Ha), head_lookup.
Qed.

Lemma load_key_last t s z :
  tree_rep t s -> last (addrs s) = Some z ->
  load_key t (node_addr z) = last (keys s).
Proof.
  intros Ht Hz. rewrite last_lookup in Hz.
  by rewrite (load_key_nth t s _ z Ht Hz), last_lookup, length_addrs_keys.
Qed.

Lemma sorted_ends (ks : list Key) lo hi :
  StronglySorted (key_lt less) ks -> head ks = Some lo -> last ks = Some hi ->
  forall x, x ∈ ks -> less x lo = false /\ less hi x = false.
Proof.
  destruct less_order as (less_irrefl & less_trans & less_total).
  intros Hs Hlo Hhi x Hx. split.
  - destruct ks as [|y ks]; [done|]. injection Hlo as ->.
    apply StronglySorted_inv in Hs as (_ & Hall).
    apply elem_of_cons in Hx as [->|Hx]; [done|].
    rewrite Forall_forall in Hall. by apply (less_asym less less_order), Hall.
  - apply last_Some in Hhi as (front & ->).
    apply elem_of_app in Hx as [Hx|Hx].
    + apply (less_asym less less_order).
      clear -Hs Hx. induction front as [|y front IH]; [set_solver|].
      simpl in Hs. apply StronglySorted_inv in Hs as (Hs & Hall).
      apply elem_of_cons in Hx as [->|Hx]; [|by apply IH].
      rewrite Forall_forall in Hall. apply Hall. set_solver.
    + by apply list_elem_of_singleton in Hx as ->.
Qed.

(** The cached ends of a well-formed, non-empty tree hold its least and its
    greatest key. *)
Lemma cached_ends t s :
  Inv less t s -> s <> Lf ->
  exists lo hi, load_key t (leftmost_ t) = Some lo
    /\ load_key t (rightmost_ t) = Some hi
    /\ lo ∈ keys s /\ hi ∈ keys s
    /\ (forall x, x ∈ keys s -> less x lo = false /\ less hi x = false).
Proof.
  intros ((Ht & Hbst & _) & _ & Hl & Hr) Hne.
  apply (bst_sorted less less_order) in Hbst.
  pose proof (length_addrs_keys s) as Hlen.
  destruct (head (addrs s)) as [a|] eqn:Ha.
  2:{ apply head_None in Ha. destruct s; [done|]. simpl in Ha.
      by apply app_nil in Ha as [_ ?]. }
  destruct (last (addrs s)) as [z|] eqn:Hz.
  2:{ apply last_None in Hz. by rewrite Hz in Ha. }
  pose proof (load_key_first t s a Ht Ha) as Hlo.
  pose proof (load_key_last t s z Ht Hz) as Hhi.
  destruct (head (keys s)) as [lo|] eqn:Hklo.
  2:{ apply head_None in Hklo. rewrite Hklo in Hlen.
      destruct (addrs s); done. }
  destruct (last (keys s)) as [hi|] eqn:Hkhi.
  2:{ apply last_None in Hkhi. by rewrite Hkhi in Hklo. }
  exists lo, hi. split_and!.
  - rewrite Hl. unfold first_ptr. destruct (addrs s); [done|].
    simpl in Ha. by injection Ha as ->.
  - rewrite Hr. unfold last_ptr. by rewrite Hz.
  - destruct (keys s); [done|]. injection Hklo as ->. set_solver.
  - apply last_Some in Hkhi as (front & ->). set_solver.
  - by apply sorted_ends.
Qed.

(** A run of inserts that meets an allocation failure stops there, with the
    keys before it inserted: the key it stops at is not stored, and it is
    the allocation of its node that fails. *)
Lemma insert_all_outcome (mem : allocator) ks : forall t s,
  Inv less t s ->
  exists t' s' pre post,
    ks = pre ++ post
    /\ Inv less t' s'
    /\ (forall x, x ∈ keys s' <-> x ∈ pre \/ x ∈ keys s)
    /\ ((post = [] /\ insert_all less mem t ks = Returns tt t')
        \/ (exists k rest, post = k :: rest
              /\ (k ∉ keys s')
              /\ mem (length (nodes_ t')) <> alloc_ok
              /\ insert_all less mem t ks = Throws t')).
Proof.
  induction ks as [|k ks IH]; intros t s HInv.
  { exists t, s, [], []. split_and!; [done..|set_solver|by left]. }
  destruct (insert_cases less mem less_order t s k HInv)
    as [(Hin & q' & Hq & _)
       |[(Hout & Hok & t2 & s2 & before & after & Hq & HInv2 & Hks & Hks2 & _)
        |(Hout & Hfail & Hthrow)]].
  - destruct (IH t s HInv) as (t' & s' & pre & post & -> & HInv' & Hkeys & Hres).
    exists t', s', (k :: pre), post. simpl. rewrite Hq.
    split_and!; [done..| |done]. intros x. rewrite Hkeys. set_solver.
  - destruct (IH t2 s2 HInv2) as (t' & s' & pre & post & -> & HInv' & Hkeys & Hres).
    exists t', s', (k :: pre), post. simpl. rewrite Hq.
    split_and!; [done..| |done]. intros x. rewrite Hkeys, Hks, Hks2. set_solver.
  - exists t, s, [], (k :: ks). simpl. rewrite Hthrow.
    split_and!; [done..|set_solver|]. right. by exists k, ks.
Qed.

End MoreLemmas.

(** [example_tree] is well formed. *)
Ltac example_inv :=
  split; [example_structure|vm_compute; intuition congruence].

(** [example_tree] holds [example_shape]. *)
Ltac example_rep :=
  unfold tree_rep, example_tree, example_shape; simpl;
  split_and!; try reflexivity;
  repeat (apply NoDup_cons_2; [set_solver|]); apply NoDup_nil_2.

(** ** The height of a red-black tree *)

Section Height.
Context {Key : Type}.
Implicit Types (s l r : shape Key).

Lemma black_height_size s :
  balanced s -> 2 ^ black_height s <= length (addrs s) + 1.
Proof.
  induction s as [|i c l IHl k r IHr]; [simpl; lia|].
  intros (Hbh & Hl & Hr). specialize (IHl Hl). specialize (IHr Hr).
  simpl. rewrite length_app. simpl. rewrite <-Hbh in IHr.
  destruct c; simpl; lia.
Qed.

Lemma height_black_height s :
  no_red_red s -> balanced s ->
  height s <= 2 * black_height s + (if bool_decide (root_color s = red) then 1 else 0).
Proof.
  induction s as [|i c l IHl k r IHr]; [simpl; lia|].
  intros (Hc & Hnl & Hnr) (Hbh & Hl & Hr).
  specialize (IHl Hnl Hl). specialize (IHr Hnr Hr). rewrite <-Hbh in IHr.
  simpl. destruct c; simpl.
  - destruct (Hc eq_refl) as (Hcl & Hcr).
    rewrite Hcl in IHl. rewrite Hcr in IHr.
    rewrite bool_decide_false in IHl, IHr by done. lia.
  - repeat case_bool_decide; lia.
Qed.

Lemma red_black_height s :
  red_black s -> height s <= 2 * Nat.log2 (length (addrs s) + 1).
Proof.
  intros (Hroot & Hnrr & Hbal).
  pose proof (height_black_height s Hnrr Hbal) as Hh.
  rewrite Hroot, bool_decide_false in Hh by done.
  pose proof (black_height_size s Hbal) as Hs.
  apply Nat.log2_le_mono in Hs. rewrite Nat.log2_pow2 in Hs by lia. lia.
Qed.

End Height.

Section SortedLists.
Context {Key : Type} (less : Key -> Key -> bool).
Hypothesis less_order : strict_total less.

(** Two strictly ascending lists with the same elements are the same
    list. *)
Lemma sorted_same_elements (l1 l2 : list Key) :
  StronglySorted (key_lt less) l1 -> StronglySorted (key_lt less) l2 ->
  (forall x, x ∈ l1 <-> x ∈ l2) -> l1 = l2.
Proof.
  intros H1 H2 Hsame. apply (StronglySorted_unique_strong (key_lt less)); [|done..|].
  - intros x1 x2 _ _ Hlt Hgt. unfold key_lt in *.
    by rewrite (less_asym less less_order _ _ Hlt) in Hgt.
  - apply NoDup_Permutation; [by apply (sorted_NoDup less less_order)..|done].
Qed.

End SortedLists.

(** * The copy constructor *)

(** ** Slots of an arena that is known cell by cell *)

Section Slots.
Context {A : Type}.
Implicit Types (l : list A) (x y : A).

Lemma lookup_middle_len l1 l2 x n :
  length l1 = n -> (l1 ++ x :: l2) !! n = Some x.
Proof. intros <-. by apply list_lookup_middle. Qed.

Lemma insert_middle_len l1 l2 x y n :
  length l1 = n -> <[n := y]> (l1 ++ x :: l2) = l1 ++ y :: l2.
Proof.
  intros <-. rewrite insert_app_r_alt by lia. by rewrite Nat.sub_diag.
Qed.

Lemma lookup_snoc_len l1 l2 x y z n :
  length (l1 ++ x :: l2) = n -> (l1 ++ y :: l2 ++ [z]) !! n = Some z.
Proof.
  intros Hn. rewrite (cons_middle y), !app_assoc. apply lookup_middle_len.
  rewrite <-Hn, !length_app. simpl. lia.
Qed.

Lemma insert_snoc_len l1 l2 x y z z' n :
  length (l1 ++ x :: l2) = n ->
  <[n := z']> (l1 ++ y :: l2 ++ [z]) = l1 ++ y :: l2 ++ [z'].
Proof.
  intros Hn. rewrite !(cons_middle y), !app_assoc. apply insert_middle_len.
  rewrite <-Hn, !length_app. simpl. lia.
Qed.

End Slots.

(** ** The shape the copy holds *)

Section Relabel.
Context {Key : Type}.
Implicit Types (s l r : shape Key) (h : list (RB_Node Key)).

Lemma keys_relabel s : forall n, keys (relabel n s) = keys s.
Proof.
  induction s as [|i c l IHl k r IHr]; [done|]. intros n. simpl.
  by rewrite IHl, IHr.
Qed.

Lemma addrs_relabel s : forall n,
  addrs (relabel n s) ≡ₚ seq n (length (addrs s)).
Proof.
  induction s as [|i c l IHl k r IHr]; [done|]. intros n. simpl.
  rewrite IHl, IHr, length_app. simpl.
  rewrite <-Permutation_middle.
  replace (length (addrs l) + S (length (addrs r)))
    with (S (length (addrs l) + length (addrs r))) by lia.
  simpl. f_equiv. by rewrite seq_app.
Qed.

Lemma length_addrs_relabel s n : length (addrs (relabel n s)) = length (addrs s).
Proof. by rewrite addrs_relabel, length_seq. Qed.

Lemma NoDup_addrs_relabel s n : NoDup (addrs (relabel n s)).
Proof. rewrite addrs_relabel. apply NoDup_seq. Qed.

Lemma length_cells par s : length (cells par s) = length (addrs s).
Proof.
  revert par. induction s as [|i c l IHl k r IHr]; [done|]. intros par. simpl.
  rewrite !length_app, IHl, IHr. simpl. lia.
Qed.

Lemma root_ptr_relabel s n :
  root_ptr (relabel n s) = match s with Lf => nullptr | _ => node_addr n end.
Proof. by destruct s. Qed.

Lemma bst_relabel (less : Key -> Key -> bool) s : forall n,
  bst less (relabel n s) <-> bst less s.
Proof.
  induction s as [|i c l IHl k r IHr]; [done|]. intros n. simpl.
  by rewrite !keys_relabel, IHl, IHr.
Qed.

(** An arena that holds the cells of [relabel n s] from slot [n] on holds
    that shape. *)
Lemma rep_cells s : forall h1 h2 par,
  rep (h1 ++ cells par (relabel (length h1) s) ++ h2) par
      (relabel (length h1) s).
Proof.
  induction s as [|i c l IHl k r IHr]; [done|]. intros h1 h2 par. simpl.
  set (x := mk_node k c _ _ par).
  split_and!.
  - by apply lookup_middle_len.
  - specialize (IHl (h1 ++ [x])
      (cells (node_addr (length h1))
         (relabel (S (length h1 + length (addrs l))) r) ++ h2)
      (node_addr (length h1))).
    rewrite length_app in IHl. simpl in IHl.
    replace (length h1 + 1) with (S (length h1)) in IHl by lia.
    by rewrite <-!app_assoc in IHl |- *.
  - specialize (IHr (h1 ++ x :: cells (node_addr (length h1))
                                  (relabel (S (length h1)) l))
      h2 (node_addr (length h1))).
    rewrite length_app in IHr. simpl in IHr.
    rewrite length_cells, length_addrs_relabel in IHr.
    replace (length h1 + S (length (addrs l)))
      with (S (length h1 + length (addrs l))) in IHr by lia.
    by rewrite <-!app_assoc in IHr |- *.
Qed.

End Relabel.

(** ** One turn of the loop *)

Section CopySteps.
Context {Key : Type} (mem : allocator).
Implicit Types (t rhs : RB_Tree Key) (h rest : list (RB_Node Key))
  (n : RB_Node Key) (q : node_ptr).

Lemma node_addr_not_end rhs i : bool_decide (node_addr i = end_node rhs) = false.
Proof. apply bool_decide_eq_false. unfold end_node. by destruct (end_node_ rhs). Qed.

(** The walk is over when the cursor in the source is back on the
    sentinel. *)
Lemma copy_loop_end fuel rhs t q :
  end_node rhs = end_addr ->
  copy_loop mem (S fuel) rhs t end_addr q = Returns tt t.
Proof. intros Hend. simpl. by rewrite bool_decide_true. Qed.

(** A step down to the left: the node under construction has no left child
    yet, and the source node has one. *)
Lemma copy_step_left fuel rhs t i li nl rk rc rr rpar h0 k c R pj rest N :
  nodes_ rhs !! i = Some (mk_node rk rc (node_addr li) rr rpar) ->
  nodes_ rhs !! li = Some nl ->
  nodes_ t = h0 ++ mk_node k c nullptr R pj :: rest ->
  N = length (nodes_ t) ->
  mem N = alloc_ok ->
  copy_loop mem (S fuel) rhs t (node_addr i) (node_addr (length h0))
  = copy_loop mem fuel rhs
      (mk_tree
         (h0 ++ mk_node k c (node_addr N) R pj
             :: rest ++ [mk_node (key nl) (color_ nl) nullptr nullptr
                           (node_addr (length h0))])
         (end_node_ t)
         (if bool_decide (node_addr li = leftmost_ rhs)
          then node_addr N else leftmost_ t)
         (rightmost_ t) (size_ t))
      (node_addr li) (node_addr N).
Proof.
  intros Hi Hli Ht HN Hmem. destruct t as [h e lm rm sz]. simpl in *. subst h.
  rewrite node_addr_not_end. load Hi.
  erewrite (load_left_node _ (length h0)) by (simpl; by apply lookup_middle_len).
  simpl. load Hli. unfold insert_node. simpl. rewrite <-HN, Hmem. simpl.
  unfold with_nodes. simpl. rewrite <-app_assoc. simpl.
  erewrite (store_left_node _ (length h0)) by (simpl; by apply lookup_middle_len).
  simpl. rewrite insert_middle_len by done. unfold with_left, with_nodes. simpl.
  erewrite (load_left_node _ (length h0)) by (simpl; by apply lookup_middle_len).
  simpl.
  symmetry in HN.
  erewrite (store_parent_node _ N) by (simpl; by eapply lookup_snoc_len).
  simpl. erewrite insert_snoc_len by done. unfold with_parent, with_nodes. simpl.
  erewrite (load_left_node _ (length h0)) by (simpl; by apply lookup_middle_len).
  simpl. by destruct (bool_decide (node_addr li = leftmost_ rhs)).
Qed.

(** A step down to the right: the left side is done (the source node has no
    left child, or the node under construction has one already). *)
Lemma copy_step_right fuel rhs t i ri nr rk rc rl rpar h0 k c L pj rest N :
  nodes_ rhs !! i = Some (mk_node rk rc rl (node_addr ri) rpar) ->
  nodes_ rhs !! ri = Some nr ->
  nodes_ t = h0 ++ mk_node k c L nullptr pj :: rest ->
  rl = nullptr \/ L <> nullptr ->
  N = length (nodes_ t) ->
  mem N = alloc_ok ->
  copy_loop mem (S fuel) rhs t (node_addr i) (node_addr (length h0))
  = copy_loop mem fuel rhs
      (mk_tree
         (h0 ++ mk_node k c L (node_addr N) pj
             :: rest ++ [mk_node (key nr) (color_ nr) nullptr nullptr
                           (node_addr (length h0))])
         (end_node_ t) (leftmost_ t)
         (if bool_decide (node_addr ri = rightmost_ rhs)
          then node_addr N else rightmost_ t)
         (size_ t))
      (node_addr ri) (node_addr N).
Proof.
  intros Hi Hri Ht Hleft HN Hmem. destruct t as [h e lm rm sz]. simpl in *. subst h.
  rewrite node_addr_not_end. load Hi.
  assert ((if bool_decide (rl = nullptr) then Some false
           else nl ← load_left
                  {| nodes_ := h0 ++ mk_node k c L nullptr pj :: rest;
                     end_node_ := e; leftmost_ := lm; rightmost_ := rm;
                     size_ := sz |} (node_addr (length h0));
                Some (bool_decide (nl = nullptr))) = Some false) as ->.
  { case_bool_decide; [done|].
    erewrite (load_left_node _ (length h0)) by (simpl; by apply lookup_middle_len).
    simpl. destruct Hleft; [done|]. by rewrite bool_decide_false. }
  simpl. load Hi.
  erewrite (load_right_node _ (length h0)) by (simpl; by apply lookup_middle_len).
  simpl. load Hri. unfold insert_node. simpl. rewrite <-HN, Hmem. simpl.
  unfold with_nodes. simpl. rewrite <-app_assoc. simpl.
  erewrite (store_right_node _ (length h0)) by (simpl; by apply lookup_middle_len).
  simpl. rewrite insert_middle_len by done. unfold with_right, with_nodes. simpl.
  erewrite (load_right_node _ (length h0)) by (simpl; by apply lookup_middle_len).
  simpl. symmetry in HN.
  erewrite (store_parent_node _ N) by (simpl; by eapply lookup_snoc_len).
  simpl. erewrite insert_snoc_len by done. unfold with_parent, with_nodes. simpl.
  erewrite (load_right_node _ (length h0)) by (simpl; by apply lookup_middle_len).
  simpl. by destruct (bool_decide (node_addr ri = rightmost_ rhs)).
Qed.

(** The same steps when the allocation fails: the exception leaves the
    loop. *)
Lemma copy_step_left_fail fuel rhs t i li nl rk rc rr rpar h0 k c R pj rest :
  nodes_ rhs !! i = Some (mk_node rk rc (node_addr li) rr rpar) ->
  nodes_ rhs !! li = Some nl ->
  nodes_ t = h0 ++ mk_node k c nullptr R pj :: rest ->
  mem (length (nodes_ t)) <> alloc_ok ->
  copy_loop mem (S fuel) rhs t (node_addr i) (node_addr (length h0)) = Throws t.
Proof.
  intros Hi Hli Ht Hmem. simpl.
  rewrite node_addr_not_end. load Hi.
  erewrite (load_left_node _ (length h0))
    by (rewrite Ht; by apply lookup_middle_len).
  simpl. load Hli. unfold insert_node.
  by destruct (mem (length (nodes_ t))).
Qed.

Lemma copy_step_right_fail fuel rhs t i ri nr rk rc rl rpar h0 k c L pj rest :
  nodes_ rhs !! i = Some (mk_node rk rc rl (node_addr ri) rpar) ->
  nodes_ rhs !! ri = Some nr ->
  nodes_ t = h0 ++ mk_node k c L nullptr pj :: rest ->
  rl = nullptr \/ L <> nullptr ->
  mem (length (nodes_ t)) <> alloc_ok ->
  copy_loop mem (S fuel) rhs t (node_addr i) (node_addr (length h0)) = Throws t.
Proof.
  intros Hi Hri Ht Hleft Hmem. simpl.
  rewrite node_addr_not_end. load Hi.
  assert ((if bool_decide (rl = nullptr) then Some false
           else nl ← load_left t (node_addr (length h0));
                Some (bool_decide (nl = nullptr))) = Some false) as ->.
  { case_bool_decide; [done|].
    erewrite (load_left_node _ (length h0))
      by (rewrite Ht; by apply lookup_middle_len).
    simpl. destruct Hleft; [done|]. by rewrite bool_decide_false. }
  simpl. load Hi.
  erewrite (load_right_node _ (length h0))
    by (rewrite Ht; by apply lookup_middle_len).
  simpl. load Hri. unfold insert_node.
  by destruct (mem (length (nodes_ t))).
Qed.

(** The step up: both sides are done. *)
Lemma copy_step_up fuel rhs t i j rk rc rl rr rpar k c L R pj :
  nodes_ rhs !! i = Some (mk_node rk rc rl rr rpar) ->
  nodes_ t !! j = Some (mk_node k c L R pj) ->
  rl = nullptr \/ L <> nullptr ->
  rr = nullptr \/ R <> nullptr ->
  copy_loop mem (S fuel) rhs t (node_addr i) (node_addr j)
  = copy_loop mem fuel rhs t rpar pj.
Proof.
  intros Hi Hj Hleft Hright. simpl.
  rewrite node_addr_not_end. load Hi.
  assert ((if bool_decide (rl = nullptr) then Some false
           else nl ← load_left t (node_addr j);
                Some (bool_decide (nl = nullptr))) = Some false) as ->.
  { case_bool_decide; [done|]. load Hj.
    destruct Hleft; [done|]. by rewrite bool_decide_false. }
  simpl. load Hi.
  assert ((if bool_decide (rr = nullptr) then Some false
           else nr ← load_right t (node_addr j);
                Some (bool_decide (nr = nullptr))) = Some false) as ->.
  { case_bool_decide; [done|]. load Hj.
    destruct Hright; [done|]. by rewrite bool_decide_false. }
  simpl. load Hi. by load Hj.
Qed.

End CopySteps.

(** ** The walk over a subtree *)

Section CopyLoop.
Context {Key : Type} (mem : allocator).
Implicit Types (t rhs : RB_Tree Key) (h rest : list (RB_Node Key))
  (u l r : shape Key) (q : node_ptr).

(** From a node that has just been created for the root of [u], the loop
    comes back to the parent after [2 * |u| - 1] turns, having created the
    nodes of [u] in the slots that follow. *)
Lemma copy_loop_subtree u : forall rhs t rpar h0 pj fuel,
  rep (nodes_ rhs) rpar u ->
  (forall m, m < length h0 + length (addrs u) -> mem m = alloc_ok) ->
  match u with
  | Lf => True
  | Nd i c l k r =>
      nodes_ t = h0 ++ [mk_node k c nullptr nullptr pj] ->
      copy_loop mem (2 * length (addrs u) - 1 + fuel) rhs t
        (node_addr i) (node_addr (length h0))
      = copy_loop mem fuel rhs
          (mk_tree (h0 ++ cells pj (relabel (length h0) u)) (end_node_ t)
             (copied_leftmost (leftmost_ rhs) (length h0) u (leftmost_ t))
             (copied_rightmost (rightmost_ rhs) (length h0) u (rightmost_ t))
             (size_ t))
          rpar pj
  end.
Proof.
  induction u as [|i c l IHl k r IHr]; [done|].
  intros rhs t rpar h0 pj fuel (Hi & Hl & Hr) Hmem Ht.
  set (j := length h0) in *.
  set (lm := leftmost_ rhs). set (rm := rightmost_ rhs).
  simpl addrs in *. rewrite length_app in *. simpl length in *.
  replace (2 * (length (addrs l) + S (length (addrs r))) - 1 + fuel)
    with (2 * length (addrs l) + (2 * length (addrs r) + S fuel)) by lia.
  (* the left side *)
  set (l' := relabel (S j) l).
  set (lmL := match l with
              | Lf => leftmost_ t
              | Nd li _ _ _ _ =>
                  copied_leftmost lm (S j) l
                    (if bool_decide (node_addr li = lm) then node_addr (S j)
                     else leftmost_ t)
              end).
  set (rmL := copied_rightmost rm (S j) l (rightmost_ t)).
  set (tL := mk_tree (h0 ++ mk_node k c (root_ptr l') nullptr pj
                          :: cells (node_addr j) l')
               (end_node_ t) lmL rmL (size_ t)).
  assert (forall F, copy_loop mem (2 * length (addrs l) + F) rhs t
                      (node_addr i) (node_addr j)
                    = copy_loop mem F rhs tL (node_addr i) (node_addr j)) as HL.
  { intros F. destruct l as [|li lc ll lk lr].
    - simpl. unfold tL, l', lmL, rmL. simpl. destruct t; simpl in *. by subst.
    - pose proof Hl as (Hli & _).
      replace (2 * length (addrs (Nd li lc ll lk lr)) + F)
        with (S (2 * length (addrs (Nd li lc ll lk lr)) - 1 + F))
        by (simpl; rewrite length_app; simpl; lia).
      rewrite (copy_step_left mem _ rhs t i li _ _ _ _ _ h0 k c nullptr pj []
                 (S j) Hi Hli Ht).
      2:{ rewrite Ht, length_app. simpl. unfold j. lia. }
      2:{ apply Hmem. simpl. rewrite length_app. simpl. unfold j. lia. }
      simpl app. simpl key. simpl color_.
      set (h1 := h0 ++ [mk_node k c (node_addr (S j)) nullptr pj]).
      assert (length h1 = S j) as Hh1.
      { unfold h1, j. rewrite length_app. simpl. lia. }
      pose proof (IHl rhs
        (mk_tree (h1 ++ [mk_node lk lc nullptr nullptr (node_addr j)])
           (end_node_ t)
           (if bool_decide (node_addr li = leftmost_ rhs) then node_addr (S j)
            else leftmost_ t)
           (rightmost_ t) (size_ t))
        (node_addr i) h1 (node_addr j) F Hl) as IH.
      rewrite Hh1 in IH. unfold h1 in IH. rewrite <-!app_assoc in IH.
      simpl app in IH. fold j.
      rewrite IH; [|intros m Hm; apply Hmem; simpl in *; lia|done].
      unfold tL, l'. cbn [root_ptr relabel]. done. }
  (* the right side *)
  set (N := S (j + length (addrs l))).
  set (r' := relabel N r).
  set (lmR := copied_leftmost lm N r lmL).
  set (rmR := match r with
              | Lf => rmL
              | Nd ri _ _ _ _ =>
                  copied_rightmost rm N r
                    (if bool_decide (node_addr ri = rm) then node_addr N else rmL)
              end).
  set (tR := mk_tree (h0 ++ mk_node k c (root_ptr l') (root_ptr r') pj
                          :: cells (node_addr j) l' ++ cells (node_addr j) r')
               (end_node_ t) lmR rmR (size_ t)).
  assert (root_ptr l = nullptr \/ root_ptr l' <> nullptr) as Hleft.
  { destruct l; [by left|by right]. }
  assert (length (nodes_ tL) = N) as HlenL.
  { unfold tL, N, l', j. simpl. rewrite length_app. simpl.
    rewrite length_cells, length_addrs_relabel. lia. }
  assert (forall F, copy_loop mem (2 * length (addrs r) + F) rhs tL
                      (node_addr i) (node_addr j)
                    = copy_loop mem F rhs tR (node_addr i) (node_addr j)) as HR.
  { intros F. destruct r as [|ri rc rl rk rr].
    - simpl. unfold tR, tL, r', lmR, rmR. simpl. by rewrite app_nil_r.
    - pose proof Hr as (Hri & _).
      replace (2 * length (addrs (Nd ri rc rl rk rr)) + F)
        with (S (2 * length (addrs (Nd ri rc rl rk rr)) - 1 + F))
        by (simpl; rewrite length_app; simpl; lia).
      rewrite (copy_step_right mem _ rhs tL i ri _ _ _ _ _ h0 k c (root_ptr l')
                 pj (cells (node_addr j) l') N Hi Hri eq_refl Hleft);
        [|done|apply Hmem; unfold N; simpl; rewrite length_app; simpl; lia].
      simpl key. simpl color_.
      set (h1 := h0 ++ mk_node k c (root_ptr l') (node_addr N) pj
                    :: cells (node_addr j) l').
      assert (length h1 = N) as Hh1.
      { unfold h1, N, l', j. rewrite length_app. simpl.
        rewrite length_cells, length_addrs_relabel. lia. }
      pose proof (IHr rhs
        (mk_tree (h1 ++ [mk_node rk rc nullptr nullptr (node_addr j)])
           (end_node_ tL) (leftmost_ tL)
           (if bool_decide (node_addr ri = rightmost_ rhs) then node_addr N
            else rightmost_ tL)
           (size_ tL))
        (node_addr i) h1 (node_addr j) F Hr) as IH.
      rewrite Hh1 in IH. unfold h1 in IH. rewrite <-!app_assoc in IH.
      simpl app in IH. fold j.
      rewrite IH; [|intros m Hm; apply Hmem; unfold N in Hm; simpl in *;
                    rewrite length_app in *; simpl in *; lia|done].
      unfold tR, r'. cbn [root_ptr relabel]. done. }
  rewrite HL, HR.
  rewrite (copy_step_up mem fuel rhs tR i j _ _ _ _ _ k c (root_ptr l')
             (root_ptr r') pj Hi).
  - unfold tR. simpl. done.
  - unfold tR. simpl. by apply lookup_middle_len.
  - done.
  - destruct r; [by left|by right].
Qed.

(** The left side alone. *)
Lemma copy_left_phase rhs t i c l k r rpar h0 pj F :
  rep (nodes_ rhs) rpar (Nd i c l k r) ->
  nodes_ t = h0 ++ [mk_node k c nullptr nullptr pj] ->
  (forall m, m < S (length h0) + length (addrs l) -> mem m = alloc_ok) ->
  copy_loop mem (2 * length (addrs l) + F) rhs t
    (node_addr i) (node_addr (length h0))
  = copy_loop mem F rhs
      (mk_tree
         (h0 ++ mk_node k c (root_ptr (relabel (S (length h0)) l)) nullptr pj
             :: cells (node_addr (length h0)) (relabel (S (length h0)) l))
         (end_node_ t)
         (match l with
          | Lf => leftmost_ t
          | Nd li _ _ _ _ =>
              copied_leftmost (leftmost_ rhs) (S (length h0)) l
                (if bool_decide (node_addr li = leftmost_ rhs)
                 then node_addr (S (length h0)) else leftmost_ t)
          end)
         (copied_rightmost (rightmost_ rhs) (S (length h0)) l (rightmost_ t))
         (size_ t))
      (node_addr i) (node_addr (length h0)).
Proof.
  intros (Hi & Hl & Hr) Ht Hmem. set (j := length h0) in *.
  destruct l as [|li lc ll lk lr].
  - simpl. destruct t; simpl in *. by subst.
  - pose proof Hl as (Hli & _).
    replace (2 * length (addrs (Nd li lc ll lk lr)) + F)
      with (S (2 * length (addrs (Nd li lc ll lk lr)) - 1 + F))
      by (simpl; rewrite length_app; simpl; lia).
    rewrite (copy_step_left mem _ rhs t i li _ _ _ _ _ h0 k c nullptr pj []
               (S j) Hi Hli Ht).
    2:{ rewrite Ht, length_app. simpl. unfold j. lia. }
    2:{ apply Hmem. simpl. rewrite length_app. simpl. unfold j. lia. }
    simpl app. simpl key. simpl color_.
    set (h1 := h0 ++ [mk_node k c (node_addr (S j)) nullptr pj]).
    assert (length h1 = S j) as Hh1.
    { unfold h1, j. rewrite length_app. simpl. lia. }
    pose proof (copy_loop_subtree (Nd li lc ll lk lr) rhs
      (mk_tree (h1 ++ [mk_node lk lc nullptr nullptr (node_addr j)])
         (end_node_ t)
         (if bool_decide (node_addr li = leftmost_ rhs) then node_addr (S j)
          else leftmost_ t)
         (rightmost_ t) (size_ t))
      (node_addr i) h1 (node_addr j) F Hl) as IH.
    rewrite Hh1 in IH. unfold h1 in IH. rewrite <-!app_assoc in IH.
    simpl app in IH. fold j.
    rewrite IH; [|intros m Hm; apply Hmem; simpl in *; lia|done].
    cbn [root_ptr relabel]. done.
Qed.

(** When the first allocation that fails is one of those the walk over [u]
    makes, the exception leaves the loop. *)
Lemma copy_loop_subtree_fail u : forall rhs t rpar h0 pj f,
  rep (nodes_ rhs) rpar u ->
  (forall m, m < f -> mem m = alloc_ok) -> mem f <> alloc_ok ->
  length h0 < f -> f < length h0 + length (addrs u) ->
  match u with
  | Lf => True
  | Nd i c l k r =>
      nodes_ t = h0 ++ [mk_node k c nullptr nullptr pj] ->
      exists t', forall fuel,
        copy_loop mem (2 * length (addrs u) - 1 + fuel) rhs t
          (node_addr i) (node_addr (length h0))
        = Throws t'
  end.
Proof.
  induction u as [|i c l IHl k r IHr]; [done|].
  intros rhs t rpar h0 pj f Hrep Hok Hf Hlo Hhi Ht.
  pose proof Hrep as (Hi & Hl & Hr).
  set (j := length h0) in *.
  simpl addrs in *. rewrite length_app in *. simpl length in *.
  assert (forall fuel,
    2 * (length (addrs l) + S (length (addrs r))) - 1 + fuel
    = 2 * length (addrs l) + (2 * length (addrs r) + S fuel)) as Hfuel
    by (intros; lia).
  destruct (decide (f < S j + length (addrs l))) as [Hleft|Hright].
  - (* the failure is on the left *)
    destruct l as [|li lc ll lk lr]; [simpl in *; lia|].
    pose proof Hl as (Hli & _).
    assert (forall F, 2 * length (addrs (Nd li lc ll lk lr)) + F
                      = S (2 * length (addrs (Nd li lc ll lk lr)) - 1 + F)) as HS.
    { intros F. simpl. rewrite length_app. simpl. lia. }
    destruct (decide (f = S j)) as [->|Hne].
    + exists t. intros fuel. rewrite Hfuel, HS.
      apply (copy_step_left_fail mem _ rhs t i li _ _ _ _ _ h0 k c nullptr pj []
               Hi Hli Ht).
      rewrite Ht, length_app. simpl. fold j.
      by replace (j + 1) with (S j) by lia.
    + set (h1 := h0 ++ [mk_node k c (node_addr (S j)) nullptr pj]).
      assert (length h1 = S j) as Hh1.
      { unfold h1, j. rewrite length_app. simpl. lia. }
      pose proof (IHl rhs
        (mk_tree (h1 ++ [mk_node lk lc nullptr nullptr (node_addr j)])
           (end_node_ t)
           (if bool_decide (node_addr li = leftmost_ rhs) then node_addr (S j)
            else leftmost_ t)
           (rightmost_ t) (size_ t))
        (node_addr i) h1 (node_addr j) f Hl Hok Hf) as IH.
      rewrite Hh1 in IH. destruct IH as (t' & IH); [lia|lia|done|].
      exists t'. intros fuel. rewrite Hfuel, HS.
      rewrite (copy_step_left mem _ rhs t i li _ _ _ _ _ h0 k c nullptr pj []
                 (S j) Hi Hli Ht).
      2:{ rewrite Ht, length_app. simpl. unfold j. lia. }
      2:{ apply Hok. lia. }
      simpl app. simpl key. simpl color_.
      unfold h1 in IH. rewrite <-!app_assoc in IH. simpl app in IH. fold j.
      apply IH.
  - (* the left side is copied, the failure is on the right *)
    set (N := S (j + length (addrs l))).
    destruct r as [|ri rc rl rk rr]; [simpl in *; lia|].
    pose proof Hr as (Hri & _).
    assert (forall F, 2 * length (addrs (Nd ri rc rl rk rr)) + F
                      = S (2 * length (addrs (Nd ri rc rl rk rr)) - 1 + F)) as HS.
    { intros F. simpl. rewrite length_app. simpl. lia. }
    set (l' := relabel (S j) l).
    assert (root_ptr l = nullptr \/ root_ptr l' <> nullptr) as Hleftdone.
    { destruct l; [by left|by right]. }
    pose proof (fun F => copy_left_phase rhs t i c l k (Nd ri rc rl rk rr) rpar
                           h0 pj F Hrep Ht) as HL.
    fold j in HL. fold l' in HL.
    set (tL := mk_tree _ _ _ _ _) in HL.
    assert (length (nodes_ tL) = N) as HlenL.
    { unfold tL, N, l', j. simpl. rewrite length_app. simpl.
      rewrite length_cells, length_addrs_relabel. lia. }
    destruct (decide (f = N)) as [->|Hne].
    + exists tL. intros fuel. rewrite Hfuel, HL, HS by (intros; apply Hok; lia).
      apply (copy_step_right_fail mem _ rhs tL i ri _ _ _ _ _ h0 k c
               (root_ptr l') pj (cells (node_addr j) l') Hi Hri eq_refl Hleftdone).
      by rewrite HlenL.
    + set (h1 := h0 ++ mk_node k c (root_ptr l') (node_addr N) pj
                    :: cells (node_addr j) l').
      assert (length h1 = N) as Hh1.
      { unfold h1, N, l', j. rewrite length_app. simpl.
        rewrite length_cells, length_addrs_relabel. lia. }
      pose proof (IHr rhs
        (mk_tree (h1 ++ [mk_node rk rc nullptr nullptr (node_addr j)])
           (end_node_ tL) (leftmost_ tL)
           (if bool_decide (node_addr ri = rightmost_ rhs) then node_addr N
            else rightmost_ tL)
           (size_ tL))
        (node_addr i) h1 (node_addr j) f Hr Hok Hf) as IH.
      rewrite Hh1 in IH. destruct IH as (t' & IH); [unfold N; lia|unfold N; lia|done|].
      exists t'. intros fuel. rewrite Hfuel, HL, HS by (intros; apply Hok; lia).
      rewrite (copy_step_right mem _ rhs tL i ri _ _ _ _ _ h0 k c (root_ptr l')
                 pj (cells (node_addr j) l') N Hi Hri eq_refl Hleftdone);
        [|done|apply Hok; unfold N in *; lia].
      simpl key. simpl color_.
      unfold h1 in IH. rewrite <-!app_assoc in IH. simpl app in IH.
      apply IH.
Qed.

End CopyLoop.

(** ** The caches of the copy *)

Section CopiedCaches.
Context {Key : Type}.
Implicit Types (s l r : shape Key) (q cur : node_ptr).

Lemma addrs_nil s : addrs s = [] <-> s = Lf.
Proof.
  split; [|by intros ->]. destruct s; [done|]. simpl. intros H.
  by apply app_nil in H as [_ ?].
Qed.

Lemma copied_leftmost_miss s : forall a n cur,
  a ∉ addrs s -> copied_leftmost (node_addr a) n s cur = cur.
Proof.
  induction s as [|i c l IHl k r IHr]; [done|]. intros a n cur Ha. simpl in *.
  rewrite IHr by set_solver. destruct l as [|li lc ll lk lr]; [done|].
  rewrite IHl by set_solver. rewrite bool_decide_false; [done|].
  intros [= ->]. simpl in Ha. set_solver.
Qed.

Lemma copied_rightmost_miss s : forall a n cur,
  a ∉ addrs s -> copied_rightmost (node_addr a) n s cur = cur.
Proof.
  induction s as [|i c l IHl k r IHr]; [done|]. intros a n cur Ha. simpl in *.
  rewrite IHl by set_solver. destruct r as [|ri rc rl rk rr]; [done|].
  rewrite IHr by set_solver. rewrite bool_decide_false; [done|].
  intros [= ->]. simpl in Ha. set_solver.
Qed.

Lemma first_ptr_relabel n i c l k r :
  first_ptr (relabel n (Nd i c l k r))
  = match l with Lf => node_addr n | _ => first_ptr (relabel (S n) l) end.
Proof.
  unfold first_ptr. simpl. destruct l as [|li lc ll lk lr]; [done|].
  destruct (addrs (relabel (S n) (Nd li lc ll lk lr))) eqn:E; [|done].
  by apply addrs_nil in E.
Qed.

Lemma last_ptr_relabel n i c l k r :
  last_ptr (relabel n (Nd i c l k r))
  = match r with
    | Lf => node_addr n
    | _ => last_ptr (relabel (S n + length (addrs l)) r)
    end.
Proof.
  unfold last_ptr. simpl. rewrite last_app, last_cons.
  destruct r as [|ri rc rl rk rr]; [done|].
  destruct (last (addrs (relabel _ (Nd ri rc rl rk rr)))) eqn:E; [done|].
  apply last_None in E. by apply addrs_nil in E.
Qed.

(** Below the root, the node that [rhs.leftmost_] designates is met by a
    step to the left, and the cache of the copy is the first node of the
    copied subtree. *)
Lemma copied_leftmost_hit l : forall a n cur,
  NoDup (addrs l) -> head (addrs l) = Some a ->
  match l with
  | Lf => True
  | Nd li _ _ _ _ =>
      copied_leftmost (node_addr a) n l
        (if bool_decide (node_addr li = node_addr a) then node_addr n else cur)
      = first_ptr (relabel n l)
  end.
Proof.
  induction l as [|li lc ll IHl lk lr _]; [done|]. intros a n cur Hnd Ha.
  rewrite first_ptr_relabel. simpl copied_leftmost. simpl in Hnd, Ha.
  assert (a ∉ addrs lr) as Hlr.
  { destruct (addrs ll) as [|x xs] eqn:E; simpl in Ha; injection Ha as ->.
    - by apply NoDup_cons in Hnd as [? _].
    - apply NoDup_app in Hnd as (_ & Hd & _). intros Hin.
      apply (Hd a); set_solver. }
  rewrite copied_leftmost_miss by done.
  destruct ll as [|lli llc lll llk llr].
  - simpl in Ha. injection Ha as ->. by rewrite bool_decide_true.
  - apply NoDup_app in Hnd as (Hndl & _).
    assert (head (addrs (Nd lli llc lll llk llr)) = Some a) as Ha'.
    { destruct (addrs (Nd lli llc lll llk llr)) eqn:E; [|done].
      by apply addrs_nil in E. }
    apply (IHl a (S n) _ Hndl Ha').
Qed.

Lemma copied_rightmost_hit r : forall a n cur,
  NoDup (addrs r) -> last (addrs r) = Some a ->
  match r with
  | Lf => True
  | Nd ri _ _ _ _ =>
      copied_rightmost (node_addr a) n r
        (if bool_decide (node_addr ri = node_addr a) then node_addr n else cur)
      = last_ptr (relabel n r)
  end.
Proof.
  induction r as [|ri rc rl _ rk rr IHr]; [done|]. intros a n cur Hnd Ha.
  rewrite last_ptr_relabel. simpl copied_rightmost. simpl in Hnd, Ha.
  rewrite last_app, last_cons in Ha.
  apply NoDup_app in Hnd as (_ & Hd & Hnd).
  apply NoDup_cons in Hnd as (Hri & Hndr).
  assert (a ∉ addrs rl) as Hrl.
  { intros Hin. apply (Hd a Hin).
    destruct (last (addrs rr)) as [z|] eqn:E; injection Ha as ->; [|set_solver].
    apply last_Some in E as (front & ->). set_solver. }
  rewrite copied_rightmost_miss by done.
  destruct rr as [|rri rrc rrl rrk rrr].
  - simpl in Ha. injection Ha as ->. by rewrite bool_decide_true.
  - destruct (last (addrs (Nd rri rrc rrl rrk rrr))) as [z|] eqn:E.
    + injection Ha as ->. by apply (IHr a _ _ Hndr).
    + apply last_None in E. by apply addrs_nil in E.
Qed.

(** At the root no step leads to the node: when [rhs.leftmost_] is the
    root, the copy keeps the sentinel it started with. *)
Lemma copied_leftmost_root i c l k r :
  NoDup (addrs (Nd i c l k r)) ->
  copied_leftmost (first_ptr (Nd i c l k r)) 0 (Nd i c l k r) end_addr
  = match l with
    | Lf => end_addr
    | _ => first_ptr (relabel 0 (Nd i c l k r))
    end.
Proof.
  intros Hnd. rewrite first_ptr_relabel. unfold first_ptr. simpl in *.
  destruct l as [|li lc ll lk lr].
  - simpl. apply copied_leftmost_miss. by apply NoDup_cons in Hnd as [? _].
  - destruct (addrs (Nd li lc ll lk lr)) as [|a rest] eqn:E.
    { by apply addrs_nil in E. }
    simpl. rewrite <-E in Hnd.
    apply NoDup_app in Hnd as (Hndl & Hd & _).
    rewrite copied_leftmost_miss.
    2:{ intros Hin. apply (Hd a); [rewrite E|]; set_solver. }
    change (copied_leftmost (node_addr a) 1 (Nd li lc ll lk lr)
              (if bool_decide (node_addr li = node_addr a) then node_addr 1
               else end_addr)
            = first_ptr (relabel 1 (Nd li lc ll lk lr))).
    apply (copied_leftmost_hit (Nd li lc ll lk lr) a 1 end_addr Hndl).
    by rewrite E.
Qed.

Lemma copied_rightmost_root i c l k r :
  NoDup (addrs (Nd i c l k r)) ->
  copied_rightmost (last_ptr (Nd i c l k r)) 0 (Nd i c l k r) nullptr
  = match r with
    | Lf => nullptr
    | _ => last_ptr (relabel 0 (Nd i c l k r))
    end.
Proof.
  intros Hnd. rewrite last_ptr_relabel. unfold last_ptr. simpl in *.
  rewrite last_app, last_cons.
  apply NoDup_app in Hnd as (_ & Hd & Hnd).
  apply NoDup_cons in Hnd as (Hi & Hndr).
  destruct r as [|ri rc rl rk rr].
  - simpl. apply copied_rightmost_miss. intros Hin. by apply (Hd i Hin); left.
  - destruct (last (addrs (Nd ri rc rl rk rr))) as [a|] eqn:E.
    2:{ apply last_None in E. by apply addrs_nil in E. }
    rewrite (copied_rightmost_miss l).
    2:{ intros Hin. apply (Hd a Hin). right.
        apply last_Some in E as (front & ->). set_solver. }
    apply (copied_rightmost_hit (Nd ri rc rl rk rr) a _ nullptr Hndr E).
Qed.

End CopiedCaches.

(** ** The constructor *)

#[local] Arguments copy_loop : simpl never.

Section CopyConstructor.
Context {Key : Type} (mem : allocator).
Implicit Types (t rhs : RB_Tree Key) (s l r : shape Key).

(** The state the copy constructor builds, cell by cell. *)
Lemma RB_Tree_copy_cells rhs s :
  tree_rep rhs s ->
  (forall m, m < length (addrs s) -> mem m = alloc_ok) ->
  RB_Tree_copy mem rhs
  = Returns tt
      (mk_tree (cells end_addr (relabel 0 s))
         (Some (mk_end (root_ptr (relabel 0 s))))
         (copied_leftmost (leftmost_ rhs) 0 s end_addr)
         (copied_rightmost (rightmost_ rhs) 0 s nullptr)
         (size_ rhs)).
Proof.
  intros Ht Hmem. pose proof Ht as (He & Hrep & _ & Hlen).
  destruct s as [|i c l k r].
  { unfold RB_Tree_copy. rewrite (tree_rep_root _ _ Ht). done. }
  set (cp := mk_tree _ _ _ _ _).
  unfold RB_Tree_copy. rewrite (tree_rep_root _ _ Ht).
  cbn [defined root_ptr]. rewrite bool_decide_false by done.
  pose proof Hrep as (Hi & _).
  rewrite (load_key_node _ _ _ Hi), (load_color_node _ _ _ Hi).
  cbn [defined key color_].
  unfold insert_node. cbn [length nodes_ with_size RB_Tree_default].
  rewrite Hmem by (simpl; rewrite length_app; simpl; lia).
  cbn [and_then]. unfold set_root, root, end_node.
  cbn [with_nodes with_size RB_Tree_default end_node_ nodes_ leftmost_ rightmost_
       size_ app].
  erewrite store_left_end by done.
  cbn [defined with_end end_node_ nodes_ leftmost_ rightmost_ size_].
  erewrite load_left_end by done. cbn [defined end_left_].
  erewrite (store_parent_node _ 0) by done.
  cbn [defined with_parent with_nodes end_node_ nodes_ leftmost_ rightmost_
       size_ key color_ left_ right_ parent_].
  erewrite load_left_end by done. cbn [defined end_left_].
  rewrite Hlen.
  replace (S (2 * length (addrs (Nd i c l k r))))
    with (2 * length (addrs (Nd i c l k r)) - 1 + 2)
    by (simpl; rewrite length_app; simpl; lia).
  etrans.
  { apply (copy_loop_subtree mem (Nd i c l k r) rhs _ end_addr [] end_addr 2 Hrep);
      [done|reflexivity]. }
  rewrite copy_loop_end by (unfold end_node; by rewrite He).
  reflexivity.
Qed.

(** The copy holds the tree of the source, node for node, in the slots the
    walk gives them. *)
Lemma RB_Tree_copy_rep rhs s :
  tree_rep rhs s ->
  (forall m, m < length (addrs s) -> mem m = alloc_ok) ->
  exists cp, RB_Tree_copy mem rhs = Returns tt cp
    /\ tree_rep cp (relabel 0 s)
    /\ size_ cp = size_ rhs
    /\ leftmost_ cp = copied_leftmost (leftmost_ rhs) 0 s end_addr
    /\ rightmost_ cp = copied_rightmost (rightmost_ rhs) 0 s nullptr.
Proof.
  intros Ht Hmem. eexists. split; [by apply RB_Tree_copy_cells|].
  split_and!; [|done..]. unfold tree_rep. cbn [end_node_ nodes_].
  split_and!; [done| |apply NoDup_addrs_relabel|].
  - pose proof (rep_cells (relabel 0 s) [] [] end_addr) as H.
    simpl in H. rewrite app_nil_r in H.
    pose proof (rep_cells s [] [] end_addr) as H'.
    simpl in H'. by rewrite app_nil_r in H'.
  - by rewrite length_cells.
Qed.

End CopyConstructor.

(** ** The copy as a tree *)

Section CopyIsATree.
Context {Key : Type} (less : Key -> Key -> bool) (mem : allocator).
Implicit Types (t rhs cp : RB_Tree Key) (s l r : shape Key).

Lemma root_color_relabel s n : root_color (relabel n s) = root_color s.
Proof. by destruct s. Qed.

Lemma no_red_red_relabel s : forall n, no_red_red (relabel n s) <-> no_red_red s.
Proof.
  induction s as [|i c l IHl k r IHr]; [done|]. intros n. simpl.
  by rewrite !root_color_relabel, IHl, IHr.
Qed.

Lemma black_height_relabel s : forall n, black_height (relabel n s) = black_height s.
Proof.
  induction s as [|i c l IHl k r IHr]; [done|]. intros n. simpl. by rewrite IHl.
Qed.

Lemma balanced_relabel s : forall n, balanced (relabel n s) <-> balanced s.
Proof.
  induction s as [|i c l IHl k r IHr]; [done|]. intros n. simpl.
  by rewrite !black_height_relabel, IHl, IHr.
Qed.

Lemma red_black_relabel s n : red_black (relabel n s) <-> red_black s.
Proof.
  unfold red_black.
  by rewrite root_color_relabel, no_red_red_relabel, balanced_relabel.
Qed.

(** The copy of a tree that holds a binary search tree holds one too, with
    caches that depend on the children of the root. *)
Lemma RB_Tree_copy_structure rhs s :
  structure_ok less rhs s -> caches_ok rhs s ->
  (forall m, m < length (addrs s) -> mem m = alloc_ok) ->
  exists cp, RB_Tree_copy mem rhs = Returns tt cp
    /\ structure_ok less cp (relabel 0 s)
    /\ leftmost_ cp
       = match s with
         | Nd _ _ (Nd _ _ _ _ _) _ _ => first_ptr (relabel 0 s)
         | _ => end_addr
         end
    /\ rightmost_ cp
       = match s with
         | Nd _ _ _ _ (Nd _ _ _ _ _) => last_ptr (relabel 0 s)
         | _ => nullptr
         end.
Proof.
  intros (Ht & Hbst & Hsize) (Hl & Hr) Hmem.
  destruct (RB_Tree_copy_rep mem rhs s Ht Hmem)
    as (cp & Hcp & Hrep & Hsz & Hlm & Hrm).
  exists cp. split; [done|]. split; [|split].
  - split_and!; [done|by apply bst_relabel|].
    by rewrite Hsz, Hsize, length_addrs_relabel.
  - rewrite Hlm, Hl. destruct s as [|i c l k r]; [done|].
    destruct Ht as (_ & _ & Hnd & _).
    rewrite (copied_leftmost_root i c l k r Hnd). by destruct l.
  - rewrite Hrm, Hr. destruct s as [|i c l k r]; [done|].
    destruct Ht as (_ & _ & Hnd & _).
    rewrite (copied_rightmost_root i c l k r Hnd). by destruct r.
Qed.

End CopyIsATree.

(** ** Allocation failure during the copy *)

Section CopyThrows.
Context {Key : Type} (mem : allocator).
Implicit Types (t rhs cp : RB_Tree Key) (s l r : shape Key).

(** Either the first [n] allocations succeed, or one of them is the first
    to fail. *)
Lemma first_failure n :
  (forall m, m < n -> mem m = alloc_ok)
  \/ (exists f, f < n /\ mem f <> alloc_ok /\ forall m, m < f -> mem m = alloc_ok).
Proof.
  induction n as [|n [IH|(f & Hf & Hfail & Hok)]].
  - left. intros m Hm. lia.
  - destruct (mem n) eqn:E.
    + left. intros m Hm. destruct (decide (m = n)) as [->|]; [done|].
      apply IH. lia.
    + right. exists n. split_and!; [lia|by rewrite E|done].
    + right. exists n. split_and!; [lia|by rewrite E|done].
  - right. exists f. split_and!; [lia|done..].
Qed.

Lemma RB_Tree_copy_throws rhs s f :
  tree_rep rhs s ->
  (forall m, m < f -> mem m = alloc_ok) -> mem f <> alloc_ok ->
  f < length (addrs s) ->
  exists t', RB_Tree_copy mem rhs = Throws t'.
Proof.
  intros Ht Hok Hf Hlt. pose proof Ht as (He & Hrep & _ & Hlen).
  destruct s as [|i c l k r]; [simpl in Hlt; lia|].
  unfold RB_Tree_copy. rewrite (tree_rep_root _ _ Ht).
  cbn [defined root_ptr]. rewrite bool_decide_false by done.
  pose proof Hrep as (Hi & _).
  rewrite (load_key_node _ _ _ Hi), (load_color_node _ _ _ Hi).
  cbn [defined key color_].
  unfold insert_node. cbn [length nodes_ with_size RB_Tree_default].
  destruct (decide (f = 0)) as [->|Hne].
  { eexists. by destruct (mem 0). }
  rewrite Hok by lia.
  cbn [and_then]. unfold set_root, root, end_node.
  cbn [with_nodes with_size RB_Tree_default end_node_ nodes_ leftmost_ rightmost_
       size_ app].
  erewrite store_left_end by done.
  cbn [defined with_end end_node_ nodes_ leftmost_ rightmost_ size_].
  erewrite load_left_end by done. cbn [defined end_left_].
  erewrite (store_parent_node _ 0) by done.
  cbn [defined with_parent with_nodes end_node_ nodes_ leftmost_ rightmost_
       size_ key color_ left_ right_ parent_].
  erewrite load_left_end by done. cbn [defined end_left_].
  rewrite Hlen.
  replace (S (2 * length (addrs (Nd i c l k r))))
    with (2 * length (addrs (Nd i c l k r)) - 1 + 2)
    by (simpl; rewrite length_app; simpl; lia).
  destruct (copy_loop_subtree_fail mem (Nd i c l k r) rhs
               (mk_tree [mk_node k c nullptr nullptr end_addr]
                  (Some (mk_end (node_addr 0))) end_addr nullptr (size_ rhs))
               end_addr [] end_addr f Hrep Hok Hf) as (t' & Ht');
    [simpl; lia|done|reflexivity|].
  exists t'. apply Ht'.
Qed.

End CopyThrows.

(** * Lookup, insertion and the caches: what a caller can rely on *)

(** X1.  In a tree that holds a binary search tree, [find (k)] is [end()]
    exactly when [k] is not stored, and otherwise the node that holds
    [k]. *)
Theorem find_is_end_exactly_when_absent {Key : Type}
    (less : Key -> Key -> bool) (t : RB_Tree Key) (s : shape Key) (k : Key) :
  strict_total less -> structure_ok less t s ->
  exists it, find less t k = Some it
    /\ (it = end_ t <-> k ∉ keys s)
    /\ (k ∈ keys s -> load_key t it = Some k).
Proof. intros Hord. by apply find_cases. Qed.

Lemma find_is_end_exactly_when_absent_witness :
  exists it, find Nat.ltb example_tree 5 = Some it
    /\ (it = end_ example_tree <-> 5 ∉ keys example_shape)
    /\ (5 ∈ keys example_shape -> load_key example_tree it = Some 5).
Proof.
  apply (find_is_end_exactly_when_absent Nat.ltb example_tree example_shape 5).
  - nat_order.
  - example_structure.
Defined.

(** X2.  In a tree that holds a binary search tree, [contains (k)] is true
    exactly when [k] is stored. *)
Theorem contains_tells_stored_keys {Key : Type}
    (less : Key -> Key -> bool) (t : RB_Tree Key) (s : shape Key) (k : Key) :
  strict_total less -> structure_ok less t s ->
  exists b, contains less t k = Some b /\ (b = true <-> k ∈ keys s).
Proof. intros Hord. by apply contains_cases. Qed.

Lemma contains_tells_stored_keys_witness :
  exists b, contains Nat.ltb example_tree 3 = Some b
    /\ (b = true <-> 3 ∈ keys example_shape).
Proof.
  apply (contains_tells_stored_keys Nat.ltb example_tree example_shape 3).
  - nat_order.
  - example_structure.
Defined.

(** X3.  Insert, then look up: on a well-formed tree, when [insert (k)]
    returns a position, [find (k)] on the tree it leaves is that position
    (which is not [end()]), [contains (k)] is true, and [contains] answers
    as before for every other key. *)
Theorem insert_then_find {Key : Type}
    (less : Key -> Key -> bool) (mem : allocator)
    (t : RB_Tree Key) (s : shape Key) (k : Key)
    (p : node_ptr) (b : bool) (t' : RB_Tree Key) :
  strict_total less -> Inv less t s ->
  insert less mem t k = Returns (p, b) t' ->
  find less t' k = Some p
  /\ p <> end_ t'
  /\ contains less t' k = Some true
  /\ (forall k', k' <> k -> contains less t' k' = contains less t k').
Proof.
  intros Hord HInv Hins.
  destruct (insert_returns less mem Hord t s k p b t' HInv Hins)
    as (s' & HInv' & Hkeys & Hp & _).
  pose proof HInv as (Hs & _). pose proof HInv' as (Hs' & _).
  assert (k ∈ keys s') as Hin by (apply Hkeys; by left).
  destruct (find_cases less Hord t' s' k Hs') as (it & Hf & Hend & Hk).
  assert (it = p) as -> by (by eapply (key_node_unique less Hord t' s'); eauto).
  split_and!; [done|tauto| |].
  - unfold contains. rewrite Hf. simpl. f_equal. apply bool_decide_eq_true. tauto.
  - intros k' Hne.
    destruct (contains_cases less Hord t s k' Hs) as (b1 & -> & H1).
    destruct (contains_cases less Hord t' s' k' Hs') as (b2 & -> & H2).
    f_equal. rewrite Hkeys in H2.
    destruct b1, b2; try done; [destruct H2 as [_ H2]|destruct H1 as [_ H1]];
      intuition congruence.
Qed.

Lemma insert_then_find_witness :
  exists p b t',
    insert Nat.ltb plenty example_tree 7 = Returns (p, b) t'
    /\ find Nat.ltb t' 7 = Some p
    /\ p <> end_ t'
    /\ contains Nat.ltb t' 7 = Some true
    /\ (forall k', k' <> 7 ->
          contains Nat.ltb t' k' = contains Nat.ltb example_tree k').
Proof.
  eexists _, _, _. split; [by vm_compute|].
  apply (insert_then_find Nat.ltb plenty example_tree example_shape 7 _ true _).
  - nat_order.
  - example_inv.
  - by vm_compute.
Defined.

(** X4.  [insert] never moves a node and never rewrites a key: whatever the
    state of the tree, when a call returns, the keys of the arena are, slot
    by slot, those before the call, followed by the new key when the flag is
    true; [size_] has grown by one in that case and the new node is the last
    slot; when the flag is false the whole state is unchanged. *)
Theorem insert_only_appends_to_the_arena {Key : Type}
    (less : Key -> Key -> bool) (mem : allocator)
    (t : RB_Tree Key) (k : Key) (p : node_ptr) (b : bool) (t' : RB_Tree Key) :
  insert less mem t k = Returns (p, b) t' ->
  arena_keys t' = arena_keys t ++ (if b then [k] else [])
  /\ size t' = size t + (if b then 1 else 0)
  /\ (b = true -> p = node_addr (length (nodes_ t)))
  /\ (b = false -> t' = t).
Proof. apply insert_arena. Qed.

Lemma insert_only_appends_to_the_arena_witness :
  exists p b t',
    insert Nat.ltb plenty example_tree 7 = Returns (p, b) t'
    /\ arena_keys t' = arena_keys example_tree ++ (if b then [7] else [])
    /\ size t' = size example_tree + (if b then 1 else 0)
    /\ (b = true -> p = node_addr (length (nodes_ example_tree)))
    /\ (b = false -> t' = example_tree).
Proof.
  eexists _, _, _. split; [by vm_compute|].
  apply (insert_only_appends_to_the_arena Nat.ltb plenty example_tree 7).
  by vm_compute.
Defined.

(** X5.  On a well-formed tree, inserting a key that is not stored, when
    the allocation succeeds, returns the flag true and a position that
    holds the key; the tree is well formed again (search order, colors,
    balance, caches), its size has grown by one, and it holds the key on top
    of those it held. *)
Theorem insert_stores_a_new_key {Key : Type}
    (less : Key -> Key -> bool) (mem : allocator)
    (t : RB_Tree Key) (s : shape Key) (k : Key) :
  strict_total less -> Inv less t s -> k ∉ keys s ->
  mem (length (nodes_ t)) = alloc_ok ->
  exists p t' s',
    insert less mem t k = Returns (p, true) t'
    /\ Inv less t' s'
    /\ load_key t' p = Some k
    /\ size t' = S (size t)
    /\ (forall x, x ∈ keys s' <-> x = k \/ x ∈ keys s).
Proof.
  intros Hord HInv Hk Hmem.
  destruct (insert_absent less mem Hord t s k HInv Hk Hmem)
    as (t' & s' & before & after & Hins & HInv' & Hks & Hks' & Hlen & Hload).
  exists (node_addr (length (nodes_ t))), t', s'. split_and!; [done..| |].
  - destruct (insert_arena less mem t k _ _ _ Hins) as (_ & Hsz & _).
    unfold size. lia.
  - intros x. rewrite Hks, Hks'. set_solver.
Qed.

Lemma insert_stores_a_new_key_witness :
  exists p t' s',
    insert Nat.ltb plenty example_tree 7 = Returns (p, true) t'
    /\ Inv Nat.ltb t' s'
    /\ load_key t' p = Some 7
    /\ size t' = S (size example_tree)
    /\ (forall x, x ∈ keys s' <-> x = 7 \/ x ∈ keys example_shape).
Proof.
  apply (insert_stores_a_new_key Nat.ltb plenty example_tree example_shape 7).
  - nat_order.
  - example_inv.
  - simpl. set_solver.
  - reflexivity.
Defined.

(** X6.  After any non-empty sequence of inserts into an empty tree,
    [begin()] is a node that holds the least of the inserted keys and the
    rightmost cache is a node that holds the greatest. *)
Theorem caches_hold_the_extreme_keys {Key : Type}
    (less : Key -> Key -> bool) (ks : list Key) :
  strict_total less -> ks <> [] ->
  exists t lo hi,
    insert_all less plenty RB_Tree_default ks = Returns tt t
    /\ load_key t (begin t) = Some lo
    /\ load_key t (rightmost_ t) = Some hi
    /\ lo ∈ ks /\ hi ∈ ks
    /\ (forall x, x ∈ ks -> less x lo = false /\ less hi x = false).
Proof.
  intros Hord Hne.
  destruct (insert_all_spec less Hord ks _ _ (Inv_default less))
    as (t & s & Hrun & HInv & Hkeys).
  assert (forall x, x ∈ keys s <-> x ∈ ks) as Hkeys'.
  { intros x. rewrite Hkeys. simpl. set_solver. }
  assert (s <> Lf) as Hs.
  { intros ->. destruct ks as [|k ks]; [done|].
    specialize (Hkeys' k). simpl in Hkeys'. set_solver. }
  destruct (cached_ends less Hord t s HInv Hs) as (lo & hi & Hlo & Hhi & ? & ? & Hall).
  exists t, lo, hi. split_and!; [done..|by apply Hkeys'|by apply Hkeys'|].
  intros x Hx. by apply Hall, Hkeys'.
Qed.

Lemma caches_hold_the_extreme_keys_witness :
  exists t lo hi,
    insert_all Nat.ltb plenty RB_Tree_default [4; 9; 1; 6] = Returns tt t
    /\ load_key t (begin t) = Some lo
    /\ load_key t (rightmost_ t) = Some hi
    /\ lo ∈ [4; 9; 1; 6] /\ hi ∈ [4; 9; 1; 6]
    /\ (forall x, x ∈ [4; 9; 1; 6] -> Nat.ltb x lo = false /\ Nat.ltb hi x = false).
Proof.
  apply (caches_hold_the_extreme_keys Nat.ltb [4; 9; 1; 6]).
  - nat_order.
  - discriminate.
Defined.

(** X7.  After any sequence of inserts into an empty tree, [begin()] is
    [end()] exactly when nothing was inserted, which is also exactly when
    [empty()] is true and when the rightmost cache is null. *)
Theorem begin_is_end_exactly_when_empty {Key : Type}
    (less : Key -> Key -> bool) (ks : list Key) :
  strict_total less ->
  exists t,
    insert_all less plenty RB_Tree_default ks = Returns tt t
    /\ (begin t = end_ t <-> ks = [])
    /\ (empty t = true <-> ks = [])
    /\ (rightmost_ t = nullptr <-> ks = []).
Proof.
  intros Hord.
  destruct (insert_all_spec less Hord ks _ _ (Inv_default less))
    as (t & s & Hrun & ((Ht & _ & Hsize) & _ & Hl & Hr) & Hkeys).
  assert (addrs s = [] <-> ks = []) as Hnil.
  { pose proof (length_addrs_keys s) as Hlen. split.
    - intros Ha. rewrite Ha in Hlen. symmetry in Hlen.
      apply nil_length_inv in Hlen. apply elem_of_nil_inv. intros x Hx.
      assert (x ∈ keys s) as Hin by (apply Hkeys; by left).
      rewrite Hlen in Hin. set_solver.
    - intros ->. apply nil_length_inv. rewrite Hlen.
      assert (keys s = []) as ->; [|done].
      apply elem_of_nil_inv. intros x Hx. apply Hkeys in Hx. simpl in Hx.
      set_solver. }
  exists t. split_and!; [done| | |].
  - unfold begin, end_. rewrite Hl, (tree_rep_end_node _ _ Ht), <-Hnil.
    unfold first_ptr. by destruct (addrs s).
  - unfold empty. rewrite bool_decide_eq_true, Hsize, <-Hnil.
    by destruct (addrs s).
  - rewrite Hr, <-Hnil. unfold last_ptr.
    destruct (last (addrs s)) eqn:E.
    + split; [done|]. intros Ha. by rewrite Ha in E.
    + by apply last_None in E.
Qed.

Lemma begin_is_end_exactly_when_empty_witness :
  exists t,
    insert_all Nat.ltb plenty RB_Tree_default [3; 1] = Returns tt t
    /\ (begin t = end_ t <-> [3; 1] = [])
    /\ (empty t = true <-> [3; 1] = [])
    /\ (rightmost_ t = nullptr <-> [3; 1] = []).
Proof.
  apply (begin_is_end_exactly_when_empty Nat.ltb [3; 1]). nat_order.
Defined.

(** X9.  A bulk insert that meets an allocation failure stops at the first
    key whose node cannot be allocated.  On a well-formed tree the input
    splits into the keys dealt with and the keys left out: either nothing
    is left out and the call returns, or the call lets the exception out at
    the first key left out, which is a key that is not stored and whose
    allocation (the one made with the arena at its present length) fails.
    In both cases the tree is well formed and holds, besides what it held,
    exactly the keys dealt with. *)
Theorem bulk_insert_keeps_what_it_inserted {Key : Type}
    (less : Key -> Key -> bool) (mem : allocator)
    (t : RB_Tree Key) (s : shape Key) (ks : list Key) :
  strict_total less -> Inv less t s ->
  exists t' s' done_ left_out,
    ks = done_ ++ left_out
    /\ Inv less t' s'
    /\ (forall x, x ∈ keys s' <-> x ∈ done_ \/ x ∈ keys s)
    /\ ((left_out = [] /\ insert_range less mem t ks = Returns tt t')
        \/ (exists k rest, left_out = k :: rest
              /\ (k ∉ keys s')
              /\ mem (length (nodes_ t')) <> alloc_ok
              /\ insert_range less mem t ks = Throws t')).
Proof.
  intros Hord HInv. rewrite insert_range_insert_all.
  by apply insert_all_outcome.
Qed.

Lemma bulk_insert_keeps_what_it_inserted_witness :
  exists t' s' done_ left_out,
    [1; 7; 3; 8; 9] = done_ ++ left_out
    /\ Inv Nat.ltb t' s'
    /\ (forall x, x ∈ keys s' <-> x ∈ done_ \/ x ∈ keys example_shape)
    /\ ((left_out = []
         /\ insert_range Nat.ltb (exhausted_at 4 new_fails) example_tree
              [1; 7; 3; 8; 9] = Returns tt t')
        \/ (exists k rest, left_out = k :: rest
              /\ (k ∉ keys s')
              /\ exhausted_at 4 new_fails (length (nodes_ t')) <> alloc_ok
              /\ insert_range Nat.ltb (exhausted_at 4 new_fails) example_tree
                   [1; 7; 3; 8; 9] = Throws t')).
Proof.
  apply (bulk_insert_keeps_what_it_inserted Nat.ltb (exhausted_at 4 new_fails)
           example_tree example_shape [1; 7; 3; 8; 9]).
  - nat_order.
  - example_inv.
Defined.

(** X10.  In a tree that holds a binary search tree, [lower_bound (k)] and
    [upper_bound (k)] are the same position exactly when [k] is not
    stored. *)
Theorem bounds_meet_exactly_when_absent {Key : Type}
    (less : Key -> Key -> bool) (t : RB_Tree Key) (s : shape Key) (k : Key) :
  strict_total less -> structure_ok less t s ->
  exists lo hi,
    lower_bound less t k = Some lo /\ upper_bound less t k = Some hi
    /\ (lo = hi <-> k ∉ keys s).
Proof. intros Hord. by apply bounds_meet. Qed.

Lemma bounds_meet_exactly_when_absent_witness :
  exists lo hi,
    lower_bound Nat.ltb example_tree 2 = Some lo
    /\ upper_bound Nat.ltb example_tree 2 = Some hi
    /\ (lo = hi <-> 2 ∉ keys example_shape).
Proof.
  apply (bounds_meet_exactly_when_absent Nat.ltb example_tree example_shape 2).
  - nat_order.
  - example_structure.
Defined.

(** * Copying *)

(** X11.  The copy constructor clones the tree: when the source holds a
    tree and the allocations succeed, the copy holds a tree of the same
    shape with the same key and the same color at every node (in slots
    numbered in the order the nodes are created: a node, its left subtree,
    its right subtree), with the same size and as many nodes in its arena,
    so with the same keys in order.  This covers the empty source, whose
    copy allocates nothing. *)
Theorem copy_builds_the_same_tree {Key : Type} (mem : allocator)
    (rhs : RB_Tree Key) (s : shape Key) :
  tree_rep rhs s ->
  (forall m, m < length (addrs s) -> mem m = alloc_ok) ->
  exists cp,
    RB_Tree_copy mem rhs = Returns tt cp
    /\ tree_rep cp (relabel 0 s)
    /\ keys (relabel 0 s) = keys s
    /\ size cp = size rhs
    /\ length (nodes_ cp) = length (nodes_ rhs).
Proof.
  intros Ht Hmem.
  destruct (RB_Tree_copy_rep mem rhs s Ht Hmem) as (cp & Hcp & Hrep & Hsz & _).
  exists cp. split_and!; [done..|apply keys_relabel|done|].
  destruct Hrep as (_ & _ & _ & ->). destruct Ht as (_ & _ & _ & ->).
  apply length_addrs_relabel.
Qed.

Lemma copy_builds_the_same_tree_witness :
  exists cp,
    RB_Tree_copy plenty example_tree = Returns tt cp
    /\ tree_rep cp (relabel 0 example_shape)
    /\ keys (relabel 0 example_shape) = keys example_shape
    /\ size cp = size example_tree
    /\ length (nodes_ cp) = length (nodes_ example_tree).
Proof.
  apply (copy_builds_the_same_tree plenty example_tree example_shape).
  - example_rep.
  - intros m Hm. reflexivity.
Defined.

(** X12.  Lookups on a copy answer as on the source: when the source holds
    a binary search tree, [contains] gives the same answer on both for
    every key, and [find] is [end()] on the copy exactly when it is
    [end()] on the source. *)
Theorem copy_answers_lookups_like_the_source {Key : Type}
    (less : Key -> Key -> bool) (mem : allocator)
    (rhs : RB_Tree Key) (s : shape Key) :
  strict_total less -> structure_ok less rhs s ->
  (forall m, m < length (addrs s) -> mem m = alloc_ok) ->
  exists cp,
    RB_Tree_copy mem rhs = Returns tt cp
    /\ forall k,
         contains less cp k = contains less rhs k
         /\ (find less cp k = Some (end_ cp) <-> find less rhs k = Some (end_ rhs)).
Proof.
  intros Hord Hs Hmem. pose proof Hs as (Ht & Hbst & Hsize).
  destruct (RB_Tree_copy_rep mem rhs s Ht Hmem) as (cp & Hcp & Hrep & Hsz & _).
  assert (structure_ok less cp (relabel 0 s)) as Hs'.
  { split_and!; [done|by apply bst_relabel|].
    by rewrite Hsz, Hsize, length_addrs_relabel. }
  exists cp. split; [done|]. intros k. split.
  - destruct (contains_cases less Hord rhs s k Hs) as (b1 & -> & H1).
    destruct (contains_cases less Hord cp _ k Hs') as (b2 & -> & H2).
    rewrite keys_relabel in H2. f_equal.
    destruct b1, b2; try done; [destruct H1 as [H1 _]|destruct H2 as [H2 _]];
      intuition congruence.
  - destruct (find_cases less Hord rhs s k Hs) as (it1 & -> & H1 & _).
    destruct (find_cases less Hord cp _ k Hs') as (it2 & -> & H2 & _).
    rewrite keys_relabel in H2.
    split; intros [= ->]; f_equal; tauto.
Qed.

Lemma copy_answers_lookups_like_the_source_witness :
  exists cp,
    RB_Tree_copy plenty example_tree = Returns tt cp
    /\ forall k,
         contains Nat.ltb cp k = contains Nat.ltb example_tree k
         /\ (find Nat.ltb cp k = Some (end_ cp)
             <-> find Nat.ltb example_tree k = Some (end_ example_tree)).
Proof.
  apply (copy_answers_lookups_like_the_source Nat.ltb plenty example_tree
           example_shape).
  - nat_order.
  - example_structure.
  - intros m Hm. reflexivity.
Defined.

(** X13.  What iterating a copy visits: when the source is well formed and
    its root has a left child, the walk from [begin()] to [end()] of the
    copy yields the keys of the source in order; when the root has no left
    child (and the source is not empty) the copy has [begin() == end()] and
    the walk yields nothing, although the copy holds every key. *)
Theorem copy_iterates_only_when_the_root_has_a_left_child {Key : Type}
    (mem : allocator) (rhs : RB_Tree Key) (s : shape Key) :
  tree_rep rhs s -> caches_ok rhs s ->
  (forall m, m < length (addrs s) -> mem m = alloc_ok) ->
  exists cp,
    RB_Tree_copy mem rhs = Returns tt cp
    /\ traverse rhs = Some (keys s)
    /\ traverse cp
       = Some match s with
              | Nd _ _ (Nd _ _ _ _ _) _ _ => keys s
              | _ => []
              end.
Proof.
  intros Ht (Hl & Hr) Hmem.
  destruct (RB_Tree_copy_rep mem rhs s Ht Hmem)
    as (cp & Hcp & Hrep & Hsz & Hlm & _).
  exists cp. split_and!; [done|by apply traverse_rep|].
  destruct s as [|i c l k r].
  - unfold traverse, begin, end_. by rewrite (tree_rep_end_node _ _ Hrep), Hlm.
  - pose proof Ht as (_ & _ & Hnd & _).
    rewrite Hl, (copied_leftmost_root i c l k r Hnd) in Hlm.
    destruct l as [|li lc ll lk lr].
    + unfold traverse, begin, end_.
      by rewrite (tree_rep_end_node _ _ Hrep), Hlm.
    + rewrite (traverse_rep cp _ Hrep Hlm). by rewrite keys_relabel.
Qed.

Lemma copy_iterates_only_when_the_root_has_a_left_child_witness :
  exists cp,
    RB_Tree_copy plenty example_tree = Returns tt cp
    /\ traverse example_tree = Some (keys example_shape)
    /\ traverse cp
       = Some match example_shape with
              | Nd _ _ (Nd _ _ _ _ _) _ _ => keys example_shape
              | _ => []
              end.
Proof.
  apply (copy_iterates_only_when_the_root_has_a_left_child plenty example_tree
           example_shape).
  - example_rep.
  - split; reflexivity.
  - intros m Hm. reflexivity.
Defined.

(** X14.  The copy of a well-formed tree whose root has both children is
    well formed in every respect: search order, colors, balance, size and
    both caches. *)
Theorem copy_is_well_formed_when_the_root_has_both_children {Key : Type}
    (less : Key -> Key -> bool) (mem : allocator)
    (rhs : RB_Tree Key) (s : shape Key) :
  Inv less rhs s ->
  match s with
  | Nd _ _ (Nd _ _ _ _ _) _ (Nd _ _ _ _ _) => True
  | _ => False
  end ->
  (forall m, m < length (addrs s) -> mem m = alloc_ok) ->
  exists cp,
    RB_Tree_copy mem rhs = Returns tt cp /\ Inv less cp (relabel 0 s).
Proof.
  intros (Hs & Hrb & Hc) Hboth Hmem.
  destruct (RB_Tree_copy_structure less mem rhs s Hs Hc Hmem)
    as (cp & Hcp & Hs' & Hlm & Hrm).
  exists cp. split; [done|]. split_and!; [done|by apply red_black_relabel|].
  destruct s as [|i c [|li lc ll lk lr] k [|ri rc rl rk rr]]; try done.
Qed.

Lemma copy_is_well_formed_when_the_root_has_both_children_witness :
  exists cp,
    RB_Tree_copy plenty example_tree = Returns tt cp
    /\ Inv Nat.ltb cp (relabel 0 example_shape).
Proof.
  apply (copy_is_well_formed_when_the_root_has_both_children Nat.ltb plenty
           example_tree example_shape).
  - example_inv.
  - exact I.
  - intros m Hm. reflexivity.
Defined.

(** X15.  When one of the allocations the copy needs fails, the copy
    constructor lets the exception out: with a source that holds a tree, it
    neither returns a tree nor reads through a pointer that designates
    nothing. *)
Theorem copy_throws_when_an_allocation_fails {Key : Type}
    (mem : allocator) (rhs : RB_Tree Key) (s : shape Key) :
  tree_rep rhs s ->
  (exists m, m < length (addrs s) /\ mem m <> alloc_ok) ->
  exists t', RB_Tree_copy mem rhs = Throws t'.
Proof.
  intros Ht (m & Hm & Hfail).
  destruct (first_failure mem (length (addrs s))) as [Hok|(f & Hf & Hff & Hok)].
  { by destruct Hfail; apply Hok. }
  by apply (RB_Tree_copy_throws mem rhs s f).
Qed.

Lemma copy_throws_when_an_allocation_fails_witness :
  exists t', RB_Tree_copy (exhausted_at 2 new_fails) example_tree = Throws t'.
Proof.
  apply (copy_throws_when_an_allocation_fails (exhausted_at 2 new_fails)
           example_tree example_shape).
  - example_rep.
  - exists 2. split; [simpl; lia|simpl; discriminate].
Defined.

(** X16.  A copy of a tree with a single key cannot take another key: its
    rightmost cache is null, and [insert] of any other key reads through
    it. *)
Theorem insert_into_the_copy_of_a_one_key_tree_is_undefined {Key : Type}
    (less : Key -> Key -> bool) (k0 k : Key) :
  strict_total less -> k <> k0 ->
  exists t1 cp,
    insert_all less plenty RB_Tree_default [k0] = Returns tt t1
    /\ RB_Tree_copy plenty t1 = Returns tt cp
    /\ insert less plenty cp k = Undefined.
Proof.
  intros (Hirr & Htr & Htot) Hne.
  eexists _, _. split; [reflexivity|]. split; [reflexivity|].
  destruct (less k k0) eqn:E1.
  - cbv. rewrite E1. cbv. by rewrite E1.
  - destruct (less k0 k) eqn:E2.
    + cbv. rewrite E1, E2. cbv. by rewrite E1.
    + by destruct Hne; apply Htot.
Qed.

Lemma insert_into_the_copy_of_a_one_key_tree_is_undefined_witness :
  exists t1 cp,
    insert_all Nat.ltb plenty RB_Tree_default [1] = Returns tt t1
    /\ RB_Tree_copy plenty t1 = Returns tt cp
    /\ insert Nat.ltb plenty cp 2 = Undefined.
Proof.
  apply (insert_into_the_copy_of_a_one_key_tree_is_undefined Nat.ltb 1 2).
  - nat_order.
  - discriminate.
Defined.

(** * A whole run of inserts *)

(** X17.  After a bulk insert into a well-formed tree (allocations
    succeeding), [contains (k)] is true exactly for the keys of the input
    and the keys the tree held. *)
Theorem bulk_insert_then_contains {Key : Type}
    (less : Key -> Key -> bool) (t : RB_Tree Key) (s : shape Key)
    (ks : list Key) :
  strict_total less -> Inv less t s ->
  exists t',
    insert_range less plenty t ks = Returns tt t'
    /\ forall k, exists b,
         contains less t' k = Some b /\ (b = true <-> k ∈ ks \/ k ∈ keys s).
Proof.
  intros Hord HInv. rewrite insert_range_insert_all.
  destruct (insert_all_spec less Hord ks t s HInv) as (t' & s' & Hrun & (Hs' & _) & Hkeys).
  exists t'. split; [done|]. intros k.
  destruct (contains_cases less Hord t' s' k Hs') as (b & Hb & Hiff).
  exists b. split; [done|]. by rewrite Hiff, Hkeys.
Qed.

Lemma bulk_insert_then_contains_witness :
  exists t',
    insert_range Nat.ltb plenty example_tree [5; 1; 8] = Returns tt t'
    /\ forall k, exists b,
         contains Nat.ltb t' k = Some b
         /\ (b = true <-> k ∈ [5; 1; 8] \/ k ∈ keys example_shape).
Proof.
  apply (bulk_insert_then_contains Nat.ltb example_tree example_shape [5; 1; 8]).
  - nat_order.
  - example_inv.
Defined.

(** X18.  The order of iteration does not depend on the order of
    insertion: two sequences of inserts that present the same keys, in any
    order and with any repetitions, lead to trees whose walks from
    [begin()] to [end()] yield the same sequence. *)
Theorem iteration_ignores_the_insertion_order {Key : Type}
    (less : Key -> Key -> bool) (ks1 ks2 : list Key) :
  strict_total less -> (forall x, x ∈ ks1 <-> x ∈ ks2) ->
  exists t1 t2 visited,
    insert_all less plenty RB_Tree_default ks1 = Returns tt t1
    /\ insert_all less plenty RB_Tree_default ks2 = Returns tt t2
    /\ traverse t1 = Some visited
    /\ traverse t2 = Some visited.
Proof.
  intros Hord Hsame.
  destruct (insert_all_spec less Hord ks1 _ _ (Inv_default less))
    as (t1 & s1 & Hrun1 & ((Ht1 & Hbst1 & _) & _ & (Hl1 & _)) & Hkeys1).
  destruct (insert_all_spec less Hord ks2 _ _ (Inv_default less))
    as (t2 & s2 & Hrun2 & ((Ht2 & Hbst2 & _) & _ & (Hl2 & _)) & Hkeys2).
  exists t1, t2, (keys s1). split_and!; [done..|by apply traverse_rep|].
  rewrite (traverse_rep t2 s2 Ht2 Hl2). f_equal.
  apply (sorted_same_elements less Hord).
  - by apply (bst_sorted less Hord).
  - by apply (bst_sorted less Hord).
  - intros x. rewrite Hkeys1, Hkeys2. simpl. set_solver.
Qed.

Lemma iteration_ignores_the_insertion_order_witness :
  exists t1 t2 visited,
    insert_all Nat.ltb plenty RB_Tree_default [3; 1; 2; 3] = Returns tt t1
    /\ insert_all Nat.ltb plenty RB_Tree_default [2; 3; 1] = Returns tt t2
    /\ traverse t1 = Some visited
    /\ traverse t2 = Some visited.
Proof.
  apply (iteration_ignores_the_insertion_order Nat.ltb [3; 1; 2; 3] [2; 3; 1]).
  - nat_order.
  - intros x. set_solver.
Defined.

(** X19.  The tree stays shallow: after any sequence of inserts into an
    empty tree, no path from the root down holds more than
    [2 * log2 (size + 1)] nodes. *)
Theorem height_is_logarithmic {Key : Type}
    (less : Key -> Key -> bool) (ks : list Key) :
  strict_total less ->
  exists t s,
    insert_all less plenty RB_Tree_default ks = Returns tt t
    /\ tree_rep t s
    /\ height s <= 2 * Nat.log2 (size t + 1).
Proof.
  intros Hord.
  destruct (insert_all_spec less Hord ks _ _ (Inv_default less))
    as (t & s & Hrun & ((Ht & _ & Hsize) & Hrb & _) & _).
  exists t, s. split_and!; [done..|].
  unfold size. rewrite Hsize. by apply red_black_height.
Qed.

Lemma height_is_logarithmic_witness :
  exists t s,
    insert_all Nat.ltb plenty RB_Tree_default [1; 2; 3; 4; 5; 6; 7] = Returns tt t
    /\ tree_rep t s
    /\ height s <= 2 * Nat.log2 (size t + 1).
Proof.
  apply (height_is_logarithmic Nat.ltb [1; 2; 3; 4; 5; 6; 7]). nat_order.
Defined.
